(** * Wave: the per-frame simulation of [src/main.cpp]

    A shallow embedding of the game loop of [main] (lines 385-451) and of the
    hazard classes [Object], [Spray] and [Pelican] (lines 276-349).

    Numbers are modelled as the code has them: [float] is IEEE 754 binary32,
    [double] is binary64, every operation rounds to nearest even, and the
    usual arithmetic conversions of C++ are written out (a [float] operand
    meeting a [double] is widened first; a [glm::vec2] component is narrowed
    on assignment).  The arithmetic is the executable specification of the
    Standard Library ([SpecFloat]), instantiated at both formats; expressions
    are evaluated in the precision of their type (FLT_EVAL_METHOD = 0) and a
    product is rounded before it is added (no fused multiply-add).

    What the loop reads from the outside world is an input of the frame
    function: the two keys and the clock.  [std::cos] and the two random
    distributions of [<random>] are not part of the repository and are
    variables of the section that holds the model. *)

From Stdlib Require Import ZArith Bool List Lia.
From Stdlib Require Import Floats.SpecFloat.
Import ListNotations.
Open Scope Z_scope.

(** ** Floating-point formats *)

Definition float := spec_float.
Definition double := spec_float.

(** Conversion to the format [prec, emax]: a finite value is rounded to
    nearest even (to an infinity on overflow), the rest is kept. *)
Definition convert (prec emax : Z) (v : spec_float) : spec_float :=
  match v with
  | S754_finite s m e => binary_round prec emax s m e
  | _ => v
  end.

Module f32.
Definition prec := 24.
Definition emax := 128.
Definition add : float -> float -> float := SFadd prec emax.
Definition sub : float -> float -> float := SFsub prec emax.
Definition neg : float -> float := SFopp.
Definition ltb : float -> float -> bool := SFltb.
Definition leb : float -> float -> bool := SFleb.
Definition eqb : float -> float -> bool := SFeqb.
(** The decimal literal [n/d], correctly rounded ([n] and [d] are exact
    integers, so one division rounds once). *)
Definition lit (n d : positive) : float :=
  SFdiv prec emax (S754_finite false n 0) (S754_finite false d 0).
(** [static_cast<float>(double)]: round to nearest even in binary32. *)
Definition of_double (v : double) : float := convert prec emax v.
End f32.

Module f64.
Definition prec := 53.
Definition emax := 1024.
Definition add : double -> double -> double := SFadd prec emax.
Definition sub : double -> double -> double := SFsub prec emax.
Definition mul : double -> double -> double := SFmul prec emax.
Definition div : double -> double -> double := SFdiv prec emax.
Definition ltb : double -> double -> bool := SFltb.
Definition leb : double -> double -> bool := SFleb.
Definition lit (n d : positive) : double :=
  SFdiv prec emax (S754_finite false n 0) (S754_finite false d 0).
(** The implicit widening of a [float] operand: exact, the mantissa is
    only renormalised to 53 bits. *)
Definition of_float (v : float) : double := convert prec emax v.
(** [static_cast<int>(double)]: truncation toward zero.  Outside the range of
    [int], and for NaN, C++ leaves the result undefined; the model takes what
    the conversion instruction of x86-64 returns there, INT_MIN. *)
Definition to_int (v : double) : Z :=
  let r :=
    match v with
    | S754_zero _ => Some 0
    | S754_finite s m e =>
        let a := match e with
                 | Zneg p => Z.shiftr (Zpos m) (Zpos p)
                 | _ => Z.shiftl (Zpos m) e
                 end in
        Some (if s then - a else a)
    | _ => None
    end in
  match r with
  | Some n => if (-2147483648 <=? n) && (n <=? 2147483647) then n else -2147483648
  | None => -2147483648
  end.
End f64.

Declare Scope cxx_scope.
Delimit Scope cxx_scope with cxx.
Infix "+f" := f32.add (at level 50, left associativity) : cxx_scope.
Infix "-f" := f32.sub (at level 50, left associativity) : cxx_scope.
Infix "<f" := f32.ltb (at level 70, no associativity) : cxx_scope.
Infix "<=f" := f32.leb (at level 70, no associativity) : cxx_scope.
Infix "+d" := f64.add (at level 50, left associativity) : cxx_scope.
Infix "-d" := f64.sub (at level 50, left associativity) : cxx_scope.
Infix "*d" := f64.mul (at level 40, left associativity) : cxx_scope.
Infix "/d" := f64.div (at level 40, left associativity) : cxx_scope.
Infix "<d" := f64.ltb (at level 70, no associativity) : cxx_scope.
Infix "<=d" := f64.leb (at level 70, no associativity) : cxx_scope.
Open Scope cxx_scope.

(** ** Constants (lines 23-29) *)

Definition SPRAY_WIDTH : float := Eval vm_compute in f32.lit 4 10.
Definition PELICAN_WIDTH : float := Eval vm_compute in f32.lit 2 10.
Definition WAVE_SPEED : float := Eval vm_compute in f32.lit 4 10.
Definition BOAT_POS_X : float := Eval vm_compute in f32.lit 1 10.
Definition BOAT_WIDTH : float := Eval vm_compute in f32.lit 2 10.
Definition SEA_LEVEL : float := Eval vm_compute in f32.lit 8 10.
Definition GRAVITY : float := Eval vm_compute in f32.lit 9 10000.

(** [glm::pi<double>()]: the binary64 nearest to pi. *)
Definition pi : double :=
  Eval vm_compute in
    f64.lit 314159265358979323846264338327950288
            100000000000000000000000000000000000.

(** ** Hazards: [Object], [Spray], [Pelican] (lines 276-349) *)

Module glm.
Record vec2 := mkvec2 { x : float; y : float }.
End glm.

(** The members of the base class [Object]. *)
Record ObjectBase := mkObject {
  spawnTime_ : double;
  pos_ : glm.vec2;
  visible_ : bool
}.

(** The two subclasses; [Pelican] adds [animIndex_]. *)
Inductive Object :=
| Spray (base : ObjectBase)
| Pelican (base : ObjectBase) (animIndex_ : Z).

Definition base (o : Object) : ObjectBase :=
  match o with Spray b => b | Pelican b _ => b end.

Definition isVisible (o : Object) : bool := visible_ (base o).
Definition getSpawnTime (o : Object) : double := spawnTime_ (base o).

(** [Object(double spawnTime)]: [pos_] is left to the default constructor of
    [glm::vec2]; [update] overwrites it in the frame the object is created
    in, before anything reads it. *)
Definition Object_ctor (spawnTime : double) : ObjectBase :=
  mkObject spawnTime (glm.mkvec2 (S754_zero false) (S754_zero false)) true.

Definition Spray_ctor (spawnTime : double) : Object :=
  Spray (Object_ctor spawnTime).
Definition Pelican_ctor (spawnTime : double) : Object :=
  Pelican (Object_ctor spawnTime) 0.

(** [Pelican::update] (lines 328-332). *)
Definition Pelican_update (t : double) (b : ObjectBase) : Object :=
  let s := spawnTime_ b in
  let p := glm.mkvec2
             (f32.of_double
                (f64.of_float (f32.lit 1 1)
                 -d f64.of_float (f32.lit 8 10) *d (t -d s)))
             (f32.lit 5 100) in
  Pelican
    (mkObject s p (f32.neg PELICAN_WIDTH <=f glm.x p))
    (Z.rem (f64.to_int ((t -d s) /d f64.lit 25 100)) 2).

(** [Pelican::hit] (lines 341-345). *)
Definition Pelican_hit (b : ObjectBase) (boatPosY : float) : bool :=
  (glm.x (pos_ b) <f BOAT_POS_X +f BOAT_WIDTH)
  && (BOAT_POS_X <f glm.x (pos_ b) +f PELICAN_WIDTH)
  && (boatPosY -f f32.lit 2 10 <f glm.y (pos_ b) +f f32.lit 2 10).

(** [Spray::hit] (lines 315-319): the first comparison is carried out in
    [double] because of the literal [0.5]. *)
Definition Spray_hit (b : ObjectBase) (boatPosY : float) : bool :=
  (f64.of_float (glm.x (pos_ b)) +d f64.lit 5 10 *d f64.of_float SPRAY_WIDTH
     <d f64.of_float (BOAT_POS_X +f BOAT_WIDTH))
  && (BOAT_POS_X <f glm.x (pos_ b) +f SPRAY_WIDTH)
  && (glm.y (pos_ b) <f boatPosY).

Definition hit (o : Object) (boatPosY : float) : bool :=
  match o with
  | Spray b => Spray_hit b boatPosY
  | Pelican b _ => Pelican_hit b boatPosY
  end.

(** What one iteration of the loop reads from GLFW. *)
Record Input := mkInput {
  retryKeyPressed : bool;
  jumpKeyPressed : bool;
  glfwGetTime : double
}.

(** The parameters of the two distributions of [<random>] (lines 393-394). *)
Module random.
Record uniform_real_distribution := mkUniform { a : double; b : double }.
Record bernoulli_distribution := mkBernoulli { p : double }.
End random.

Definition intervalDist : random.uniform_real_distribution :=
  random.mkUniform (f64.lit 1 1) (f64.lit 3 1).
(** Default-constructed: [p = 0.5]. *)
Definition typeDist : random.bernoulli_distribution :=
  random.mkBernoulli (f64.lit 1 2).

(** [std::uniform_real_distribution<double>::operator()] as libstdc++ and
    libc++ compute it from the value [u] of [std::generate_canonical], a
    [double] in [0, 1): [u * (b - a) + a], each operation rounded. *)
Definition uniform_real (d : random.uniform_real_distribution) (u : double)
  : double :=
  u *d (random.b d -d random.a d) +d random.a d.

(** The sampling operator of the uniform distribution over an engine whose
    canonical draws are given by [generate_canonical]. *)
Definition sample_uniform_real_from {E : Type}
  (generate_canonical : E -> double * E)
  (d : random.uniform_real_distribution) (g : E) : double * E :=
  let (u, g') := generate_canonical g in (uniform_real d u, g').

Section Wave.

(** [std::cos] on [double]. *)
Variable std_cos : double -> double.

(** [std::mt19937] and the sampling operators of the two distributions: a
    draw returns the sample and the advanced engine. *)
Variable mt19937 : Type.
Variable sample_bernoulli :
  random.bernoulli_distribution -> mt19937 -> bool * mt19937.
Variable sample_uniform_real :
  random.uniform_real_distribution -> mt19937 -> double * mt19937.

(** [Spray::update] (lines 304-307). *)
Definition Spray_update (t : double) (b : ObjectBase) : Object :=
  let s := spawnTime_ b in
  let p := glm.mkvec2
             (f32.of_double
                (f64.of_float (f32.lit 9 10)
                 -d f64.of_float WAVE_SPEED *d (t -d s)))
             (f32.of_double
                (f64.of_float (f32.lit 75 100)
                 +d f64.lit 25 100 *d std_cos (f64.lit 2 1 *d (t -d s)))) in
  Spray (mkObject s p (t <=d s +d pi)).

(** Virtual dispatch of [update]. *)
Definition update (t : double) (o : Object) : Object :=
  match o with
  | Spray b => Spray_update t b
  | Pelican b _ => Pelican_update t b
  end.

(** ** The session: the locals of [main] that outlive a frame (lines 385-399) *)

Record Session := mkSession {
  boatPosY : float;
  boatVelY : float;
  grounded : bool;
  objects : list Object;
  randEngine : mt19937;
  interval : double;
  gameover : bool;
  time : double
}.

(** The state before the first frame; [seed] is the engine seeded from
    [std::random_device], [t0] and [t1] the two clock readings. *)
Definition init (seed : mt19937) (t0 t1 : double) : Session :=
  mkSession SEA_LEVEL (S754_zero false) true [] seed t0 false t1.

(** Vessel physics (lines 413-426) on (boatPosY, boatVelY, grounded). *)
Definition physics (jump : bool) (v : float * float * bool)
  : float * float * bool :=
  let '(posY, velY, g) := v in
  if g then
    if jump then (posY, velY -f f32.lit 3 100, false) else (posY, velY, g)
  else if SEA_LEVEL <f posY then (SEA_LEVEL, S754_zero false, true)
  else (posY +f velY, velY +f GRAVITY, g).

(** The collision loop (lines 428-433): [gameover] is set as soon as one
    object reports a hit. *)
Definition collide (boatPosY : float) (objs : list Object) : bool :=
  existsb (fun o => hit o boatPosY) objs.

(** The cull loop (lines 435-437). *)
Fixpoint cull (objs : list Object) : list Object :=
  match objs with
  | [] => []
  | o :: rest => if isVisible o then objs else cull rest
  end.

(** [objects.back()], when there is one. *)
Definition back (objs : list Object) : option Object :=
  last (map Some objs) None.

(** The condition of the spawn scheduler (line 439). *)
Definition spawn_due (t gap : double) (objs : list Object) : bool :=
  match back objs with
  | None => true
  | Some o => getSpawnTime o +d gap <d t
  end.

(** The spawn scheduler (lines 439-446): the registry, the engine and the
    gap after it. *)
Definition spawn (t : double) (objs : list Object) (g : mt19937) (gap : double)
  : list Object * mt19937 * double :=
  if spawn_due t gap objs then
    let (spray, g1) := sample_bernoulli typeDist g in
    let objs' := objs ++ [if spray then Spray_ctor t else Pelican_ctor t] in
    let (gap', g2) := sample_uniform_real intervalDist g1 in
    (objs', g2, gap')
  else (objs, g, gap).

(** One iteration of the main loop (lines 401-451), rendering left out. *)
Definition frame (i : Input) (s : Session) : Session :=
  if gameover s then
    if retryKeyPressed i then
      mkSession SEA_LEVEL (S754_zero false) true [] (randEngine s)
                (interval s) false (time s)
    else s
  else
    let t := glfwGetTime i in
    let '(posY, velY, g) :=
      physics (jumpKeyPressed i) (boatPosY s, boatVelY s, grounded s) in
    let over := collide posY (objects s) in
    let '(objs, eng, gap) :=
      spawn t (cull (objects s)) (randEngine s) (interval s) in
    mkSession posY velY g (map (update t) objs) eng gap over t.

(** The loop over a sequence of inputs. *)
Definition run (inputs : list Input) (s : Session) : Session :=
  fold_left (fun s i => frame i s) inputs s.

End Wave.

Arguments mkSession {mt19937}.
Arguments boatPosY {mt19937}.
Arguments boatVelY {mt19937}.
Arguments grounded {mt19937}.
Arguments objects {mt19937}.
Arguments randEngine {mt19937}.
Arguments interval {mt19937}.
Arguments gameover {mt19937}.
Arguments time {mt19937}.
Arguments init {mt19937}.
Arguments spawn {mt19937}.
Arguments frame std_cos {mt19937}.
Arguments run std_cos {mt19937}.

(** The vessel part of a session, and the vessel states after each of a
    sequence of jump-key readings (the physics block run frame after frame). *)
Definition vessel {E : Type} (s : Session E) : float * float * bool :=
  (boatPosY s, boatVelY s, grounded s).

Fixpoint physics_trace (jumps : list bool) (v : float * float * bool)
  : list (float * float * bool) :=
  match jumps with
  | [] => []
  | j :: rest => let v' := physics j v in v' :: physics_trace rest v'
  end.

(** The invariant of the vessel (spec section 3). *)
Definition vessel_inv (v : float * float * bool) : Prop :=
  snd v = true -> snd (fst v) = S754_zero false /\ fst (fst v) = SEA_LEVEL.

(** Two objects of the same subclass. *)
Definition same_variant (o1 o2 : Object) : bool :=
  match o1, o2 with
  | Spray _, Spray _ => true
  | Pelican _ _, Pelican _ _ => true
  | _, _ => false
  end.

(** Adjacent elements compared with [lt]. *)
Fixpoint chain (lt : float -> float -> bool) (l : list float) : bool :=
  match l with
  | p :: (q :: _) as rest => lt p q && chain lt rest
  | _ => true
  end.

(** ** A closed instance of the section's variables

    Used to evaluate the model on concrete frames.  The engine replays a
    recorded tape of draws: a Bernoulli draw is the next bit, a uniform draw
    is the lower bound [a] on [false] and the midpoint of [a, b) on [true].
    The cosine is tabulated (correctly rounded) at the arguments met by the
    recorded runs below. *)
Module Replay.

Definition engine := list bool.

Definition sample_bernoulli (d : random.bernoulli_distribution) (g : engine)
  : bool * engine := (hd false g, tl g).

Definition sample_uniform_real (d : random.uniform_real_distribution)
  (g : engine) : double * engine :=
  ((if hd false g
    then random.a d +d (random.b d -d random.a d) /d f64.lit 2 1
    else random.a d),
   tl g).

Definition cos_table : list (double * double) :=
  [ (f64.lit 5 2, SFopp (f64.lit 8011436155469337 10000000000000000));
    (f64.lit 9 2, SFopp (f64.lit 2107957994307797 10000000000000000));
    (f64.lit 5 1, f64.lit 28366218546322625 100000000000000000);
    (f64.lit 23 4, f64.lit 8611924171615208 10000000000000000);
    (f64.lit 47 8, f64.lit 9178426658157577 10000000000000000);
    (f64.lit 11 2, f64.lit 70866977429126 100000000000000);
    (f64.lit 8 1, SFopp (f64.lit 14550003380861354 100000000000000000)) ].

Definition std_cos (v : double) : double :=
  match find (fun e => SFeqb (fst e) v) cos_table with
  | Some e => snd e
  | None => f64.lit 1 1
  end.

Definition frame := frame std_cos sample_bernoulli sample_uniform_real.
Definition run := run std_cos sample_bernoulli sample_uniform_real.

Definition at_time (t : double) : Input := mkInput false false t.

(** A Spray at 0, a Pelican at 1.25, then a frame at 2.875. *)
Definition two_hazards : Session engine :=
  Eval vm_compute in
    run [at_time (S754_zero false); at_time (f64.lit 5 4); at_time (f64.lit 23 8)]
        (init [true; false; false; true] (S754_zero false) (S754_zero false)).

(** A Spray at 0 that reaches the grounded vessel, a Pelican at 2.25. *)
Definition spray_arrives : Session engine :=
  Eval vm_compute in
    run [at_time (S754_zero false); at_time (f64.lit 9 4)]
        (init [true; true; false; false] (S754_zero false) (S754_zero false)).

(** Two Sprays at 0 and 1.25 and a Pelican at 2.5, then a frame at 4: the
    first Spray and the Pelican are left invisible, the second Spray
    visible, and the game goes on. *)
Definition mixed_registry : Session engine :=
  Eval vm_compute in
    run [at_time (S754_zero false); at_time (f64.lit 5 4); at_time (f64.lit 5 2);
         at_time (f64.lit 4 1)]
        (init [true; false; true; false; false; true]
              (S754_zero false) (S754_zero false)).

End Replay.

(** ** A second closed instance: the canonical draws on a tape

    The engine replays recorded values of [std::generate_canonical].  The
    uniform draw is the operator above; the Bernoulli draw compares the
    canonical value with [p], as libstdc++ does. *)
Module Tape.

Definition engine := list double.

Definition generate_canonical (g : engine) : double * engine :=
  (hd (S754_zero false) g, tl g).

Definition sample_bernoulli (d : random.bernoulli_distribution) (g : engine)
  : bool * engine := (hd (S754_zero false) g <d random.p d, tl g).

Definition sample_uniform_real :=
  sample_uniform_real_from generate_canonical.

Definition frame := frame Replay.std_cos sample_bernoulli sample_uniform_real.
Definition run := run Replay.std_cos sample_bernoulli sample_uniform_real.

(** The largest [double] below 1: [1 - 2^-53]. *)
Definition below_one : double := S754_finite false 9007199254740991 (-53).

(** Two Pelicans, spawned at 0 and at 1.25, the gap then drawn being 2.0;
    the tape still holds the draws of the next spawn. *)
Definition two_pelicans : Session engine :=
  Eval vm_compute in
    run [Replay.at_time (S754_zero false); Replay.at_time (f64.lit 5 4)]
        (init [f64.lit 3 4; S754_zero false; f64.lit 3 4; f64.lit 1 2;
               f64.lit 1 4; below_one]
              (S754_zero false) (S754_zero false)).

End Tape.

(** ** The scenarios of the spec *)

(** The vessel states after a frame with the jump key down followed by [n]
    frames with it up, from the initial vessel. *)
Definition jump_once (n : nat) : list (float * float * bool) :=
  physics_trace (true :: repeat false n) (SEA_LEVEL, S754_zero false, true).

Definition posY_of (v : float * float * bool) : float := fst (fst v).

Definition airborne_nan : float * float * bool := (S754_nan, S754_nan, false).

Definition pelican_at (t : double) : ObjectBase :=
  base (Pelican_update t (Object_ctor (S754_zero false))).

(** ** Rounding, specified on integers

    The definitions below state what the rounding of [SpecFloat] computes;
    they are used by the lemmas on the order of floats further down. *)

(** The code of [X / 2^n] for rounding: twice the quotient by [2^(n-1)],
    plus one when the remainder is not zero. *)
Definition code (X n : Z) : Z :=
  2 * (X / 2 ^ (n - 1)) + (if X mod 2 ^ (n - 1) =? 0 then 0 else 1).

(** Rounding to nearest, ties to even, from the code. *)
Definition rne_code (T : Z) : Z :=
  let q := T / 4 in
  let c := T mod 4 in
  if c <=? 1 then q
  else if c =? 2 then (if Z.even q then q else q + 1)
  else q + 1.

(** [X / 2^n] rounded to nearest even. *)
Definition rne (X n : Z) : Z := if n <=? 0 then X else rne_code (code X n).

(** What the shift record holds after [k] steps on [X]. *)
Definition shr_inv (X k : Z) (r : shr_record) : Prop :=
  shr_m r = X / 2 ^ k
  /\ shr_r r = Z.odd (X / 2 ^ (k - 1))
  /\ shr_s r = negb (X mod 2 ^ (k - 1) =? 0).

(** The result of the second normalisation of [binary_round_aux], from the
    rounded mantissa [M] at exponent [f]. *)
Definition pack (prec emax : Z) (s : bool) (M f : Z) : spec_float :=
  if M =? 0 then S754_zero s
  else if M =? 2 ^ prec then
    if f + 1 <=? emax - prec
    then S754_finite s (Z.to_pos (2 ^ (prec - 1))) (f + 1)
    else S754_infinity s
  else if f <=? emax - prec then S754_finite s (Z.to_pos M) f
  else S754_infinity s.

(** A float as an integer multiple of [2^E]; the infinities sit at
    [2^(emax - E)], above every finite float of the format. *)
Definition INF (emax E : Z) : Z := 2 ^ (emax - E).

Definition ord (emax E : Z) (v : spec_float) : Z :=
  match v with
  | S754_zero _ => 0
  | S754_infinity s => cond_Zopp s (INF emax E)
  | S754_nan => 0
  | S754_finite s m e => cond_Zopp s (Zpos m * 2 ^ (e - E))
  end.

(** Well-formed: canonical and in range for the format, and not NaN. *)
Definition wf (prec emax : Z) (v : spec_float) : Prop :=
  valid_binary prec emax v = true /\ v <> S754_nan.

Definition is_fin (v : spec_float) : bool :=
  match v with
  | S754_zero _ | S754_finite _ _ _ => true
  | _ => false
  end.

(** The rounding of the positive multiple [X] of [2^E], and its extension
    to all integers with overflow to the infinities. *)
Definition G (prec emax E X : Z) : Z :=
  let n := fexp prec emax (Z.log2 X + 1 + E) - E in rne X n * 2 ^ n.

Definition Rz (prec emax E X : Z) : Z :=
  match X with
  | 0 => 0
  | Zpos _ => Z.min (INF emax E) (G prec emax E X)
  | Zneg q => - Z.min (INF emax E) (G prec emax E (Zpos q))
  end.

(** [x] is at most [y], both well-formed. *)
Definition fle (prec emax : Z) (x y : spec_float) : Prop :=
  wf prec emax x /\ wf prec emax y /\ SFleb x y = true.

Abbreviation fle32 := (fle f32.prec f32.emax).
Abbreviation fle64 := (fle f64.prec f64.emax).

(** A finite, canonical [double] or [float]: what the clock returns and
    what the physics computes. *)
Definition finite_double (v : double) : Prop :=
  wf f64.prec f64.emax v /\ is_fin v = true.
Definition finite_float (v : float) : Prop :=
  wf f32.prec f32.emax v /\ is_fin v = true.

(** A registry of one subclass, in strictly increasing order of spawn
    time, every spawn time finite. *)
Fixpoint spawn_ordered (objs : list Object) : Prop :=
  match objs with
  | [] => True
  | o :: rest =>
      finite_double (getSpawnTime o)
      /\ Forall (fun h => same_variant o h = true
                         /\ (getSpawnTime o <d getSpawnTime h) = true) rest
      /\ spawn_ordered rest
  end.

(** The horizontal part of [Pelican::hit]. *)
Definition Pelican_overlap (b : ObjectBase) : bool :=
  (glm.x (pos_ b) <f BOAT_POS_X +f BOAT_WIDTH)
  && (BOAT_POS_X <f glm.x (pos_ b) +f PELICAN_WIDTH).

(** Well-formedness of a float given in full. *)
Ltac closed_wf := split; [reflexivity | discriminate].

(** Case analysis on the sign tests left by [cond_Zopp]. *)
Ltac case_sign :=
  repeat match goal with
         | |- context [?a <? 0] => destruct (Z.ltb_spec a 0)
         end;
  cbn [cond_Zopp].

(** * Further definitions: the cycle of the vessel, drawing, the registry *)

(** ** The states of a jump *)

(** Equality of floats as data (not the IEEE comparison). *)
Definition sf_eqb (x y : spec_float) : bool :=
  match x, y with
  | S754_zero a, S754_zero b => Bool.eqb a b
  | S754_infinity a, S754_infinity b => Bool.eqb a b
  | S754_nan, S754_nan => true
  | S754_finite a m e, S754_finite b n f =>
      Bool.eqb a b && Pos.eqb m n && Z.eqb e f
  | _, _ => false
  end.

Definition vessel_eqb (v w : float * float * bool) : bool :=
  sf_eqb (fst (fst v)) (fst (fst w))
  && sf_eqb (snd (fst v)) (snd (fst w))
  && Bool.eqb (snd v) (snd w).

(** The vessel at rest, then the 69 airborne states of a jump, in order. *)
Definition jump_cycle : list (float * float * bool) :=
  Eval vm_compute in (SEA_LEVEL, S754_zero false, true) :: jump_once 68.

(** The lowest and the highest value of [boatPosY] on the cycle: the apex
    of the jump (about 0.2849) and the overshoot (about 0.8102). *)
Definition APEX : float := S754_finite false 9559669 (-25).
Definition OVERSHOOT : float := S754_finite false 13592912 (-24).

(** ** A hazard as the frame that spawns it leaves it *)

Definition Spray_spawned (t : double) : Object :=
  Spray (mkObject t (glm.mkvec2 (f32.lit 9 10) (f32.lit 1 1)) true).
Definition Pelican_spawned (t : double) : Object :=
  Pelican (mkObject t (glm.mkvec2 (f32.lit 1 1) (f32.lit 5 100)) true) 0.

(** ** Drawing a hazard (lines 249-274, 309-313, 334-339) *)

(** The textures of [SpriteStore], by file. *)
Inductive Image := spray_png | pelican0_png | pelican1_png.

(** [Sprite]: its texture and its size; the position is set at each draw. *)
Record Sprite := mkSprite { image : Image; size_ : glm.vec2 }.

Definition spraySprite_ : Sprite :=
  mkSprite spray_png (glm.mkvec2 SPRAY_WIDTH (f32.lit 5 10)).

Definition pelicanSprites_ : list Sprite :=
  [ mkSprite pelican0_png (glm.mkvec2 PELICAN_WIDTH (f32.lit 2 10));
    mkSprite pelican1_png (glm.mkvec2 PELICAN_WIDTH (f32.lit 33 100)) ].

(** [std::vector::at] with an [int] index: the index is converted to an
    unsigned type, so a negative one is out of range like one past the end;
    [None] stands for the [std::out_of_range] thrown. *)
Definition vector_at {A : Type} (v : list A) (n : Z) : option A :=
  if (0 <=? n) && (n <? Z.of_nat (length v)) then nth_error v (Z.to_nat n)
  else None.

(** [Spray::draw] and [Pelican::draw]: the sprite drawn and the position it
    is given. *)
Definition draw (o : Object) : option (Sprite * glm.vec2) :=
  match o with
  | Spray b => Some (spraySprite_, pos_ b)
  | Pelican b animIndex_ =>
      match vector_at pelicanSprites_ animIndex_ with
      | Some sprite => Some (sprite, pos_ b)
      | None => None
      end
  end.

(** The loop that draws the registry (lines 466-468): the sprites drawn, in
    order, or [None] when a lookup throws. *)
Fixpoint draw_objects (objs : list Object) : option (list (Sprite * glm.vec2)) :=
  match objs with
  | [] => Some []
  | o :: rest =>
      match draw o with
      | Some d =>
          match draw_objects rest with
          | Some ds => Some (d :: ds)
          | None => None
          end
      | None => None
      end
  end.

(** Not below zero: a zero, a positive finite float, plus infinity, or NaN. *)
Definition not_negative (v : spec_float) : bool :=
  match v with
  | S754_finite true _ _ | S754_infinity true => false
  | _ => true
  end.

(** The part of the contract of [std::cos] the properties rely on: the
    result is NaN (for an infinite or NaN argument) or a [double] not
    below -1. *)
Definition cos_at_least_minus_one (std_cos : double -> double) : Prop :=
  forall v, std_cos v = S754_nan
            \/ (wf f64.prec f64.emax (std_cos v)
                /\ (SFopp (f64.lit 1 1) <=d std_cos v) = true).

(** ** The registry over a session *)

(** The contract of [std::uniform_real_distribution]: a draw from
    [intervalDist] is a [double] in [1.0, 3.0). *)
Definition draws_in_range {E : Type}
  (sample_uniform_real : random.uniform_real_distribution -> E -> double * E)
  : Prop :=
  forall g,
    wf f64.prec f64.emax (fst (sample_uniform_real intervalDist g))
    /\ (random.a intervalDist <=d fst (sample_uniform_real intervalDist g)) = true
    /\ (fst (sample_uniform_real intervalDist g) <d random.b intervalDist) = true.

(** Every clock reading of the frames is a finite [double]. *)
Definition finite_clock (inputs : list Input) : Prop :=
  Forall (fun i => finite_double (glfwGetTime i)) inputs.

(** Spawn times finite, and each more than [1.0] after the one before it,
    the sum as the scheduler computes it. *)
Fixpoint spaced (objs : list Object) : Prop :=
  match objs with
  | [] => True
  | o :: rest =>
      finite_double (getSpawnTime o)
      /\ match rest with
         | [] => True
         | h :: _ => (getSpawnTime o +d f64.lit 1 1 <d getSpawnTime h) = true
         end
      /\ spaced rest
  end.

(** What the frames maintain on the registry and the scheduler: the
    registry is spaced, and while it is not empty the gap is a draw of
    [intervalDist]. *)
Definition registry_inv {E : Type} (s : Session E) : Prop :=
  spaced (objects s)
  /\ (objects s <> [] ->
      fle64 (f64.lit 1 1) (interval s)
      /\ (interval s <d f64.lit 3 1) = true).

(** Every hazard of the registry has a finite spawn time and is as
    [update] at the time of the session leaves it. *)
Definition registry_updated (std_cos : double -> double) {E : Type}
  (s : Session E) : Prop :=
  Forall (fun o => finite_double (getSpawnTime o)
                   /\ wf f64.prec f64.emax (time s)
                   /\ update std_cos (time s) o = o) (objects s).

(** Strictly increasing spawn times along the registry, whatever the
    subclasses. *)
Fixpoint spawn_increasing (objs : list Object) : Prop :=
  match objs with
  | [] => True
  | o :: rest =>
      Forall (fun h => (getSpawnTime o <d getSpawnTime h) = true) rest
      /\ spawn_increasing rest
  end.

(** The clock does not go back: every reading is at least the one before
    it, the first at least [t]. *)
Fixpoint clock_from (t : double) (inputs : list Input) : Prop :=
  match inputs with
  | [] => True
  | i :: rest => fle64 t (glfwGetTime i) /\ clock_from (glfwGetTime i) rest
  end.

(** The registry against the clock: while the registry is not empty the
    time of the session is finite and at most the last reading [tprev], and
    no hazard was spawned after the time of the session. *)
Definition registry_timed {E : Type} (s : Session E) (tprev : double) : Prop :=
  (objects s <> [] -> finite_double (time s) /\ fle64 (time s) tprev)
  /\ Forall (fun o => fle64 (getSpawnTime o) (time s)) (objects s).

(** Closed goals on given floats: finite, and ordered; the [computed]
    variants evaluate the floats first. *)
Ltac closed_fin := split; [closed_wf | reflexivity].
Ltac closed_fle := split; [closed_wf | split; [closed_wf | reflexivity]].
Ltac computed_wf := split; [vm_compute; reflexivity | vm_compute; discriminate].
Ltac computed_fle :=
  split; [computed_wf | split; [computed_wf | vm_compute; reflexivity]].

(** * Lemmas on rounding and on the order of floats *)

Lemma pow2_pos (n : Z) : 0 <= n -> 0 < 2 ^ n.
Proof. intros. apply Z.pow_pos_nonneg; lia. Qed.

Lemma pow2_pred (n : Z) : 1 <= n -> 2 ^ n = 2 * 2 ^ (n - 1).
Proof.
  intros Hn. replace n with (Z.succ (n - 1)) at 1 by lia.
  apply Z.pow_succ_r. lia.
Qed.

Lemma code_mono (X Y n : Z) : 1 <= n -> X <= Y -> code X n <= code Y n.
Proof.
  intros Hn HXY. unfold code.
  assert (Hp : 0 < 2 ^ (n - 1)) by (apply Z.pow_pos_nonneg; lia).
  pose proof (Z.div_le_mono X Y _ Hp HXY) as Hq.
  pose proof (Z.div_mod X (2 ^ (n - 1)) ltac:(lia)) as HX.
  pose proof (Z.div_mod Y (2 ^ (n - 1)) ltac:(lia)) as HY.
  pose proof (Z.mod_pos_bound X _ Hp) as HXb.
  pose proof (Z.mod_pos_bound Y _ Hp) as HYb.
  destruct (Z.eqb_spec (X mod 2 ^ (n - 1)) 0) as [Hx0|Hx0];
    destruct (Z.eqb_spec (Y mod 2 ^ (n - 1)) 0) as [Hy0|Hy0]; try lia.
  assert (X / 2 ^ (n - 1) < Y / 2 ^ (n - 1) \/ X / 2 ^ (n - 1) = Y / 2 ^ (n - 1)) as [H|H] by lia;
    [lia|].
  rewrite H in HX. nia.
Qed.

Lemma rne_code_bounds (T : Z) : T / 4 <= rne_code T <= T / 4 + 1.
Proof.
  unfold rne_code. cbv zeta.
  destruct (T mod 4 <=? 1); [lia|].
  destruct (T mod 4 =? 2); [destruct (Z.even (T / 4))|]; lia.
Qed.

Lemma rne_code_mono (T U : Z) : T <= U -> rne_code T <= rne_code U.
Proof.
  intros HTU.
  pose proof (rne_code_bounds T) as HT. pose proof (rne_code_bounds U) as HU.
  pose proof (Z.div_le_mono T U 4 ltac:(lia) HTU) as Hq.
  assert (T / 4 < U / 4 \/ T / 4 = U / 4) as [H|H] by lia; [lia|].
  pose proof (Z.div_mod T 4 ltac:(lia)) as HTd.
  pose proof (Z.div_mod U 4 ltac:(lia)) as HUd.
  pose proof (Z.mod_pos_bound T 4 ltac:(lia)) as HTb.
  pose proof (Z.mod_pos_bound U 4 ltac:(lia)) as HUb.
  assert (Hc : T mod 4 <= U mod 4) by lia.
  unfold rne_code. cbv zeta. rewrite H.
  destruct (Z.leb_spec (T mod 4) 1), (Z.leb_spec (U mod 4) 1);
    destruct (Z.eqb_spec (T mod 4) 2), (Z.eqb_spec (U mod 4) 2);
    destruct (Z.even (U / 4)); lia.
Qed.

Lemma rne_mono (X Y n : Z) : X <= Y -> rne X n <= rne Y n.
Proof.
  intros HXY. unfold rne. destruct (Z.leb_spec n 0); [exact HXY|].
  apply rne_code_mono, code_mono; lia.
Qed.

Lemma code_exact (k n : Z) : 1 <= n -> code (k * 2 ^ n) n = 4 * k.
Proof.
  intros Hn. unfold code.
  rewrite (pow2_pred n) by lia.
  assert (Hp : 0 < 2 ^ (n - 1)) by (apply Z.pow_pos_nonneg; lia).
  replace (k * (2 * 2 ^ (n - 1))) with ((2 * k) * 2 ^ (n - 1)) by ring.
  rewrite Z.div_mul, Z.mod_mul by lia. rewrite Z.eqb_refl. lia.
Qed.

Lemma rne_code_exact (k : Z) : rne_code (4 * k) = k.
Proof.
  unfold rne_code. cbv zeta.
  replace (4 * k) with (k * 4) by ring.
  rewrite Z.div_mul, Z.mod_mul by lia. reflexivity.
Qed.

Lemma rne_exact (k n : Z) : 0 <= n -> rne (k * 2 ^ n) n = k.
Proof.
  intros Hn. unfold rne. destruct (Z.leb_spec n 0).
  - replace n with 0 by lia. rewrite Z.pow_0_r. lia.
  - rewrite code_exact by lia. apply rne_code_exact.
Qed.

Lemma code_scale (X n k : Z) :
  1 <= n -> 0 <= k -> code (X * 2 ^ k) (n + k) = code X n.
Proof.
  intros Hn Hk. unfold code.
  replace (n + k - 1) with ((n - 1) + k) by lia.
  rewrite Z.pow_add_r by lia.
  assert (Hp : 0 < 2 ^ (n - 1)) by (apply Z.pow_pos_nonneg; lia).
  assert (Hq : 0 < 2 ^ k) by (apply Z.pow_pos_nonneg; lia).
  rewrite Z.div_mul_cancel_r by lia.
  rewrite Z.mul_mod_distr_r by lia.
  destruct (Z.eqb_spec (X mod 2 ^ (n - 1)) 0) as [H0|H0].
  - rewrite H0, Z.mul_0_l, Z.eqb_refl. reflexivity.
  - destruct (Z.eqb_spec (X mod 2 ^ (n - 1) * 2 ^ k) 0) as [H1|H1]; [nia|reflexivity].
Qed.

Lemma rne_scale (X n k : Z) :
  0 <= n -> 0 <= k -> rne (X * 2 ^ k) (n + k) = rne X n.
Proof.
  intros Hn Hk.
  destruct (Z.eq_dec n 0) as [->|Hn0].
  - cbn [Z.add]. rewrite rne_exact by lia. reflexivity.
  - unfold rne. destruct (Z.leb_spec (n + k) 0); [lia|].
    destruct (Z.leb_spec n 0); [lia|].
    now rewrite code_scale by lia.
Qed.

Lemma code_div4 (X n : Z) : 1 <= n -> code X n / 4 = X / 2 ^ n.
Proof.
  intros Hn. unfold code.
  assert (Hp : 0 < 2 ^ (n - 1)) by (apply Z.pow_pos_nonneg; lia).
  rewrite (pow2_pred n), (Z.mul_comm 2 (2 ^ (n - 1))) by lia.
  rewrite <- Z.div_div by lia.
  set (q := X / 2 ^ (n - 1)).
  pose proof (Z.div_mod q 2 ltac:(lia)) as Hq2.
  pose proof (Z.mod_pos_bound q 2 ltac:(lia)) as Hq2b.
  symmetry. apply Z.div_unique with (r := 2 * (q mod 2) + (if X mod 2 ^ (n - 1) =? 0 then 0 else 1)).
  - left. destruct (X mod 2 ^ (n - 1) =? 0); lia.
  - destruct (X mod 2 ^ (n - 1) =? 0); lia.
Qed.

Lemma rne_bounds (X n : Z) : 0 <= n -> X / 2 ^ n <= rne X n <= X / 2 ^ n + 1.
Proof.
  intros Hn. unfold rne. destruct (Z.leb_spec n 0).
  - replace n with 0 by lia. rewrite Z.pow_0_r, Z.div_1_r. lia.
  - rewrite <- code_div4 by lia. apply rne_code_bounds.
Qed.

(** *** The shift with round and sticky bits computes the code *)

Lemma iter_pos_iter {A} (f : A -> A) (p : positive) (x : A) :
  iter_pos f p x = Pos.iter f x p.
Proof.
  revert x. induction p as [p IH|p IH|]; intros x; cbn [iter_pos Pos.iter].
  - rewrite !IH. now rewrite <- !Pos.iter_swap.
  - now rewrite !IH.
  - reflexivity.
Qed.

Lemma shr_1_nonneg (m : Z) (r s : bool) :
  0 <= m ->
  shr_1 (Build_shr_record m r s) = Build_shr_record (m / 2) (Z.odd m) (r || s).
Proof.
  intros Hm. rewrite <- Z.div2_div.
  destruct m as [|[q|q|]|]; try reflexivity. lia.
Qed.

Lemma shr_inv_step (X k : Z) (r : shr_record) :
  0 <= X -> 1 <= k -> shr_inv X k r -> shr_inv X (k + 1) (shr_1 r).
Proof.
  intros HX Hk (Hm & Hr & Hs). destruct r as [m r s]. cbn in Hm, Hr, Hs.
  assert (Hp : 0 < 2 ^ (k - 1)) by (apply pow2_pos; lia).
  assert (Hm0 : 0 <= m) by (subst m; apply Z.div_pos; [lia | apply pow2_pos; lia]).
  rewrite shr_1_nonneg by exact Hm0. unfold shr_inv. cbn [shr_m shr_r shr_s].
  replace (k + 1 - 1) with k by lia.
  split; [|split].
  - subst m. rewrite Z.div_div by (try apply pow2_pos; lia).
    f_equal. rewrite (pow2_pred (k + 1)) by lia.
    replace (k + 1 - 1) with k by lia. ring.
  - now subst m.
  - subst r s.
    pose proof (Z.div_mod X (2 ^ (k - 1)) ltac:(lia)) as HXd.
    pose proof (Z.mod_pos_bound X (2 ^ (k - 1)) Hp) as HXb.
    set (q := X / 2 ^ (k - 1)) in *. set (t := X mod 2 ^ (k - 1)) in *.
    pose proof (Zmod_odd q) as Hodd.
    pose proof (Z.div_mod q 2 ltac:(lia)) as Hqd.
    assert (HXk : X mod 2 ^ k = (q mod 2) * 2 ^ (k - 1) + t).
    { symmetry. apply Z.mod_unique with (q := q / 2).
      - left. rewrite (pow2_pred k) by lia.
        pose proof (Z.mod_pos_bound q 2 ltac:(lia)). nia.
      - rewrite (pow2_pred k) by lia. nia. }
    rewrite HXk, Hodd.
    destruct (Z.odd q); destruct (Z.eqb_spec t 0) as [Ht|Ht]; cbn [orb negb];
      match goal with |- _ = negb (?a =? 0) => destruct (Z.eqb_spec a 0) end;
      cbn [negb]; try reflexivity; exfalso; lia.
Qed.

Lemma shr_inv_iter (X : Z) (p : positive) :
  0 <= X ->
  shr_inv X (Zpos p) (iter_pos shr_1 p (Build_shr_record X false false)).
Proof.
  intros HX. rewrite iter_pos_iter.
  induction p as [|p IH] using Pos.peano_ind.
  - cbn [Pos.iter]. rewrite shr_1_nonneg by exact HX.
    unfold shr_inv. cbn [shr_m shr_r shr_s].
    change (2 ^ (1 - 1)) with 1. rewrite Z.div_1_r, Z.mod_1_r.
    repeat split.
  - rewrite Pos.iter_succ, Pos2Z.inj_succ. unfold Z.succ.
    apply shr_inv_step; [exact HX | lia | exact IH].
Qed.

Lemma shr_inv_round (X k : Z) (r : shr_record) :
  0 <= X -> 1 <= k -> shr_inv X k r ->
  round_nearest_even (shr_m r) (loc_of_shr_record r) = rne X k.
Proof.
  intros HX Hk (Hm & Hr & Hs). destruct r as [m r s]. cbn in Hm, Hr, Hs.
  unfold rne. destruct (Z.leb_spec k 0); [lia|].
  assert (Hp : 0 < 2 ^ (k - 1)) by (apply pow2_pos; lia).
  set (q := X / 2 ^ (k - 1)) in *.
  pose proof (Zmod_odd q) as Hodd.
  pose proof (Z.div_mod q 2 ltac:(lia)) as Hqd.
  assert (Hmq : m = q / 2).
  { subst m q. rewrite Z.div_div by lia. f_equal.
    rewrite (pow2_pred k) by lia. ring. }
  assert (Hcode : code X k = m * 4 + (2 * (if r then 1 else 0) + (if s then 1 else 0))).
  { unfold code. fold q. subst r s.
    destruct (Z.odd q); destruct (X mod 2 ^ (k - 1) =? 0); cbn [negb]; lia. }
  unfold rne_code. cbv zeta. rewrite Hcode.
  rewrite Z.div_add_l, Z.add_comm, Z.mod_add by lia.
  destruct r, s; cbn -[Z.even Z.add]; rewrite ?Z.add_0_r; reflexivity.
Qed.

(** *** Digits *)

Lemma digits2_log2 (m : positive) : Zpos (digits2_pos m) = Z.log2 (Zpos m) + 1.
Proof.
  assert (H : digits2_pos m = Pos.size m) by (induction m; cbn; congruence).
  rewrite H. destruct m; cbn [Z.log2 Pos.size]; lia.
Qed.

Lemma log2_bounds (X : Z) : 0 < X -> 2 ^ Z.log2 X <= X < 2 ^ (Z.log2 X + 1).
Proof. intros HX. apply (Z.log2_spec X HX). Qed.

Lemma log2_scale (X k : Z) : 0 < X -> 0 <= k -> Z.log2 (X * 2 ^ k) = Z.log2 X + k.
Proof. intros HX Hk. rewrite Z.log2_mul_pow2 by lia. lia. Qed.

Lemma pow2_le (a b : Z) : 0 <= a <= b -> 2 ^ a <= 2 ^ b.
Proof. intros H. apply Z.pow_le_mono_r; lia. Qed.

Lemma pow2_split (a b : Z) : 0 <= a -> 0 <= b -> 2 ^ (a + b) = 2 ^ a * 2 ^ b.
Proof. intros. apply Z.pow_add_r; lia. Qed.

Lemma div_pow2_lt (X n d : Z) :
  0 <= X < 2 ^ d -> 0 <= n <= d -> X / 2 ^ n < 2 ^ (d - n).
Proof.
  intros HX Hn. apply Z.div_lt_upper_bound; [apply pow2_pos; lia|].
  rewrite <- pow2_split by lia. replace (n + (d - n)) with d by lia. lia.
Qed.

Lemma div_pow2_small (X n d : Z) :
  0 <= X < 2 ^ d -> 0 <= d <= n -> X / 2 ^ n = 0.
Proof.
  intros HX Hn. apply Z.div_small. split; [lia|].
  pose proof (pow2_le d n ltac:(lia)). lia.
Qed.

Lemma iter_xO (m d : positive) : Zpos (Pos.iter xO m d) = Zpos m * 2 ^ Zpos d.
Proof.
  induction d as [|d IH] using Pos.peano_ind.
  - cbn [Pos.iter]. change (2 ^ 1) with 2. lia.
  - rewrite Pos.iter_succ, Pos2Z.inj_xO, IH, Pos2Z.inj_succ.
    rewrite Z.pow_succ_r by lia. ring.
Qed.

Section Format.

Variables prec emax : Z.
Hypothesis Hprec : 0 < prec.
Hypothesis Hemax : prec < emax.

Local Abbreviation emin := (SpecFloat.emin prec emax).
Local Abbreviation fexp := (SpecFloat.fexp prec emax).
Local Abbreviation pack := (pack prec emax).
Local Abbreviation INF := (INF emax).
Local Abbreviation ord := (ord emax).
Local Abbreviation wf := (wf prec emax).
Local Abbreviation G := (G prec emax).
Local Abbreviation Rz := (Rz prec emax).
Local Abbreviation fle := (fle prec emax).

Lemma fexp_ge_emin (e : Z) : emin <= fexp e.
Proof. unfold SpecFloat.fexp. lia. Qed.

Lemma emin_bounds : emin <= 0 /\ emin < emax - prec.
Proof. unfold SpecFloat.emin. lia. Qed.

Lemma shr_fexp_exact (m e : Z) :
  0 <= m ->
  let n := fexp (Zdigits2 m + e) - e in
  round_nearest_even (shr_m (fst (shr_fexp prec emax m e loc_Exact)))
    (loc_of_shr_record (fst (shr_fexp prec emax m e loc_Exact)))
  = rne m n
  /\ snd (shr_fexp prec emax m e loc_Exact) = e + Z.max n 0.
Proof.
  intros Hm n. unfold shr_fexp, shr. fold n. cbn [shr_record_of_loc].
  destruct n as [|p|p] eqn:Hn; cbn [fst snd].
  - cbn. split; [reflexivity | lia].
  - split; [|lia]. apply shr_inv_round; [exact Hm | lia |].
    apply shr_inv_iter. exact Hm.
  - cbn. split; [reflexivity | lia].
Qed.

Lemma rne_upper (m n : Z) :
  0 < m -> 0 <= n -> Z.log2 m + 1 - prec <= n -> 0 <= rne m n <= 2 ^ prec.
Proof.
  intros Hm Hn Hd.
  pose proof (rne_bounds m n Hn) as [Hlo Hhi].
  pose proof (log2_bounds m Hm) as [_ Hub].
  pose proof (Z.log2_nonneg m) as Hl.
  assert (H0 : 0 <= m / 2 ^ n) by (apply Z.div_pos; [lia | apply pow2_pos; lia]).
  split; [lia|].
  destruct (Z.le_gt_cases n (Z.log2 m + 1)) as [Hle|Hgt].
  - pose proof (div_pow2_lt m n (Z.log2 m + 1) ltac:(lia) ltac:(lia)) as Hq.
    pose proof (pow2_le (Z.log2 m + 1 - n) prec ltac:(lia)). lia.
  - rewrite (div_pow2_small m n (Z.log2 m + 1)) in Hhi by lia.
    pose proof (pow2_pos prec ltac:(lia)). lia.
Qed.

Lemma rne_lower (m n : Z) :
  0 < m -> 0 <= n -> n = Z.log2 m + 1 - prec -> 2 ^ (prec - 1) <= rne m n.
Proof.
  intros Hm Hn Hd.
  pose proof (log2_bounds m Hm) as [Hlb _].
  replace (Z.log2 m) with (prec - 1 + n) in Hlb by lia.
  rewrite pow2_split in Hlb by lia.
  pose proof (rne_mono _ _ n Hlb) as H. now rewrite rne_exact in H by lia.
Qed.

Lemma binary_round_aux_pack (s : bool) (m : positive) (e : Z) :
  let n := fexp (Zpos (digits2_pos m) + e) - e in
  0 <= n ->
  binary_round_aux prec emax s (Zpos m) e loc_Exact = pack s (rne (Zpos m) n) (e + n).
Proof.
  intros n Hn. unfold binary_round_aux.
  pose proof (shr_fexp_exact (Zpos m) e ltac:(lia)) as H. cbv zeta in H.
  cbn [Zdigits2] in H. fold n in H.
  destruct (shr_fexp prec emax (Zpos m) e loc_Exact) as [r1 e1].
  cbn [fst snd] in H. destruct H as [HM He1]. rewrite HM, He1.
  replace (Z.max n 0) with n by lia.
  assert (Hf : emin <= e + n) by (subst n; pose proof (fexp_ge_emin (Zpos (digits2_pos m) + e)); lia).
  assert (Hd : Z.log2 (Zpos m) + 1 - prec <= n).
  { subst n. rewrite digits2_log2. unfold SpecFloat.fexp. lia. }
  pose proof (rne_upper (Zpos m) n ltac:(lia) Hn Hd) as HMb.
  set (M := rne (Zpos m) n) in *. set (f := e + n) in *.
  unfold pack.
  destruct (Z.eqb_spec M 0) as [HM0|HM0].
  - rewrite HM0. unfold shr_fexp, shr. cbn [Zdigits2 Z.add].
    assert (Hz : fexp f - f <= 0) by (unfold SpecFloat.fexp; lia).
    destruct (fexp f - f); try lia; reflexivity.
  - destruct (Z.eqb_spec M (2 ^ prec)) as [HMp|HMp].
    + rewrite HMp.
      assert (Hdig : Zdigits2 (2 ^ prec) = prec + 1).
      { pose proof (pow2_pos prec ltac:(lia)).
        destruct (2 ^ prec) as [|q|q] eqn:Hq; try lia.
        cbn [Zdigits2]. rewrite digits2_log2, <- Hq, Z.log2_pow2; lia. }
      unfold shr_fexp, shr. rewrite Hdig.
      replace (fexp (prec + 1 + f) - f) with 1 by (unfold SpecFloat.fexp; lia).
      cbn [shr_record_of_loc iter_pos].
      rewrite shr_1_nonneg by (apply Z.lt_le_incl, pow2_pos; lia).
      cbn [shr_m]. rewrite (pow2_pred prec) by lia.
      rewrite Z.mul_comm, Z.div_mul by lia.
      pose proof (pow2_pos (prec - 1) ltac:(lia)) as Hpp.
      destruct (2 ^ (prec - 1)) as [|q|q] eqn:Hq; try lia.
      reflexivity.
    + assert (Hz : fexp (Zdigits2 M + f) - f <= 0).
      { assert (HMpos : 0 < M) by lia.
        destruct M as [|q|q] eqn:HMq; try lia. cbn [Zdigits2].
        rewrite digits2_log2.
        assert (Z.log2 (Zpos q) < prec).
        { apply Z.log2_lt_pow2; lia. }
        unfold SpecFloat.fexp. lia. }
      unfold shr_fexp, shr.
      destruct (fexp (Zdigits2 M + f) - f) eqn:Hsh; try lia;
        cbn [shr_record_of_loc shr_m];
        destruct M as [|q|q]; try lia; reflexivity.
Qed.

(** *** Order: a float as an integer multiple of [2^E] *)

Lemma INF_pos (E : Z) : E <= emin -> 0 < INF E.
Proof. intros HE. pose proof emin_bounds. apply pow2_pos. lia. Qed.

Lemma valid_finite (s : bool) (m : positive) (e : Z) :
  valid_binary prec emax (S754_finite s m e) = true <->
  emin <= e <= emax - prec
  /\ Z.log2 (Zpos m) + 1 <= prec
  /\ (emin < e -> Z.log2 (Zpos m) + 1 = prec).
Proof.
  cbn [valid_binary]. unfold bounded, canonical_mantissa.
  rewrite andb_true_iff, Z.eqb_eq, Z.leb_le, digits2_log2.
  unfold SpecFloat.fexp. lia.
Qed.

Lemma finite_ord_bounds (E : Z) (s : bool) (m : positive) (e : Z) :
  E <= emin ->
  valid_binary prec emax (S754_finite s m e) = true ->
  0 < Zpos m * 2 ^ (e - E) < INF E.
Proof.
  intros HE Hv. apply valid_finite in Hv. destruct Hv as (He & Hd & _).
  pose proof (pow2_pos (e - E) ltac:(lia)) as Hp.
  split; [lia|].
  pose proof (log2_bounds (Zpos m) ltac:(lia)) as [_ Hub].
  pose proof (pow2_le (Z.log2 (Zpos m) + 1) prec ltac:(pose proof (Z.log2_nonneg (Zpos m)); lia)) as H1.
  unfold INF. replace (emax - E) with (prec + (emax - prec - e) + (e - E)) by lia.
  rewrite !pow2_split by lia.
  pose proof (pow2_pos (emax - prec - e) ltac:(lia)) as Hq.
  pose proof (pow2_pos prec ltac:(lia)) as Hpp.
  assert (Hm : Zpos m < 2 ^ prec) by lia.
  apply Z.lt_le_trans with (2 ^ prec * 2 ^ (e - E)).
  - apply Z.mul_lt_mono_pos_r; assumption.
  - apply Z.mul_le_mono_nonneg_r; [lia|]. nia.
Qed.

Lemma pack_ord (E : Z) (s : bool) (M f : Z) :
  E <= emin -> emin <= f -> 0 <= M <= 2 ^ prec ->
  (emin < f -> 2 ^ (prec - 1) <= M) ->
  wf (pack s M f)
  /\ ord E (pack s M f) = cond_Zopp s (Z.min (INF E) (M * 2 ^ (f - E))).
Proof.
  intros HE Hf HM Hnorm. pose proof emin_bounds as [Hemin0 Hemin1].
  pose proof (INF_pos E HE) as HINF.
  pose proof (pow2_pos (f - E) ltac:(lia)) as HpfE.
  pose proof (pow2_pos (prec - 1) ltac:(lia)) as Hpp.
  pose proof (pow2_pred prec ltac:(lia)) as Hpprec.
  unfold pack.
  destruct (Z.eqb_spec M 0) as [HM0|HM0].
  { subst M. split; [closed_wf|].
    cbn [ord]. rewrite Z.mul_0_l, Z.min_r by lia. now destruct s. }
  destruct (Z.eqb_spec M (2 ^ prec)) as [HMp|HMp].
  - subst M.
    assert (Hval : 2 ^ prec * 2 ^ (f - E) = 2 ^ (prec - 1) * 2 ^ (f + 1 - E)).
    { rewrite Hpprec. replace (f + 1 - E) with (1 + (f - E)) by lia.
      rewrite (pow2_split 1) by lia. change (2 ^ 1) with 2. ring. }
    destruct (Z.leb_spec (f + 1) (emax - prec)) as [Hov|Hov].
    + assert (Hv : valid_binary prec emax
                     (S754_finite s (Z.to_pos (2 ^ (prec - 1))) (f + 1)) = true).
      { apply valid_finite. rewrite Z2Pos.id by lia.
        rewrite Z.log2_pow2 by lia. lia. }
      split; [split; [exact Hv | discriminate]|].
      pose proof (finite_ord_bounds E _ _ _ HE Hv) as Hb.
      cbn [ord]. rewrite Z2Pos.id in * by lia. rewrite Hval.
      now rewrite Z.min_r by lia.
    + split; [closed_wf|].
      cbn [ord]. f_equal. rewrite Z.min_l; [reflexivity|].
      unfold INF. rewrite <- pow2_split by lia. apply pow2_le. lia.
  - destruct (Z.leb_spec f (emax - prec)) as [Hov|Hov].
    + assert (Hv : valid_binary prec emax (S754_finite s (Z.to_pos M) f) = true).
      { apply valid_finite. rewrite Z2Pos.id by lia.
        assert (Z.log2 M < prec) by (apply Z.log2_lt_pow2; lia).
        split; [lia|]. split; [lia|]. intros Hn. specialize (Hnorm Hn).
        assert (prec - 1 <= Z.log2 M) by (apply Z.log2_le_pow2; lia). lia. }
      split; [split; [exact Hv | discriminate]|].
      pose proof (finite_ord_bounds E _ _ _ HE Hv) as Hb.
      cbn [ord]. rewrite Z2Pos.id in * by lia.
      now rewrite Z.min_r by lia.
    + split; [closed_wf|].
      cbn [ord]. f_equal. rewrite Z.min_l; [reflexivity|].
      specialize (Hnorm ltac:(lia)).
      unfold INF. replace (emax - E) with ((prec - 1) + (emax - prec + 1 - E)) by lia.
      rewrite pow2_split by lia.
      pose proof (pow2_le (emax - prec + 1 - E) (f - E) ltac:(lia)).
      pose proof (pow2_pos (emax - prec + 1 - E) ltac:(lia)). nia.
Qed.

Lemma G_of_scaled (E : Z) (m : positive) (e : Z) :
  E <= e ->
  let n := fexp (Zpos (digits2_pos m) + e) - e in
  0 <= n ->
  G E (Zpos m * 2 ^ (e - E)) = rne (Zpos m) n * 2 ^ (e + n - E).
Proof.
  intros HE n Hn. unfold G. cbv zeta.
  rewrite log2_scale by lia.
  replace (Z.log2 (Zpos m) + (e - E) + 1 + E) with (Zpos (digits2_pos m) + e)
    by (rewrite digits2_log2; lia).
  fold n. replace (fexp (Zpos (digits2_pos m) + e) - E) with (n + (e - E))
    by (subst n; lia).
  rewrite rne_scale by lia. f_equal. f_equal. lia.
Qed.

Lemma binary_round_aux_ord (E : Z) (s : bool) (m : positive) (e : Z) :
  E <= emin -> E <= e ->
  0 <= fexp (Zpos (digits2_pos m) + e) - e ->
  wf (binary_round_aux prec emax s (Zpos m) e loc_Exact)
  /\ ord E (binary_round_aux prec emax s (Zpos m) e loc_Exact)
     = cond_Zopp s (Z.min (INF E) (G E (Zpos m * 2 ^ (e - E)))).
Proof.
  intros HE He Hn. rewrite binary_round_aux_pack by exact Hn.
  rewrite (G_of_scaled E m e He Hn).
  set (n := fexp (Zpos (digits2_pos m) + e) - e) in *.
  assert (Hd : Z.log2 (Zpos m) + 1 - prec <= n).
  { subst n. rewrite digits2_log2. unfold SpecFloat.fexp. lia. }
  apply pack_ord.
  - exact HE.
  - subst n. pose proof (fexp_ge_emin (Zpos (digits2_pos m) + e)). lia.
  - apply rne_upper; lia.
  - intros Hnorm. apply rne_lower; [lia | lia |].
    subst n. rewrite digits2_log2 in *. unfold SpecFloat.fexp in *. lia.
Qed.

Lemma binary_round_ord (E : Z) (s : bool) (m : positive) (e : Z) :
  E <= emin -> E <= e ->
  wf (binary_round prec emax s m e)
  /\ ord E (binary_round prec emax s m e)
     = cond_Zopp s (Z.min (INF E) (G E (Zpos m * 2 ^ (e - E)))).
Proof.
  intros HE He. unfold binary_round, shl_align.
  set (f := fexp (Zpos (digits2_pos m) + e)).
  assert (Hf : emin <= f) by apply fexp_ge_emin.
  destruct (f - e) as [|d|d] eqn:Hfe.
  - apply binary_round_aux_ord; try assumption. fold f. lia.
  - apply binary_round_aux_ord; try assumption. fold f. lia.
  - assert (Hdig : Zpos (digits2_pos (Pos.iter xO m d)) + f = Zpos (digits2_pos m) + e).
    { rewrite !digits2_log2, iter_xO, log2_scale by lia. lia. }
    replace (Zpos m * 2 ^ (e - E)) with (Zpos (Pos.iter xO m d) * 2 ^ (f - E)).
    + apply binary_round_aux_ord; [exact HE | lia |]. rewrite Hdig. fold f. lia.
    + rewrite iter_xO, <- Z.mul_assoc, <- pow2_split by lia.
      f_equal. f_equal. lia.
Qed.

(** *** The rounding function is monotone *)

Lemma G_nonneg (E X : Z) : E <= emin -> 0 < X -> 0 <= G E X.
Proof.
  intros HE HX. unfold G. cbv zeta.
  set (n := fexp (Z.log2 X + 1 + E) - E).
  assert (Hn : 0 <= n) by (subst n; pose proof (fexp_ge_emin (Z.log2 X + 1 + E)); lia).
  pose proof (rne_bounds X n Hn) as [Hlo _].
  pose proof (pow2_pos n Hn).
  assert (0 <= X / 2 ^ n) by (apply Z.div_pos; lia). nia.
Qed.

Lemma G_mono (E X Y : Z) : E <= emin -> 0 < X -> X <= Y -> G E X <= G E Y.
Proof.
  intros HE HX HXY. unfold G. cbv zeta.
  pose proof (Z.log2_le_mono X Y HXY) as Hlog.
  pose proof (Z.log2_nonneg X) as HlX.
  set (nX := fexp (Z.log2 X + 1 + E) - E).
  set (nY := fexp (Z.log2 Y + 1 + E) - E).
  assert (HnX : 0 <= nX) by (subst nX; pose proof (fexp_ge_emin (Z.log2 X + 1 + E)); lia).
  assert (HnXY : nX <= nY) by (subst nX nY; unfold SpecFloat.fexp; lia).
  assert (nX = nY \/ nX < nY) as [Heq|Hlt] by lia.
  - rewrite <- Heq. apply Z.mul_le_mono_nonneg_r; [apply Z.lt_le_incl, pow2_pos; lia|].
    now apply rne_mono.
  - assert (HnY : nY = Z.log2 Y + 1 - prec) by (subst nX nY; unfold SpecFloat.fexp in *; lia).
    assert (HdXY : Z.log2 X + 1 <= Z.log2 Y) by (subst nX; unfold SpecFloat.fexp in *; lia).
    pose proof (log2_bounds X HX) as [_ HXub].
    pose proof (log2_bounds Y ltac:(lia)) as [HYlb _].
    (* the power of two between them *)
    set (P := 2 ^ Z.log2 Y) in *.
    assert (HXP : X <= P).
    { pose proof (pow2_le (Z.log2 X + 1) (Z.log2 Y) ltac:(lia)). subst P. lia. }
    assert (HPX : P = 2 ^ (Z.log2 Y - nX) * 2 ^ nX).
    { subst P. rewrite <- pow2_split by lia. f_equal. lia. }
    assert (HPY : P = 2 ^ (prec - 1) * 2 ^ nY).
    { subst P. rewrite <- pow2_split by lia. f_equal. lia. }
    apply Z.le_trans with P.
    + pose proof (rne_mono _ _ nX HXP) as H. rewrite HPX in H.
      rewrite rne_exact in H by lia. rewrite HPX.
      apply Z.mul_le_mono_nonneg_r; [apply Z.lt_le_incl, pow2_pos; lia | exact H].
    + pose proof (rne_mono _ _ nY HYlb) as H. rewrite HPY in H.
      rewrite rne_exact in H by lia. rewrite HPY.
      apply Z.mul_le_mono_nonneg_r; [apply Z.lt_le_incl, pow2_pos; lia | exact H].
Qed.

Lemma Rz_mono (E X Y : Z) : E <= emin -> X <= Y -> Rz E X <= Rz E Y.
Proof.
  intros HE HXY. pose proof (INF_pos E HE) as HINF.
  assert (Hpos : forall q, 0 <= Z.min (INF E) (G E (Zpos q))).
  { intros q. pose proof (G_nonneg E (Zpos q) HE ltac:(lia)). lia. }
  destruct X as [|x|x], Y as [|y|y]; cbn [Rz]; try lia;
    try (pose proof (Hpos x)); try (pose proof (Hpos y)); try lia.
  - pose proof (G_mono E (Zpos x) (Zpos y) HE ltac:(lia) HXY). lia.
  - pose proof (G_mono E (Zpos y) (Zpos x) HE ltac:(lia) ltac:(lia)). lia.
Qed.

Lemma Rz_opp (E X : Z) : Rz E (- X) = - Rz E X.
Proof. destruct X; cbn [Rz Z.opp]; lia. Qed.

Lemma Rz_bounds (E X : Z) : E <= emin -> - INF E <= Rz E X <= INF E.
Proof.
  intros HE. pose proof (INF_pos E HE).
  destruct X as [|x|x]; cbn [Rz]; try lia;
    pose proof (G_nonneg E (Zpos x) HE ltac:(lia)); lia.
Qed.

(** A valid float is its own rounding. *)
Lemma Rz_fixed (E : Z) (v : spec_float) :
  E <= emin -> wf v ->
  (forall s, v <> S754_infinity s) -> Rz E (ord E v) = ord E v.
Proof.
  intros HE [Hv Hnan] Hinf. destruct v as [s|s| |s m e]; try reflexivity.
  - now elim (Hinf s).
  - pose proof (finite_ord_bounds E s m e HE Hv) as Hb.
    apply valid_finite in Hv. destruct Hv as (He & Hd & Hn).
    assert (HG : G E (Zpos m * 2 ^ (e - E)) = Zpos m * 2 ^ (e - E)).
    { assert (Hfe : fexp (Zpos (digits2_pos m) + e) - e = 0).
      { rewrite digits2_log2. unfold SpecFloat.fexp. lia. }
      rewrite (G_of_scaled E m e ltac:(lia)) by lia.
      rewrite Hfe. unfold rne. cbn [Z.leb Z.compare]. f_equal. f_equal. lia. }
    cbn [ord]. destruct s; cbn [cond_Zopp].
    + rewrite Rz_opp. f_equal.
      destruct (Zpos m * 2 ^ (e - E)) eqn:Hx; try lia.
      cbn [Rz]. rewrite HG. lia.
    + destruct (Zpos m * 2 ^ (e - E)) eqn:Hx; try lia.
      cbn [Rz]. rewrite HG. lia.
Qed.

Lemma binary_normalize_ord (E m e : Z) (sz : bool) :
  E <= emin -> E <= e ->
  wf (binary_normalize prec emax m e sz)
  /\ ord E (binary_normalize prec emax m e sz) = Rz E (m * 2 ^ (e - E)).
Proof.
  intros HE He. pose proof (pow2_pos (e - E) ltac:(lia)) as Hp.
  destruct m as [|m|m]; cbn [binary_normalize].
  - split; [closed_wf | reflexivity].
  - destruct (binary_round_ord E false m e HE He) as [Hwf Hord].
    split; [exact Hwf|]. rewrite Hord. cbn [cond_Zopp].
    destruct (Zpos m * 2 ^ (e - E)) eqn:Hx; try lia. reflexivity.
  - destruct (binary_round_ord E true m e HE He) as [Hwf Hord].
    split; [exact Hwf|]. rewrite Hord. cbn [cond_Zopp].
    replace (Zneg m * 2 ^ (e - E)) with (- (Zpos m * 2 ^ (e - E))) by lia.
    rewrite Rz_opp. f_equal.
    destruct (Zpos m * 2 ^ (e - E)) eqn:Hx; try lia. reflexivity.
Qed.

(** *** Comparison is the comparison of the integers *)

Lemma canonical_exp_lt (E : Z) (s1 s2 : bool) (m1 m2 : positive) (e1 e2 : Z) :
  E <= emin ->
  valid_binary prec emax (S754_finite s1 m1 e1) = true ->
  valid_binary prec emax (S754_finite s2 m2 e2) = true ->
  e1 < e2 ->
  Zpos m1 * 2 ^ (e1 - E) < Zpos m2 * 2 ^ (e2 - E).
Proof.
  intros HE H1 H2 Hlt.
  apply valid_finite in H1. destruct H1 as (He1 & Hd1 & _).
  apply valid_finite in H2. destruct H2 as (He2 & _ & Hn2).
  specialize (Hn2 ltac:(lia)).
  pose proof (log2_bounds (Zpos m1) ltac:(lia)) as [_ Hub].
  pose proof (log2_bounds (Zpos m2) ltac:(lia)) as [Hlb _].
  pose proof (Z.log2_nonneg (Zpos m1)) as Hl1.
  pose proof (pow2_le (Z.log2 (Zpos m1) + 1) prec ltac:(lia)) as Hp1.
  replace (Z.log2 (Zpos m2)) with (prec - 1) in Hlb by lia.
  pose proof (pow2_pos (e1 - E) ltac:(lia)) as Hq1.
  pose proof (pow2_pos (prec - 1) ltac:(lia)) as Hq2.
  apply Z.lt_le_trans with (2 ^ prec * 2 ^ (e1 - E)).
  - apply Z.mul_lt_mono_pos_r; lia.
  - apply Z.le_trans with (2 ^ (prec - 1) * 2 ^ (e2 - E)).
    + rewrite <- !pow2_split by lia. apply pow2_le. lia.
    + apply Z.mul_le_mono_nonneg_r; [apply Z.lt_le_incl, pow2_pos; lia | lia].
Qed.

Lemma compare_finite (E : Z) (s1 s2 : bool) (m1 m2 : positive) (e1 e2 : Z) :
  E <= emin ->
  valid_binary prec emax (S754_finite s1 m1 e1) = true ->
  valid_binary prec emax (S754_finite s2 m2 e2) = true ->
  match (e1 ?= e2) with
  | Lt => Lt
  | Gt => Gt
  | Eq => Pos.compare_cont Eq m1 m2
  end = (Zpos m1 * 2 ^ (e1 - E) ?= Zpos m2 * 2 ^ (e2 - E)).
Proof.
  intros HE H1 H2. symmetry.
  destruct (Z.compare_spec e1 e2) as [Heq|Hlt|Hgt].
  - subst e2. pose proof (valid_finite s1 m1 e1) as [Hv _]. specialize (Hv H1).
    pose proof (pow2_pos (e1 - E) ltac:(lia)) as Hp.
    change (Pos.compare_cont Eq m1 m2) with (Zpos m1 ?= Zpos m2).
    destruct (Z.compare_spec (Zpos m1) (Zpos m2)) as [Hm|Hm|Hm].
    + rewrite Hm. apply Z.compare_refl.
    + apply Z.compare_lt_iff. apply Z.mul_lt_mono_pos_r; lia.
    + apply Z.compare_gt_iff. apply Z.mul_lt_mono_pos_r; lia.
  - apply Z.compare_lt_iff. now apply (canonical_exp_lt E s1 s2).
  - apply Z.compare_gt_iff. now apply (canonical_exp_lt E s2 s1).
Qed.

Lemma compare_ord (E : Z) (x y : spec_float) :
  E <= emin -> wf x -> wf y ->
  SFcompare x y = Some (ord E x ?= ord E y).
Proof.
  intros HE [Hx Hxn] [Hy Hyn]. pose proof (INF_pos E HE) as HINF.
  assert (Hb : forall s m e,
             valid_binary prec emax (S754_finite s m e) = true ->
             0 < Zpos m * 2 ^ (e - E) < INF E)
    by (intros; now apply (finite_ord_bounds E s)).
  destruct x as [sx|sx| |sx mx ex]; try (now elim Hxn);
    destruct y as [sy|sy| |sy my ey]; try (now elim Hyn);
    cbn [SFcompare ord]; f_equal; symmetry;
    try (specialize (Hb _ _ _ Hx) as Hbx); try (specialize (Hb _ _ _ Hy) as Hby);
    try (destruct sx); try (destruct sy); cbn [cond_Zopp];
    try (apply Z.compare_refl);
    try (apply Z.compare_lt_iff; lia); try (apply Z.compare_gt_iff; lia).
  - rewrite Z.compare_opp, (Z.compare_antisym (Zpos mx * 2 ^ (ex - E))).
    rewrite <- (compare_finite E true true mx my ex ey HE Hx Hy).
    now destruct (ex ?= ey).
  - symmetry. apply (compare_finite E false false mx my ex ey HE Hx Hy).
Qed.

Lemma leb_ord (E : Z) (x y : spec_float) :
  E <= emin -> wf x -> wf y -> SFleb x y = (ord E x <=? ord E y).
Proof.
  intros HE Hx Hy. unfold SFleb, Z.leb. rewrite (compare_ord E x y HE Hx Hy).
  now destruct (ord E x ?= ord E y).
Qed.

Lemma ltb_ord (E : Z) (x y : spec_float) :
  E <= emin -> wf x -> wf y -> SFltb x y = (ord E x <? ord E y).
Proof.
  intros HE Hx Hy. unfold SFltb, Z.ltb. rewrite (compare_ord E x y HE Hx Hy).
  now destruct (ord E x ?= ord E y).
Qed.

(** *** The operations on well-formed floats *)

Lemma fle_ord (E : Z) (x y : spec_float) :
  E <= emin -> fle x y <-> wf x /\ wf y /\ ord E x <= ord E y.
Proof.
  intros HE. unfold fle.
  split; intros (Hx & Hy & H); (split; [exact Hx | split; [exact Hy|]]).
  - rewrite (leb_ord E x y HE Hx Hy) in H. now apply Z.leb_le.
  - rewrite (leb_ord E x y HE Hx Hy). now apply Z.leb_le.
Qed.

Lemma fle_trans (x y z : spec_float) : fle x y -> fle y z -> fle x z.
Proof.
  intros Hxy Hyz. pose proof emin_bounds.
  apply (fle_ord emin) in Hxy, Hyz; try lia. apply (fle_ord emin); [lia|].
  destruct Hxy as (? & ? & ?), Hyz as (? & ? & ?).
  split; [assumption | split; [assumption | lia]].
Qed.

Lemma fin_ord_strict (E : Z) (x : spec_float) :
  E <= emin -> wf x -> is_fin x = true -> - INF E < ord E x < INF E.
Proof.
  intros HE [Hv _] Hfin. pose proof (INF_pos E HE).
  destruct x as [s|s| |s m e]; try discriminate; cbn [ord]; try lia.
  pose proof (finite_ord_bounds E s m e HE Hv). destruct s; cbn [cond_Zopp]; lia.
Qed.

Lemma inf_ord (E : Z) (x : spec_float) :
  wf x -> is_fin x = false ->
  (x = S754_infinity false /\ ord E x = INF E)
  \/ (x = S754_infinity true /\ ord E x = - INF E).
Proof.
  intros [_ Hn] Hfin. destruct x as [s|[|]| |s m e]; try discriminate; auto.
  now elim Hn.
Qed.

Lemma wf_opp (x : spec_float) : wf x -> wf (SFopp x).
Proof.
  intros [Hv Hn]. destruct x; cbn; split; try reflexivity; try discriminate;
    auto.
Qed.

Lemma ord_opp (E : Z) (x : spec_float) : ord E (SFopp x) = - ord E x.
Proof. destruct x as [s|s| |s m e]; cbn; try reflexivity; destruct s; cbn; lia. Qed.

Lemma fle_opp (x y : spec_float) : fle x y -> fle (SFopp y) (SFopp x).
Proof.
  intros H. pose proof emin_bounds.
  apply (fle_ord emin) in H; [|lia]. destruct H as (Hx & Hy & H).
  apply (fle_ord emin); [lia|].
  split; [now apply wf_opp | split; [now apply wf_opp|]].
  rewrite !ord_opp. lia.
Qed.

Lemma SFsub_add_opp (x y : spec_float) :
  SFsub prec emax x y = SFadd prec emax x (SFopp y).
Proof.
  destruct x as [sx|sx| |sx mx ex], y as [sy|sy| |sy my ey]; try reflexivity;
    cbn [SFsub SFadd SFopp].
  - now destruct sx, sy.
  - now destruct sx, sy.
  - f_equal. destruct sy; cbn [negb cond_Zopp]; lia.
Qed.

Lemma SFadd_comm (x y : spec_float) :
  SFadd prec emax x y = SFadd prec emax y x.
Proof.
  destruct x as [sx|sx| |sx mx ex], y as [sy|sy| |sy my ey]; try reflexivity;
    cbn [SFadd].
  - now destruct sx, sy.
  - now destruct sx, sy.
  - rewrite (Z.min_comm ey ex). f_equal. apply Z.add_comm.
Qed.

Lemma shl_align_fst (m : positive) (e e' : Z) :
  e' <= e -> Zpos (fst (shl_align m e e')) = Zpos m * 2 ^ (e - e').
Proof.
  intros He. unfold shl_align. destruct (e' - e) as [|d|d] eqn:Hd; cbn [fst];
    try lia.
  - replace (e - e') with 0 by lia. cbn. lia.
  - rewrite iter_xO. f_equal. f_equal. lia.
Qed.

Lemma SFadd_fin (E : Z) (x y : spec_float) :
  E <= emin -> wf x -> wf y -> is_fin x = true -> is_fin y = true ->
  wf (SFadd prec emax x y)
  /\ ord E (SFadd prec emax x y) = Rz E (ord E x + ord E y).
Proof.
  intros HE Hx Hy Hfx Hfy.
  destruct x as [sx|sx| |sx mx ex]; try discriminate;
    destruct y as [sy|sy| |sy my ey]; try discriminate; cbn [SFadd].
  - split; [|destruct sx, sy; reflexivity].
    destruct sx, sy; split; try reflexivity; discriminate.
  - split; [exact Hy|]. cbn [ord Z.add]. symmetry.
    apply (Rz_fixed E (S754_finite sy my ey) HE Hy). discriminate.
  - split; [exact Hx|]. cbn [ord]. rewrite Z.add_0_r. symmetry.
    apply (Rz_fixed E (S754_finite sx mx ex) HE Hx). discriminate.
  - destruct Hx as [Hvx _], Hy as [Hvy _].
    apply valid_finite in Hvx, Hvy.
    destruct Hvx as (Hex & _), Hvy as (Hey & _).
    set (ez := Z.min ex ey).
    destruct (binary_normalize_ord E
                (cond_Zopp sx (Zpos (fst (shl_align mx ex ez)))
                 + cond_Zopp sy (Zpos (fst (shl_align my ey ez))))
                ez false HE ltac:(lia)) as [Hwf Hord].
    split; [exact Hwf|]. rewrite Hord. f_equal.
    rewrite !shl_align_fst by lia. cbn [ord].
    assert (H1 : 2 ^ (ex - E) = 2 ^ (ex - ez) * 2 ^ (ez - E))
      by (rewrite <- pow2_split by lia; f_equal; lia).
    assert (H2 : 2 ^ (ey - E) = 2 ^ (ey - ez) * 2 ^ (ez - E))
      by (rewrite <- pow2_split by lia; f_equal; lia).
    rewrite H1, H2. destruct sx, sy; cbn [cond_Zopp]; ring.
Qed.

Lemma SFadd_ord (E : Z) (x y : spec_float) :
  E <= emin -> wf x -> wf y -> is_fin y = true ->
  wf (SFadd prec emax x y)
  /\ ord E (SFadd prec emax x y)
     = if is_fin x then Rz E (ord E x + ord E y) else ord E x.
Proof.
  intros HE Hx Hy Hfy. destruct (is_fin x) eqn:Hfx.
  - now apply SFadd_fin.
  - destruct (inf_ord E x Hx Hfx) as [[-> _]|[-> _]];
      destruct y as [sy|sy| |sy my ey]; try discriminate; cbn [SFadd];
      (split; [closed_wf | reflexivity]).
Qed.

Lemma is_fin_opp (x : spec_float) : is_fin (SFopp x) = is_fin x.
Proof. now destruct x. Qed.

Lemma inf_ord_sign (E : Z) (x : spec_float) :
  E <= emin -> wf x -> is_fin x = false ->
  ord E x = cond_Zopp (ord E x <? 0) (INF E).
Proof.
  intros HE Hx Hfx. pose proof (INF_pos E HE).
  destruct (inf_ord E x Hx Hfx) as [[_ Ho]|[_ Ho]]; rewrite Ho;
    case_sign; lia.
Qed.

Lemma SFadd_ord_sign (E : Z) (x y : spec_float) :
  E <= emin -> wf x -> wf y -> is_fin y = true ->
  wf (SFadd prec emax x y)
  /\ ord E (SFadd prec emax x y)
     = if is_fin x then Rz E (ord E x + ord E y)
       else cond_Zopp (ord E x <? 0) (INF E).
Proof.
  intros HE Hx Hy Hfy. destruct (SFadd_ord E x y HE Hx Hy Hfy) as [Hw Ho].
  split; [exact Hw|]. rewrite Ho. destruct (is_fin x) eqn:Hfx; [reflexivity|].
  now apply inf_ord_sign.
Qed.

(** Multiplication by a positive finite constant; the product of two
    multiples of [2^E] is a multiple of [2^(2E)]. *)
Lemma SFmul_exp (mc mx : positive) (ec ex : Z) (sc sx : bool) :
  valid_binary prec emax (S754_finite sc mc ec) = true ->
  valid_binary prec emax (S754_finite sx mx ex) = true ->
  0 <= fexp (Zpos (digits2_pos (mc * mx)) + (ec + ex)) - (ec + ex).
Proof.
  intros Hc Hx. pose proof emin_bounds as [He0 _].
  apply valid_finite in Hc, Hx.
  destruct Hc as (Hec & Hdc & Hnc), Hx as (Hex & Hdx & Hnx).
  rewrite digits2_log2, Pos2Z.inj_mul.
  pose proof (Z.log2_mul_below (Zpos mc) (Zpos mx) ltac:(lia) ltac:(lia)) as Hlog.
  pose proof (Z.log2_nonneg (Zpos mc)). pose proof (Z.log2_nonneg (Zpos mx)).
  unfold SpecFloat.fexp. lia.
Qed.

Lemma SFmul_ord (E : Z) (mc : positive) (ec : Z) (x : spec_float) :
  E <= emin ->
  wf (S754_finite false mc ec) -> wf x ->
  wf (SFmul prec emax (S754_finite false mc ec) x)
  /\ ord (2 * E) (SFmul prec emax (S754_finite false mc ec) x)
     = if is_fin x
       then Rz (2 * E) (ord E (S754_finite false mc ec) * ord E x)
       else cond_Zopp (ord E x <? 0) (INF (2 * E)).
Proof.
  intros HE Hc Hx. pose proof emin_bounds as [He0 _].
  pose proof (INF_pos E HE) as HINF.
  destruct x as [sx|sx| |sx mx ex]; try (now elim (proj2 Hx)); cbn [SFmul is_fin xorb].
  - split; [closed_wf|].
    cbn [ord]. now rewrite Z.mul_0_r.
  - split; [closed_wf|].
    cbn [ord]. destruct sx; cbn [cond_Zopp];
      case_sign; lia.
  - destruct Hc as [Hvc _], Hx as [Hvx _].
    pose proof (SFmul_exp mc mx ec ex false sx Hvc Hvx) as Hn.
    pose proof (proj1 (valid_finite _ _ _) Hvc) as (Hec & _).
    pose proof (proj1 (valid_finite _ _ _) Hvx) as (Hex & _).
    destruct (binary_round_aux_ord (2 * E) sx (mc * mx) (ec + ex)
                ltac:(lia) ltac:(lia) Hn) as [Hw Ho].
    split; [exact Hw|]. rewrite Ho. cbn [ord cond_Zopp].
    assert (Hval : Zpos (mc * mx) * 2 ^ (ec + ex - 2 * E)
                   = Zpos mc * 2 ^ (ec - E) * (Zpos mx * 2 ^ (ex - E))).
    { replace (ec + ex - 2 * E) with ((ec - E) + (ex - E)) by lia.
      rewrite pow2_split, Pos2Z.inj_mul by lia. ring. }
    rewrite Hval.
    pose proof (pow2_pos (ec - E) ltac:(lia)). pose proof (pow2_pos (ex - E) ltac:(lia)).
    set (C := Zpos mc * 2 ^ (ec - E)) in *. set (X := Zpos mx * 2 ^ (ex - E)) in *.
    assert (HCX : 0 < C * X) by nia.
    destruct sx; cbn [cond_Zopp].
    + replace (C * - X) with (- (C * X)) by ring. rewrite Rz_opp. f_equal.
      destruct (C * X) eqn:HP; try lia. reflexivity.
    + destruct (C * X) eqn:HP; try lia. reflexivity.
Qed.

End Format.

(** *** Monotonicity *)

Section Monotone.

Variables prec emax : Z.
Hypothesis Hprec : 0 < prec.
Hypothesis Hemax : prec < emax.
(** The format of the arguments, when it is another one. *)
Variables prec0 emax0 : Z.
Hypothesis Hprec0 : 0 < prec0.
Hypothesis Hemax0 : prec0 < emax0.

Local Abbreviation emin := (SpecFloat.emin prec emax).
Local Abbreviation emin0 := (SpecFloat.emin prec0 emax0).
Local Abbreviation convert := (convert prec emax).

(** A function that rounds on finite arguments and keeps the sign of an
    infinity is monotone. *)
Lemma mono_cases (E E' : Z) (x x' r r' : spec_float) (X X' : Z) :
  E <= emin0 -> E' <= emin ->
  wf prec0 emax0 x -> wf prec0 emax0 x' -> ord emax0 E x <= ord emax0 E x' ->
  ord emax E' r
  = (if is_fin x then Rz prec emax E' X
     else cond_Zopp (ord emax0 E x <? 0) (INF emax E')) ->
  ord emax E' r'
  = (if is_fin x' then Rz prec emax E' X'
     else cond_Zopp (ord emax0 E x' <? 0) (INF emax E')) ->
  (is_fin x = true -> is_fin x' = true -> X <= X') ->
  ord emax E' r <= ord emax E' r'.
Proof.
  intros HE HE' Hx Hx' Hle Hr Hr' HX.
  pose proof (INF_pos prec0 emax0 Hprec0 Hemax0 E HE).
  pose proof (INF_pos prec emax Hprec Hemax E' HE').
  rewrite Hr, Hr'. clear Hr Hr'.
  destruct (is_fin x) eqn:Hfx, (is_fin x') eqn:Hfx'.
  - apply Rz_mono; auto.
  - pose proof (fin_ord_strict prec0 emax0 Hprec0 Hemax0 E x HE Hx Hfx).
    pose proof (Rz_bounds prec emax Hprec Hemax E' X HE').
    destruct (inf_ord prec0 emax0 E x' Hx' Hfx') as [[_ Ho]|[_ Ho]];
      rewrite Ho in *; [|lia].
    destruct (Z.ltb_spec (INF emax0 E) 0); cbn [cond_Zopp]; lia.
  - pose proof (fin_ord_strict prec0 emax0 Hprec0 Hemax0 E x' HE Hx' Hfx').
    pose proof (Rz_bounds prec emax Hprec Hemax E' X' HE').
    destruct (inf_ord prec0 emax0 E x Hx Hfx) as [[_ Ho]|[_ Ho]];
      rewrite Ho in *; [lia|].
    destruct (Z.ltb_spec (- INF emax0 E) 0); cbn [cond_Zopp]; lia.
  - destruct (inf_ord prec0 emax0 E x Hx Hfx) as [[_ Ho]|[_ Ho]];
      destruct (inf_ord prec0 emax0 E x' Hx' Hfx') as [[_ Ho']|[_ Ho']];
      rewrite Ho, Ho' in *;
      case_sign; lia.
Qed.

Lemma convert_ord (x : spec_float) :
  emin0 <= emin ->
  wf prec0 emax0 x ->
  wf prec emax (convert x)
  /\ ord emax emin0 (convert x)
     = if is_fin x then Rz prec emax emin0 (ord emax0 emin0 x)
       else cond_Zopp (ord emax0 emin0 x <? 0) (INF emax emin0).
Proof.
  intros HE Hx.
  pose proof (INF_pos prec0 emax0 Hprec0 Hemax0 emin0 ltac:(lia)) as HINF.
  destruct x as [sx|sx| |sx mx ex]; try (now elim (proj2 Hx)); cbn [convert is_fin].
  - split; [closed_wf | reflexivity].
  - split; [closed_wf|].
    cbn [ord]. destruct sx; cbn [cond_Zopp];
      case_sign; lia.
  - destruct Hx as [Hvx _].
    pose proof (proj1 (valid_finite prec0 emax0 _ _ _) Hvx) as (Hex & _).
    destruct (binary_round_ord prec emax Hprec Hemax emin0 sx mx ex HE ltac:(lia))
      as [Hw Ho].
    split; [exact Hw|]. rewrite Ho. cbn [ord].
    pose proof (pow2_pos (ex - emin0) ltac:(lia)).
    destruct sx; cbn [cond_Zopp].
    + rewrite Rz_opp. f_equal.
      destruct (Zpos mx * 2 ^ (ex - emin0)) eqn:HP; try lia. reflexivity.
    + destruct (Zpos mx * 2 ^ (ex - emin0)) eqn:HP; try lia. reflexivity.
Qed.

Lemma convert_mono (x x' : spec_float) :
  emin0 <= emin ->
  fle prec0 emax0 x x' -> fle prec emax (convert x) (convert x').
Proof.
  intros HE H.
  apply (fle_ord prec0 emax0 Hprec0 Hemax0 emin0) in H; [|lia].
  destruct H as (Hx & Hx' & Hle).
  destruct (convert_ord x HE Hx) as [Hw Ho].
  destruct (convert_ord x' HE Hx') as [Hw' Ho'].
  apply (fle_ord prec emax Hprec Hemax emin0); [exact HE|].
  split; [exact Hw | split; [exact Hw'|]].
  apply (mono_cases emin0 emin0 x x' _ _ _ _ ltac:(lia) HE Hx Hx' Hle Ho Ho').
  intros _ _. exact Hle.
Qed.

End Monotone.

Section Operations.

Variables prec emax : Z.
Hypothesis Hprec : 0 < prec.
Hypothesis Hemax : prec < emax.

Local Abbreviation emin := (SpecFloat.emin prec emax).
Local Abbreviation fle := (fle prec emax).
Local Abbreviation wf := (wf prec emax).

Lemma SFadd_mono_l (x x' y : spec_float) :
  fle x x' -> wf y -> is_fin y = true ->
  fle (SFadd prec emax x y) (SFadd prec emax x' y).
Proof.
  intros H Hy Hfy. pose proof (emin_bounds prec emax Hprec Hemax) as [He0 _].
  apply (fle_ord prec emax Hprec Hemax emin) in H; [|lia].
  destruct H as (Hx & Hx' & Hle).
  destruct (SFadd_ord_sign prec emax Hprec Hemax emin x y ltac:(lia) Hx Hy Hfy) as [Hw Ho].
  destruct (SFadd_ord_sign prec emax Hprec Hemax emin x' y ltac:(lia) Hx' Hy Hfy) as [Hw' Ho'].
  apply (fle_ord prec emax Hprec Hemax emin); [lia|].
  split; [exact Hw | split; [exact Hw'|]].
  apply (mono_cases prec emax Hprec Hemax prec emax Hprec Hemax emin emin
           x x' _ _ _ _ ltac:(lia) ltac:(lia) Hx Hx' Hle Ho Ho').
  intros _ _. lia.
Qed.

Lemma SFadd_mono_r (x y y' : spec_float) :
  fle y y' -> wf x -> is_fin x = true ->
  fle (SFadd prec emax x y) (SFadd prec emax x y').
Proof.
  intros H Hx Hfx. rewrite (SFadd_comm prec emax x y), (SFadd_comm prec emax x y').
  now apply SFadd_mono_l.
Qed.

(** Subtraction: monotone in the first argument, antitone in the second. *)
Lemma SFsub_mono_l (x x' y : spec_float) :
  fle x x' -> wf y -> is_fin y = true ->
  fle (SFsub prec emax x y) (SFsub prec emax x' y).
Proof.
  intros H Hy Hfy. rewrite !SFsub_add_opp.
  apply SFadd_mono_l; [exact H | now apply wf_opp | now rewrite is_fin_opp].
Qed.

Lemma SFsub_anti_r (x y y' : spec_float) :
  fle y y' -> wf x -> is_fin x = true ->
  fle (SFsub prec emax x y') (SFsub prec emax x y).
Proof.
  intros H Hx Hfx. rewrite !SFsub_add_opp.
  apply SFadd_mono_r; [now apply fle_opp | exact Hx | exact Hfx].
Qed.

Lemma SFmul_mono_r (mc : positive) (ec : Z) (x x' : spec_float) :
  wf (S754_finite false mc ec) ->
  fle x x' ->
  fle (SFmul prec emax (S754_finite false mc ec) x)
      (SFmul prec emax (S754_finite false mc ec) x').
Proof.
  intros Hc H. pose proof (emin_bounds prec emax Hprec Hemax) as [He0 _].
  apply (fle_ord prec emax Hprec Hemax emin) in H; [|lia].
  destruct H as (Hx & Hx' & Hle).
  destruct (SFmul_ord prec emax Hprec Hemax emin mc ec x ltac:(lia) Hc Hx) as [Hw Ho].
  destruct (SFmul_ord prec emax Hprec Hemax emin mc ec x' ltac:(lia) Hc Hx') as [Hw' Ho'].
  apply (fle_ord prec emax Hprec Hemax (2 * emin)); [lia|].
  split; [exact Hw | split; [exact Hw'|]].
  apply (mono_cases prec emax Hprec Hemax prec emax Hprec Hemax emin (2 * emin)
           x x' _ _ _ _ ltac:(lia) ltac:(lia) Hx Hx' Hle Ho Ho').
  intros _ _.
  pose proof (finite_ord_bounds prec emax Hprec emin false mc ec ltac:(lia) (proj1 Hc)).
  cbn [ord cond_Zopp]. apply Z.mul_le_mono_nonneg_l; lia.
Qed.

End Operations.

(** *** The two formats of the program *)

Lemma f32_prec : 0 < f32.prec.
Proof. reflexivity. Qed.
Lemma f32_emax : f32.prec < f32.emax.
Proof. reflexivity. Qed.
Lemma f64_prec : 0 < f64.prec.
Proof. reflexivity. Qed.
Lemma f64_emax : f64.prec < f64.emax.
Proof. reflexivity. Qed.

Lemma ltb_fle (prec emax : Z) (x y : spec_float) :
  0 < prec -> prec < emax ->
  wf prec emax x -> wf prec emax y -> SFltb x y = true -> fle prec emax x y.
Proof.
  intros Hp He Hx Hy H. pose proof (emin_bounds prec emax Hp He) as [H0 _].
  apply (fle_ord prec emax Hp He (emin prec emax)); [lia|].
  split; [exact Hx | split; [exact Hy|]].
  rewrite (ltb_ord prec emax Hp He (emin prec emax) x y ltac:(lia) Hx Hy) in H.
  apply Z.ltb_lt in H. lia.
Qed.

(** [leb] and [ltb] along the order. *)
Lemma leb_fle_trans (prec emax : Z) (x y z : spec_float) :
  0 < prec -> prec < emax ->
  wf prec emax x -> SFleb x y = true -> fle prec emax y z -> SFleb x z = true.
Proof.
  intros Hp He Hx Hxy Hyz.
  assert (H : fle prec emax x z).
  { apply (fle_trans prec emax Hp He x y z); [|exact Hyz].
    destruct Hyz as (Hy & _ & _). split; [exact Hx | split; [exact Hy | exact Hxy]]. }
  now destruct H as (_ & _ & H).
Qed.

Lemma fle_ltb_trans (prec emax : Z) (x y z : spec_float) :
  0 < prec -> prec < emax ->
  fle prec emax x y -> wf prec emax z -> SFltb y z = true -> SFltb x z = true.
Proof.
  intros Hp He Hxy Hz Hyz. pose proof (emin_bounds prec emax Hp He) as [H0 _].
  apply (fle_ord prec emax Hp He (emin prec emax)) in Hxy; [|lia].
  destruct Hxy as (Hx & Hy & Hle).
  rewrite (ltb_ord prec emax Hp He (emin prec emax) y z ltac:(lia) Hy Hz) in Hyz.
  rewrite (ltb_ord prec emax Hp He (emin prec emax) x z ltac:(lia) Hx Hz).
  apply Z.ltb_lt in Hyz. apply Z.ltb_lt. lia.
Qed.

(** The horizontal position of a Pelican grows with its spawn time. *)
Lemma pelican_x_mono (t sA sB : double) :
  finite_double t -> fle64 sA sB ->
  fle32
    (f32.of_double
       (f64.of_float (f32.lit 1 1) -d f64.of_float (f32.lit 8 10) *d (t -d sA)))
    (f32.of_double
       (f64.of_float (f32.lit 1 1) -d f64.of_float (f32.lit 8 10) *d (t -d sB))).
Proof.
  intros [Ht Htf] Hs. unfold f32.of_double, f64.sub, f64.mul.
  apply (convert_mono f32.prec f32.emax f32_prec f32_emax
           f64.prec f64.emax f64_prec f64_emax); [vm_compute; discriminate|].
  let c := eval vm_compute in (f64.of_float (f32.lit 8 10)) in
  change (f64.of_float (f32.lit 8 10)) with c.
  apply (SFsub_anti_r f64.prec f64.emax f64_prec f64_emax).
  - apply (SFmul_mono_r f64.prec f64.emax f64_prec f64_emax).
    + closed_wf.
    + now apply (SFsub_anti_r f64.prec f64.emax f64_prec f64_emax).
  - closed_wf.
  - reflexivity.
Qed.

(** The last time a Spray is visible grows with its spawn time. *)
Lemma spray_deadline_mono (sA sB : double) :
  fle64 sA sB -> fle64 (sA +d pi) (sB +d pi).
Proof.
  intros Hs. unfold f64.add.
  apply (SFadd_mono_l f64.prec f64.emax f64_prec f64_emax); [exact Hs | |reflexivity].
  closed_wf.
Qed.

(** The vertical test of [Pelican::hit] on an updated Pelican is closed
    downwards in the position of the vessel. *)
Lemma pelican_vertical_down (y y' : float) :
  fle32 y' y ->
  (y -f f32.lit 2 10 <f f32.lit 5 100 +f f32.lit 2 10) = true ->
  (y' -f f32.lit 2 10 <f f32.lit 5 100 +f f32.lit 2 10) = true.
Proof.
  intros Hy H. unfold f32.ltb, f32.sub in *.
  apply (fle_ltb_trans f32.prec f32.emax _ (SFsub f32.prec f32.emax y (f32.lit 2 10)));
    [exact f32_prec | exact f32_emax | | | exact H].
  - apply (SFsub_mono_l f32.prec f32.emax f32_prec f32_emax); [exact Hy | |reflexivity].
    closed_wf.
  - closed_wf.
Qed.

(** * Properties of the frame function *)

Section Properties.

Variable std_cos : double -> double.
Variable mt19937 : Type.
Variable sample_bernoulli :
  random.bernoulli_distribution -> mt19937 -> bool * mt19937.
Variable sample_uniform_real :
  random.uniform_real_distribution -> mt19937 -> double * mt19937.

Local Abbreviation frame := (frame std_cos sample_bernoulli sample_uniform_real).
Local Abbreviation spawn := (spawn sample_bernoulli sample_uniform_real).
Local Abbreviation update := (update std_cos).

(** A Running frame, with the tuples of the model projected. *)
Lemma frame_running (i : Input) (s : Session mt19937) :
  gameover s = false ->
  frame i s =
    let t := glfwGetTime i in
    let v := physics (jumpKeyPressed i) (vessel s) in
    let sp := spawn t (cull (objects s)) (randEngine s) (interval s) in
    mkSession (fst (fst v)) (snd (fst v)) (snd v)
              (map (update t) (fst (fst sp))) (snd (fst sp)) (snd sp)
              (collide (fst (fst v)) (objects s)) t.
Proof.
  intros Hrun. unfold frame, vessel. rewrite Hrun. cbv zeta.
  destruct (physics _ _) as [[posY velY] g].
  destruct (spawn _ _ _ _) as [[objs eng] gap].
  reflexivity.
Qed.

(** A GameOver frame without retry changes nothing. *)
Lemma frame_gameover_idle (i : Input) (s : Session mt19937) :
  gameover s = true -> retryKeyPressed i = false -> frame i s = s.
Proof.
  intros Hover Hretry. unfold frame. now rewrite Hover, Hretry.
Qed.

Lemma physics_preserves_inv (jump : bool) (v : float * float * bool) :
  vessel_inv v -> vessel_inv (physics jump v).
Proof.
  destruct v as [[posY velY] g]. unfold vessel_inv, physics. cbn [fst snd].
  destruct g.
  - destruct jump; cbn [fst snd]; [discriminate | auto].
  - intros _. destruct (SEA_LEVEL <f posY); cbn [fst snd];
      [auto | discriminate].
Qed.

Lemma cull_split (objs : list Object) :
  exists gone,
    objs = gone ++ cull objs
    /\ forallb (fun o => negb (isVisible o)) gone = true
    /\ match cull objs with [] => True | o :: _ => isVisible o = true end.
Proof.
  induction objs as [|o rest [gone (Hsplit & Hgone & Hfront)]].
  - exists []. cbn. auto.
  - cbn [cull]. destruct (isVisible o) eqn:Hvis.
    + exists []. cbn. auto.
    + exists (o :: gone). cbn. rewrite Hvis, Hgone. cbn.
      split; [now f_equal | auto].
Qed.

Lemma spawn_due_iff (t gap : double) (objs : list Object) :
  spawn_due t gap objs = true <->
  objs = [] \/ exists o, back objs = Some o /\ (getSpawnTime o +d gap <d t) = true.
Proof.
  unfold spawn_due. destruct (back objs) as [o|] eqn:Hback.
  - split.
    + intros H. right. now exists o.
    + intros [-> | (o' & Ho' & H)]; [discriminate | congruence].
  - split; [intros _ | reflexivity]. left.
    destruct objs as [|o rest]; [reflexivity | exfalso].
    revert o Hback. unfold back.
    induction rest as [|o' rest IH]; intros o; cbn; [discriminate | apply IH].
Qed.

(** C9: a retry request in a Running frame has no effect: the session after
    the frame (vessel, registry, scheduler state, gameover flag) is the same
    whether or not the retry key is pressed. *)
Theorem retry_ignored_while_running
  (s : Session mt19937) (retry retry' jump : bool) (t : double) :
  gameover s = false ->
  frame (mkInput retry jump t) s = frame (mkInput retry' jump t) s.
Proof.
  intros Hrun. now rewrite 2 (frame_running _ _ Hrun).
Qed.

(** C4: grounded implies zero velocity and position at SEA_LEVEL; this
    holds in the initial session and every frame preserves it, through the
    jump, the snap to the baseline, and the retry reset. *)
Theorem vessel_invariant :
  (forall seed t0 t1, vessel_inv (vessel (init (mt19937 := mt19937) seed t0 t1)))
  /\ (forall i (s : Session mt19937),
        vessel_inv (vessel s) -> vessel_inv (vessel (frame i s))).
Proof.
  split.
  - intros seed t0 t1 _. cbn. auto.
  - intros i s Hinv. destruct (gameover s) eqn:Hover.
    + unfold frame. rewrite Hover.
      destruct (retryKeyPressed i); [intros _; cbn; auto | exact Hinv].
    + rewrite (frame_running _ _ Hover). cbv zeta.
      pose proof (physics_preserves_inv (jumpKeyPressed i) _ Hinv) as H.
      destruct (physics _ _) as [[posY velY] g]. exact H.
Qed.

(** C8: what [update] leaves in an object (position, visibility and, for a
    Pelican, the animation index) depends only on the subclass, the spawn
    time and the time given to [update]: two objects of the same subclass and
    spawn time are equal after [update t], whatever they held before, and
    updating twice at the same time is the same as once. *)
Theorem update_deterministic (t : double) (o1 o2 : Object) :
  same_variant o1 o2 = true ->
  getSpawnTime o1 = getSpawnTime o2 ->
  update t o1 = update t o2
  /\ getSpawnTime (update t o1) = getSpawnTime o1
  /\ update t (update t o1) = update t o1.
Proof.
  destruct o1 as [b1|b1 a1], o2 as [b2|b2 a2]; try discriminate;
    unfold getSpawnTime; cbn; intros _ Hs;
    unfold Spray_update, Pelican_update; cbn; rewrite Hs; auto.
Qed.

(** C2 (as amended): in a Running frame that reports a hit, [gameover] is
    set and the registry lifecycle still runs in that frame: the registry,
    the engine and the gap are the culled, spawned and updated ones at the
    time of the frame.  From then on a frame without retry changes nothing. *)
Theorem collision_frame_runs_lifecycle (i : Input) (s : Session mt19937) :
  gameover s = false ->
  collide (fst (fst (physics (jumpKeyPressed i) (vessel s)))) (objects s) = true ->
  let t := glfwGetTime i in
  let sp := spawn t (cull (objects s)) (randEngine s) (interval s) in
  let s' := frame i s in
  gameover s' = true
  /\ objects s' = map (update t) (fst (fst sp))
  /\ randEngine s' = snd (fst sp)
  /\ interval s' = snd sp
  /\ time s' = t
  /\ forall i', retryKeyPressed i' = false -> frame i' s' = s'.
Proof.
  intros Hrun Hhit t sp s'.
  assert (Hover : gameover s' = true).
  { subst s'. rewrite (frame_running _ _ Hrun). exact Hhit. }
  split; [exact Hover|]. subst s'. rewrite (frame_running _ _ Hrun) in *.
  cbn. repeat split.
  intros i' Hretry. now apply frame_gameover_idle.
Qed.

(** Of two objects of one subclass, the one spawned later is visible after
    [update t] whenever the one spawned earlier is. *)
Lemma later_spawn_visible (t : double) (A B : Object) :
  same_variant A B = true ->
  finite_double t ->
  finite_double (getSpawnTime A) -> finite_double (getSpawnTime B) ->
  (getSpawnTime A <d getSpawnTime B) = true ->
  isVisible (update t A) = true -> isVisible (update t B) = true.
Proof.
  intros Hsame Ht [HA _] [HB _] Hlt.
  assert (Hs : fle64 (getSpawnTime A) (getSpawnTime B))
    by (apply ltb_fle; [reflexivity | reflexivity | exact HA | exact HB | exact Hlt]).
  destruct A as [bA|bA aA], B as [bB|bB aB]; try discriminate;
    unfold getSpawnTime, isVisible in *; cbn [base update] in *.
  - unfold Spray_update. cbn [base visible_]. unfold f64.leb. intros HvA.
    apply (leb_fle_trans f64.prec f64.emax _ (spawnTime_ bA +d pi));
      [reflexivity | reflexivity | exact (proj1 Ht) | exact HvA |].
    now apply spray_deadline_mono.
  - unfold Pelican_update. cbn [base visible_ glm.x]. unfold f32.leb. intros HvA.
    eapply (leb_fle_trans f32.prec f32.emax);
      [reflexivity | reflexivity | | exact HvA |].
    + closed_wf.
    + now apply pelican_x_mono.
Qed.

(** C1 (as amended): for two hazards A and B of the same subclass with
    A.spawnTime < B.spawnTime (and finite times), A's visibility becomes
    false no later than B's: whenever [update t] leaves B invisible it
    leaves A invisible.  So in a registry of one subclass ordered by spawn
    time, once updated, the cull loop leaves no invisible hazard behind a
    visible front element. *)
Theorem same_variant_monotone (t : double) (A B : Object) (objs : list Object) :
  finite_double t ->
  (same_variant A B = true ->
   finite_double (getSpawnTime A) -> finite_double (getSpawnTime B) ->
   (getSpawnTime A <d getSpawnTime B) = true ->
   isVisible (update t B) = false -> isVisible (update t A) = false)
  /\ (spawn_ordered objs ->
      forallb isVisible (cull (map (update t) objs)) = true).
Proof.
  intros Ht. split.
  - intros Hsame HA HB Hlt HvB.
    destruct (isVisible (update t A)) eqn:HvA; [|reflexivity].
    rewrite (later_spawn_visible t A B Hsame Ht HA HB Hlt HvA) in HvB.
    discriminate.
  - induction objs as [|o rest IH]; [reflexivity|].
    intros (Ho & Hrest & Hord). cbn [map cull].
    destruct (isVisible (update t o)) eqn:Hvis; [|now apply IH].
    cbn [forallb]. rewrite Hvis. cbn [andb].
    apply forallb_forall. intros h' Hin.
    apply in_map_iff in Hin. destruct Hin as (h & <- & Hin).
    rewrite Forall_forall in Hrest. destruct (Hrest h Hin) as [Hsame Hlt].
    apply (later_spawn_visible t o h Hsame Ht Ho); [|exact Hlt | exact Hvis].
    clear - Hord Hin. induction rest as [|r rest IHr]; [contradiction|].
    destruct Hord as (Hr & _ & Hord). destruct Hin as [->|Hin]; auto.
Qed.

Lemma spawn_keeps (t : double) (objs : list Object) (g : mt19937)
  (gap : double) (h : Object) :
  In h objs -> In h (fst (fst (spawn t objs g gap))).
Proof.
  intros Hin. unfold spawn. destruct (spawn_due t gap objs); [|exact Hin].
  destruct (sample_bernoulli typeDist g) as [spray g1].
  destruct (sample_uniform_real intervalDist g1) as [gap' g2].
  cbn [fst]. apply in_or_app. now left.
Qed.

(** The cull loop skips every invisible object in front of [l]. *)
Lemma cull_app_invisible (gone l : list Object) :
  forallb (fun h => negb (isVisible h)) gone = true ->
  cull (gone ++ l) = cull l.
Proof.
  induction gone as [|h gone IH]; [reflexivity|]. cbn [forallb app cull].
  intros H. apply andb_true_iff in H. destruct H as [Hh Hgone].
  apply negb_true_iff in Hh. rewrite Hh. now apply IH.
Qed.

(** The scheduler appends at most one object and touches nothing else. *)
Lemma spawn_extends (t : double) (objs : list Object) (g : mt19937)
  (gap : double) :
  exists spawned,
    fst (fst (spawn t objs g gap)) = objs ++ spawned
    /\ (length spawned <= 1)%nat.
Proof.
  unfold spawn. destruct (spawn_due t gap objs).
  - destruct (sample_bernoulli typeDist g) as [spray g1].
    destruct (sample_uniform_real intervalDist g1) as [gap' g2].
    cbn [fst]. eexists. split; [reflexivity | cbn; lia].
  - exists []. cbn [fst]. rewrite app_nil_r. split; [reflexivity | cbn; lia].
Qed.

(** C10: in a Running frame, whatever the registry holds, the cull loop
    removes exactly the invisible objects in front of the first visible
    one: the registry is that prefix followed by what the cull leaves, and
    what it leaves is empty or starts with a visible object.  So for a
    registry [gone ++ o :: rest] with [gone] invisible and [o] visible the
    cull leaves [o :: rest]: every object of [rest] stays, invisible or
    not, and is updated with the others, in order, followed by at most one
    spawned object; a registry without a visible object is emptied.  The
    collision loop, which runs before the cull, tests every object of the
    registry, the invisible ones and those about to be removed included. *)
Theorem cull_front_only_collide_all (i : Input) (s : Session mt19937) :
  gameover s = false ->
  let t := glfwGetTime i in
  let s' := frame i s in
  (exists gone,
      objects s = gone ++ cull (objects s)
      /\ forallb (fun h => negb (isVisible h)) gone = true
      /\ match cull (objects s) with [] => True | h :: _ => isVisible h = true end)
  /\ (forall gone o rest,
        objects s = gone ++ o :: rest ->
        forallb (fun h => negb (isVisible h)) gone = true ->
        isVisible o = true ->
        cull (objects s) = o :: rest
        /\ (forall h, In h rest -> isVisible h = false ->
              In h (cull (objects s)) /\ In (update t h) (objects s'))
        /\ exists spawned,
             objects s' = map (update t) (o :: rest) ++ spawned
             /\ (length spawned <= 1)%nat)
  /\ (forallb (fun h => negb (isVisible h)) (objects s) = true ->
      cull (objects s) = [])
  /\ gameover s' = existsb (fun h => hit h (boatPosY s')) (objects s)
  /\ (forall h, In h (objects s) -> hit h (boatPosY s') = true ->
       gameover s' = true).
Proof.
  intros Hrun t s'.
  assert (Hover : gameover s' = existsb (fun h => hit h (boatPosY s')) (objects s)).
  { subst s'. now rewrite (frame_running _ _ Hrun). }
  assert (Hobjs' : objects s'
                   = map (update t)
                       (fst (fst (spawn t (cull (objects s)) (randEngine s)
                                        (interval s))))).
  { subst s'. now rewrite (frame_running _ _ Hrun). }
  split; [apply cull_split|]. split; [|split; [|split]].
  - intros gone o rest Hobjs Hgone Hvis.
    assert (Hcull : cull (objects s) = o :: rest).
    { rewrite Hobjs, (cull_app_invisible _ _ Hgone). cbn [cull]. now rewrite Hvis. }
    split; [exact Hcull|]. split.
    + intros h Hin _.
      assert (Hh : In h (cull (objects s))) by (rewrite Hcull; now right).
      split; [exact Hh|]. rewrite Hobjs'. apply in_map. now apply spawn_keeps.
    + destruct (spawn_extends t (cull (objects s)) (randEngine s) (interval s))
        as (spawned & Hsp & Hlen).
      exists (map (update t) spawned). rewrite Hobjs', Hsp, Hcull, map_app.
      split; [reflexivity | now rewrite length_map].
  - intros Hall. rewrite <- (app_nil_r (objects s)).
    now rewrite (cull_app_invisible _ _ Hall).
  - exact Hover.
  - intros h Hin Hhit. rewrite Hover. apply existsb_exists. now exists h.
Qed.

(** The spawn scheduler of a Running frame, for any sampling operators: a
    hazard is spawned exactly when the registry (after the cull) is empty or
    the time of the frame exceeds the spawn time of the last hazard plus the
    current gap. *)
Lemma spawn_step (i : Input) (s : Session mt19937) :
  gameover s = false ->
  let t := glfwGetTime i in
  let live := cull (objects s) in
  let s' := frame i s in
  let coin := sample_bernoulli typeDist (randEngine s) in
  let drawn := sample_uniform_real intervalDist (snd coin) in
  let new := if fst coin then Spray_ctor t else Pelican_ctor t in
  let due := live = [] \/
             exists o, back live = Some o
                       /\ (getSpawnTime o +d interval s <d t) = true in
  (due ->
     objects s' = map (update t) live ++ [update t new]
     /\ getSpawnTime (update t new) = t
     /\ interval s' = fst drawn
     /\ randEngine s' = snd drawn)
  /\ (~ due ->
       objects s' = map (update t) live
       /\ interval s' = interval s
       /\ randEngine s' = randEngine s)
  /\ (length (objects s') <= S (length live))%nat.
Proof.
  intros Hrun t live s' coin drawn new due.
  assert (Hs' : s' = frame i s) by reflexivity. clearbody s'.
  rewrite (frame_running _ _ Hrun) in Hs'. cbv zeta in Hs'.
  fold t live in Hs'. unfold spawn in Hs'. fold coin in Hs'.
  pose proof (spawn_due_iff t (interval s) live) as Hdue. fold due in Hdue.
  destruct (spawn_due t (interval s) live).
  - assert (Hd : due) by now apply Hdue.
    destruct coin as [spray g1] eqn:Hcoin. cbn [fst snd] in *.
    fold drawn in Hs'. destruct drawn as [gap g2].
    cbn [fst snd] in *. fold new in Hs'. subst s'.
    cbn [objects interval randEngine]. split; [|split].
    + intros _. rewrite map_app. cbn [map].
      repeat split; auto. subst new. destruct spray; reflexivity.
    + intros Hn. contradiction.
    + rewrite length_map, length_app. cbn. lia.
  - assert (Hd : ~ due) by (intros H; apply Hdue in H; discriminate).
    cbn [fst snd] in Hs'. subst s'. cbn [objects interval randEngine].
    split; [|split].
    + intros H. contradiction.
    + intros _. auto.
    + rewrite length_map. lia.
Qed.

End Properties.

(** ** The gap drawn at a spawn (C5) *)

Lemma SFmul_comm (prec emax : Z) (x y : spec_float) :
  SFmul prec emax x y = SFmul prec emax y x.
Proof.
  destruct x as [sx|sx| |sx mx ex], y as [sy|sy| |sy my ey]; cbn [SFmul];
    try reflexivity; try (now rewrite xorb_comm).
  now rewrite xorb_comm, Pos.mul_comm, Z.add_comm.
Qed.

(** The uniform draw of [intervalDist] from a canonical value in [0, 1):
    the rounded [u * 2.0 + 1.0] lies in the closed range [1.0, 3.0]. *)
Lemma uniform_real_range (u : double) :
  wf f64.prec f64.emax u ->
  (S754_zero false <=d u) = true -> (u <d f64.lit 1 1) = true ->
  (f64.lit 1 1 <=d uniform_real intervalDist u) = true
  /\ (uniform_real intervalDist u <=d f64.lit 3 1) = true.
Proof.
  intros Hu H0 H1. unfold uniform_real. cbn [random.a random.b intervalDist].
  assert (Hlo : fle64 (S754_zero false) u)
    by (split; [closed_wf | split; [exact Hu | exact H0]]).
  assert (Hhi : fle64 u (f64.lit 1 1)).
  { apply (ltb_fle f64.prec f64.emax);
      [exact f64_prec | exact f64_emax | exact Hu | closed_wf | exact H1]. }
  unfold f64.add, f64.mul, f64.leb.
  let c := eval vm_compute in (f64.lit 3 1 -d f64.lit 1 1) in
  change (f64.lit 3 1 -d f64.lit 1 1) with c.
  rewrite (SFmul_comm f64.prec f64.emax u).
  assert (Hone : wf f64.prec f64.emax (f64.lit 1 1)) by closed_wf.
  split.
  - refine (proj2 (proj2 (fle_trans f64.prec f64.emax f64_prec f64_emax
                            _ _ _ _
                            (SFadd_mono_l f64.prec f64.emax f64_prec f64_emax _ _ _
                               (SFmul_mono_r f64.prec f64.emax f64_prec f64_emax
                                  _ _ _ _ _ Hlo) Hone eq_refl)))).
    + split; [closed_wf | split; [|vm_compute; reflexivity]];
        split; [vm_compute; reflexivity | vm_compute; discriminate].
    + closed_wf.
  - refine (proj2 (proj2 (fle_trans f64.prec f64.emax f64_prec f64_emax
                            _ _ _
                            (SFadd_mono_l f64.prec f64.emax f64_prec f64_emax _ _ _
                               (SFmul_mono_r f64.prec f64.emax f64_prec f64_emax
                                  _ _ _ _ _ Hhi) Hone eq_refl) _))).
    + closed_wf.
    + split; [|split; [closed_wf | vm_compute; reflexivity]];
        split; [vm_compute; reflexivity | vm_compute; discriminate].
Qed.

(** C5 (as amended): in a Running frame a hazard is spawned exactly when
    the registry (after the cull) is empty or the time of the frame exceeds
    the spawn time of the last hazard plus the current gap.  A spawn appends
    one hazard to the back, with spawn time the time of the frame; its kind
    is a draw from [typeDist] (Bernoulli, p = 0.5); the new gap is then
    computed from the next canonical draw [u] of the engine as
    [u * (3.0 - 1.0) + 1.0] in [double], which for [u] in [0, 1) lies in the
    closed range [1.0, 3.0].  Without a spawn, registry, gap and engine are
    unchanged; at most one hazard is spawned per frame. *)
Theorem spawn_scheduler
  (std_cos : double -> double) (mt19937 : Type)
  (sample_bernoulli : random.bernoulli_distribution -> mt19937 -> bool * mt19937)
  (generate_canonical : mt19937 -> double * mt19937)
  (i : Input) (s : Session mt19937) :
  gameover s = false ->
  let t := glfwGetTime i in
  let live := cull (objects s) in
  let s' := frame std_cos sample_bernoulli
                  (sample_uniform_real_from generate_canonical) i s in
  let coin := sample_bernoulli typeDist (randEngine s) in
  let u := generate_canonical (snd coin) in
  let new := if fst coin then Spray_ctor t else Pelican_ctor t in
  let due := live = [] \/
             exists o, back live = Some o
                       /\ (getSpawnTime o +d interval s <d t) = true in
  random.p typeDist = f64.lit 1 2
  /\ random.a intervalDist = f64.lit 1 1
  /\ random.b intervalDist = f64.lit 3 1
  /\ (due ->
       objects s' = map (update std_cos t) live ++ [update std_cos t new]
       /\ getSpawnTime (update std_cos t new) = t
       /\ interval s' = fst u *d (f64.lit 3 1 -d f64.lit 1 1) +d f64.lit 1 1
       /\ randEngine s' = snd u
       /\ (wf f64.prec f64.emax (fst u) ->
           (S754_zero false <=d fst u) = true ->
           (fst u <d f64.lit 1 1) = true ->
           (f64.lit 1 1 <=d interval s') = true
           /\ (interval s' <=d f64.lit 3 1) = true))
  /\ (~ due ->
       objects s' = map (update std_cos t) live
       /\ interval s' = interval s
       /\ randEngine s' = randEngine s)
  /\ (length (objects s') <= S (length live))%nat.
Proof.
  intros Hrun t live s' coin u new due.
  pose proof (spawn_step std_cos mt19937 sample_bernoulli
                (sample_uniform_real_from generate_canonical) i s Hrun) as H.
  cbv zeta in H. fold t live s' coin new due in H.
  destruct H as (Hdue & Hnot & Hlen).
  split; [reflexivity|]. split; [reflexivity|]. split; [reflexivity|].
  split; [|split; [exact Hnot | exact Hlen]].
  intros Hd. destruct (Hdue Hd) as (Hobjs & Hnew & Hgap & Heng).
  assert (Hdraw : sample_uniform_real_from generate_canonical intervalDist (snd coin)
                  = (uniform_real intervalDist (fst u), snd u)).
  { unfold sample_uniform_real_from. fold u. now destruct u. }
  rewrite Hdraw in Hgap, Heng. cbn [fst snd] in Hgap, Heng.
  split; [exact Hobjs|]. split; [exact Hnew|]. split; [exact Hgap|].
  split; [exact Heng|].
  intros Hw H0 H1. rewrite Hgap. now apply uniform_real_range.
Qed.

(** ** The jump arc (C3) *)

Lemma grounded_rest (n : nat) :
  Forall (eq (SEA_LEVEL, S754_zero false, true))
         (physics_trace (repeat false n) (SEA_LEVEL, S754_zero false, true)).
Proof.
  induction n as [|n IH]; cbn [repeat physics_trace]; constructor; auto.
Qed.

(** C3, the claim as stated fails: the frame after 68 airborne steps leaves
    the vessel strictly beyond SEA_LEVEL and still airborne; the snap comes
    one frame later. *)
Lemma jump_overshoot_observed :
  nth 68 (jump_once 69) airborne_nan
  = (S754_finite false 13592912 (-24), S754_finite false 16750380 (-29), false)
  /\ (SEA_LEVEL <f posY_of (nth 68 (jump_once 69) airborne_nan)) = true
  /\ nth 69 (jump_once 69) airborne_nan = (SEA_LEVEL, S754_zero false, true).
Proof. vm_compute. auto. Qed.

(** C3 (as amended): from the grounded vessel at SEA_LEVEL with velocity 0,
    one jump request and none after it: the jump frame only sets the
    velocity; the position then strictly decreases for 34 frames and
    strictly increases for the next 34, staying short of SEA_LEVEL except on
    the last of them, which leaves it strictly beyond SEA_LEVEL with the
    vessel still airborne; the frame after that one snaps the position to
    exactly SEA_LEVEL, zeroes the velocity and sets grounded, and the vessel
    rests there for as long as no jump is requested. *)
Theorem jump_arc :
  let tr := jump_once 69 in
  let ps := map posY_of tr in
  nth 0 tr airborne_nan = (SEA_LEVEL, f32.neg (f32.lit 3 100), false)
  /\ chain (fun p q => q <f p) (firstn 35 ps) = true
  /\ chain f32.ltb (skipn 34 (firstn 69 ps)) = true
  /\ forallb (fun v => negb (snd v)) (firstn 69 tr) = true
  /\ forallb (fun p => p <f SEA_LEVEL) (skipn 1 (firstn 68 ps)) = true
  /\ (SEA_LEVEL <f nth 68 ps S754_nan) = true
  /\ nth 69 tr airborne_nan = (SEA_LEVEL, S754_zero false, true)
  /\ forall n,
       Forall (eq (SEA_LEVEL, S754_zero false, true))
         (physics_trace (repeat false n) (nth 69 tr airborne_nan)).
Proof.
  cbv zeta. repeat split; try (vm_compute; reflexivity).
  intros n. replace (nth 69 (jump_once 69) airborne_nan)
    with (SEA_LEVEL, S754_zero false, true) by (vm_compute; reflexivity).
  apply grounded_rest.
Qed.

(** ** The Pelican scenario (C6) *)

(** C6, the claim as stated fails: at t = 1.25 the position is not 0.0, and
    at t = 1.5 it is not -0.2f.  The two statements of the claim about
    t = 1.5 exclude each other: a position equal to -PELICAN_WIDTH passes the
    test [pos_.x >= -PELICAN_WIDTH] of line 330 (third conjunct), so the
    Pelican would be visible. *)
Lemma pelican_positions_inexact :
  f32.eqb (glm.x (pos_ (pelican_at (f64.lit 125 100)))) (S754_zero false) = false
  /\ f32.eqb (glm.x (pos_ (pelican_at (f64.lit 15 10))))
             (f32.neg (f32.lit 2 10)) = false
  /\ (f32.neg PELICAN_WIDTH <=f f32.neg (f32.lit 2 10)) = true.
Proof. vm_compute. auto. Qed.

(** C6 (as amended): a Pelican spawned at 0 has, after [update t], the
    horizontal position 1 - 0.8f * t computed in binary64 and rounded to
    binary32, where 0.8f = 13421773 * 2^-24 is slightly above 0.8.  At
    t = 1.25 this is -2^-26 (not 0.0) and the Pelican is visible; at t = 1.5
    it is -13421774 * 2^-26, one unit in the last place below
    -PELICAN_WIDTH = -13421773 * 2^-26, and the Pelican is not visible. *)
Theorem pelican_scenario :
  (forall t,
      glm.x (pos_ (pelican_at t))
      = f32.of_double
          (f64.of_float (f32.lit 1 1)
           -d f64.of_float (f32.lit 8 10) *d (t -d S754_zero false)))
  /\ f32.lit 8 10 = S754_finite false 13421773 (-24)
  /\ glm.x (pos_ (pelican_at (f64.lit 125 100))) = S754_finite true 8388608 (-49)
  /\ visible_ (pelican_at (f64.lit 125 100)) = true
  /\ glm.x (pos_ (pelican_at (f64.lit 15 10))) = S754_finite true 13421774 (-26)
  /\ f32.neg PELICAN_WIDTH = S754_finite true 13421773 (-26)
  /\ visible_ (pelican_at (f64.lit 15 10)) = false.
Proof. split; [reflexivity | vm_compute; repeat split]. Qed.

(** ** The theorems at recorded runs *)

(** C9 at the registry of [Replay.two_hazards]. *)
Lemma retry_ignored_witness :
  gameover Replay.two_hazards = false
  /\ Replay.frame (mkInput true false (f64.lit 47 16)) Replay.two_hazards
     = Replay.frame (mkInput false false (f64.lit 47 16)) Replay.two_hazards.
Proof.
  split; [reflexivity|].
  apply (retry_ignored_while_running Replay.std_cos Replay.engine
           Replay.sample_bernoulli Replay.sample_uniform_real).
  reflexivity.
Defined.

(** C4 at a jump from the grounded vessel of [Replay.spray_arrives]. *)
Lemma vessel_invariant_witness :
  vessel_inv (vessel Replay.spray_arrives)
  /\ vessel_inv (vessel (Replay.frame (mkInput false true (f64.lit 5 2))
                                      Replay.spray_arrives)).
Proof.
  assert (H : vessel_inv (vessel Replay.spray_arrives)).
  { intros _. split; reflexivity. }
  split; [exact H|].
  exact (proj2 (vessel_invariant Replay.std_cos Replay.engine
                  Replay.sample_bernoulli Replay.sample_uniform_real) _ _ H).
Defined.

(** C8 at a fresh Pelican and one that was updated before. *)
Lemma update_deterministic_witness :
  update Replay.std_cos (f64.lit 3 2) (Pelican_ctor (S754_zero false))
  = update Replay.std_cos (f64.lit 3 2)
      (Pelican_update (f64.lit 5 4) (Object_ctor (S754_zero false))).
Proof.
  apply (update_deterministic Replay.std_cos); reflexivity.
Defined.

(** C2, the claim as stated fails: at 2.5 the Spray of
    [Replay.spray_arrives] hits the grounded vessel; the frame sets
    [gameover] and still updates the registry (both positions and the
    animation index of the Pelican change). *)
Lemma collision_frame_updates_registry :
  Replay.run [Replay.at_time (S754_zero false); Replay.at_time (f64.lit 9 4)]
             (init [true; true; false; false] (S754_zero false) (S754_zero false))
  = Replay.spray_arrives
  /\ gameover Replay.spray_arrives = false
  /\ collide (boatPosY Replay.spray_arrives) (objects Replay.spray_arrives) = true
  /\ gameover (Replay.frame (Replay.at_time (f64.lit 5 2)) Replay.spray_arrives)
     = true
  /\ objects (Replay.frame (Replay.at_time (f64.lit 5 2)) Replay.spray_arrives)
     = [Spray (mkObject (S754_zero false)
                 (glm.mkvec2 (S754_finite true 13421778 (-27))
                             (S754_finite false 13772677 (-24))) true);
        Pelican (mkObject (f64.lit 9 4)
                   (glm.mkvec2 (S754_finite false 13421773 (-24))
                               (S754_finite false 13421773 (-28))) true) 1]
  /\ objects (Replay.frame (Replay.at_time (f64.lit 5 2)) Replay.spray_arrives)
     <> objects Replay.spray_arrives.
Proof.
  vm_compute. repeat split; try reflexivity. discriminate.
Qed.

(** C2 (as amended) at the same frame. *)
Lemma collision_frame_witness :
  gameover (Replay.frame (Replay.at_time (f64.lit 5 2)) Replay.spray_arrives)
  = true
  /\ time (Replay.frame (Replay.at_time (f64.lit 5 2)) Replay.spray_arrives)
     = f64.lit 5 2.
Proof.
  pose proof (collision_frame_runs_lifecycle Replay.std_cos Replay.engine
                Replay.sample_bernoulli Replay.sample_uniform_real
                (Replay.at_time (f64.lit 5 2)) Replay.spray_arrives
                eq_refl eq_refl) as H.
  cbv zeta in H. destruct H as (Hover & _ & _ & _ & Htime & _).
  split; [exact Hover | exact Htime].
Defined.

(** C10 at [Replay.mixed_registry], which holds an invisible Spray, a
    visible Spray and an invisible Pelican, in a frame at 4.125: the cull
    removes the first Spray only, and the invisible Pelican is kept behind
    the visible Spray. *)
Lemma cull_front_only_witness :
  gameover Replay.mixed_registry = false
  /\ map isVisible (objects Replay.mixed_registry) = [false; true; false]
  /\ cull (objects Replay.mixed_registry) = tl (objects Replay.mixed_registry)
  /\ (exists spawned,
        objects (Replay.frame (Replay.at_time (f64.lit 33 8)) Replay.mixed_registry)
        = map (update Replay.std_cos (f64.lit 33 8))
              (tl (objects Replay.mixed_registry)) ++ spawned
        /\ (length spawned <= 1)%nat)
  /\ gameover (Replay.frame (Replay.at_time (f64.lit 33 8)) Replay.mixed_registry)
     = existsb
         (fun h => hit h (boatPosY (Replay.frame (Replay.at_time (f64.lit 33 8))
                                      Replay.mixed_registry)))
         (objects Replay.mixed_registry).
Proof.
  split; [reflexivity|]. split; [reflexivity|].
  pose proof (cull_front_only_collide_all Replay.std_cos Replay.engine
                Replay.sample_bernoulli Replay.sample_uniform_real
                (Replay.at_time (f64.lit 33 8)) Replay.mixed_registry
                eq_refl) as H.
  cbv zeta in H. destruct H as (_ & Hfront & _ & Hover & _).
  destruct (Hfront [hd (Spray_ctor (S754_zero false)) (objects Replay.mixed_registry)]
                   (hd (Spray_ctor (S754_zero false))
                       (tl (objects Replay.mixed_registry)))
                   (tl (tl (objects Replay.mixed_registry)))
                   eq_refl eq_refl eq_refl) as (Hcull & _ & Hkept).
  split; [exact Hcull|]. split; [exact Hkept | exact Hover].
Defined.

(** C5, the claim as stated fails: the gap is not always below 3.0.  In the
    first frame, with the canonical draw [1 - 2^-53] (a [double] in [0, 1)),
    a Spray is spawned and the gap computed is exactly 3.0:
    [(1 - 2^-53) * 2.0] is [2 - 2^-52], and adding 1.0 rounds to 3.0. *)
Lemma gap_draw_reaches_three :
  wf f64.prec f64.emax Tape.below_one
  /\ (S754_zero false <=d Tape.below_one) = true
  /\ (Tape.below_one <d f64.lit 1 1) = true
  /\ uniform_real intervalDist Tape.below_one = f64.lit 3 1
  /\ length (objects (Tape.frame (Replay.at_time (f64.lit 1 8))
                        (init [f64.lit 1 4; Tape.below_one]
                              (S754_zero false) (S754_zero false)))) = 1%nat
  /\ interval (Tape.frame (Replay.at_time (f64.lit 1 8))
                 (init [f64.lit 1 4; Tape.below_one]
                       (S754_zero false) (S754_zero false)))
     = f64.lit 3 1
  /\ (interval (Tape.frame (Replay.at_time (f64.lit 1 8))
                  (init [f64.lit 1 4; Tape.below_one]
                        (S754_zero false) (S754_zero false)))
      <d random.b intervalDist) = false.
Proof.
  split; [closed_wf|]. vm_compute. repeat split.
Qed.

(** C5 (as amended) at [Tape.two_pelicans], whose last hazard was spawned
    at 1.25 with a gap of 2.0: a frame at 2 spawns nothing and keeps gap and
    engine; a frame at 3.5 spawns a third hazard, and with the canonical
    draw [1 - 2^-53] the new gap is 3.0, within [1.0, 3.0]. *)
Lemma spawn_scheduler_witness :
  (length (objects (Tape.frame (Replay.at_time (f64.lit 2 1)) Tape.two_pelicans))
   = 2%nat
   /\ interval (Tape.frame (Replay.at_time (f64.lit 2 1)) Tape.two_pelicans)
      = interval Tape.two_pelicans
   /\ randEngine (Tape.frame (Replay.at_time (f64.lit 2 1)) Tape.two_pelicans)
      = randEngine Tape.two_pelicans)
  /\ (length (objects (Tape.frame (Replay.at_time (f64.lit 7 2)) Tape.two_pelicans))
      = 3%nat
      /\ interval (Tape.frame (Replay.at_time (f64.lit 7 2)) Tape.two_pelicans)
         = f64.lit 3 1
      /\ (f64.lit 1 1
          <=d interval (Tape.frame (Replay.at_time (f64.lit 7 2)) Tape.two_pelicans))
         = true
      /\ (interval (Tape.frame (Replay.at_time (f64.lit 7 2)) Tape.two_pelicans)
          <=d f64.lit 3 1) = true).
Proof.
  split.
  - pose proof (spawn_scheduler Replay.std_cos Tape.engine Tape.sample_bernoulli
                  Tape.generate_canonical (Replay.at_time (f64.lit 2 1))
                  Tape.two_pelicans eq_refl) as H.
    cbv zeta in H. destruct H as (_ & _ & _ & _ & Hnot & _).
    destruct Hnot as (Hobjs & Hgap & Heng).
    + intros [Hempty | (o & Hback & Hlt)]; [discriminate Hempty|].
      vm_compute in Hback. injection Hback as <-.
      vm_compute in Hlt. discriminate Hlt.
    + unfold Tape.frame, Tape.sample_uniform_real. rewrite Hobjs, Hgap, Heng.
      split; [reflexivity | split; reflexivity].
  - pose proof (spawn_scheduler Replay.std_cos Tape.engine Tape.sample_bernoulli
                  Tape.generate_canonical (Replay.at_time (f64.lit 7 2))
                  Tape.two_pelicans eq_refl) as H.
    cbv zeta in H. destruct H as (_ & _ & _ & Hdue & _).
    destruct Hdue as (Hobjs & _ & Hgap & _ & Hrange).
    + right. eexists. split; [reflexivity | vm_compute; reflexivity].
    + destruct Hrange as [Hlo Hhi];
        [closed_wf | vm_compute; reflexivity | vm_compute; reflexivity|].
      unfold Tape.frame, Tape.sample_uniform_real.
      split; [rewrite Hobjs; reflexivity|].
      split; [rewrite Hgap; vm_compute; reflexivity|].
      split; [exact Hlo | exact Hhi].
Defined.

(** ** Visibility across subclasses (C1) *)

(** C1, the claim as stated fails: in [Replay.two_hazards] the Spray was
    spawned before the Pelican, and after the update at 2.875 the Pelican is
    invisible while the Spray is still visible; the cull loop removes
    nothing, so the invisible Pelican stays behind the visible front. *)
Lemma pelican_expires_before_earlier_spray :
  Replay.run [Replay.at_time (S754_zero false); Replay.at_time (f64.lit 5 4);
              Replay.at_time (f64.lit 23 8)]
             (init [true; false; false; true] (S754_zero false) (S754_zero false))
  = Replay.two_hazards
  /\ objects Replay.two_hazards
     = [Spray (mkObject (S754_zero false)
                 (glm.mkvec2 (S754_finite true 8388609 (-25))
                             (S754_finite false 16195015 (-24))) true);
        Pelican (mkObject (f64.lit 5 4)
                   (glm.mkvec2 (S754_finite true 10066330 (-25))
                               (S754_finite false 13421773 (-28))) false) 0]
  /\ (S754_zero false <d f64.lit 5 4) = true
  /\ cull (objects Replay.two_hazards) = objects Replay.two_hazards.
Proof. vm_compute. auto. Qed.

(** C1 (as amended) at two Pelicans spawned at 0 and at 1, updated at 2.75:
    the later one is invisible, hence the earlier one too. *)
Lemma same_variant_monotone_witness :
  isVisible (update Replay.std_cos (f64.lit 11 4) (Pelican_ctor (f64.lit 1 1)))
  = false
  /\ isVisible (update Replay.std_cos (f64.lit 11 4)
                  (Pelican_ctor (S754_zero false))) = false.
Proof.
  split; [reflexivity|].
  assert (Hfin : forall v : double,
             valid_binary f64.prec f64.emax v = true -> is_fin v = true ->
             finite_double v).
  { intros v Hv Hf. split; [split; [exact Hv|] | exact Hf].
    intros ->. discriminate. }
  refine (proj1 (same_variant_monotone Replay.std_cos (f64.lit 11 4)
                   (Pelican_ctor (S754_zero false)) (Pelican_ctor (f64.lit 1 1))
                   [] _) _ _ _ _ _);
    try (apply Hfin; reflexivity); reflexivity.
Defined.

(** ** The vertical test of the Pelican (C7) *)

(** C7 (as amended): for an updated Pelican, [hit] is true exactly when the
    horizontal extents overlap and boatPosY - 0.2f < 0.05f + 0.2f.  The
    vertical condition bounds the vessel position on one side only: a hit
    at one position is a hit at every position numerically at or below it,
    however far above the Pelican. *)
Theorem pelican_hit_one_sided (t : double) (b0 : ObjectBase) (y y' : float) :
  fle32 y' y ->
  Pelican_hit (base (Pelican_update t b0)) y
  = Pelican_overlap (base (Pelican_update t b0))
    && (y -f f32.lit 2 10 <f f32.lit 5 100 +f f32.lit 2 10)
  /\ (Pelican_hit (base (Pelican_update t b0)) y = true ->
      Pelican_hit (base (Pelican_update t b0)) y' = true).
Proof.
  intros Hy. split; [reflexivity|].
  unfold Pelican_hit. cbn [base Pelican_update pos_ glm.y].
  rewrite !andb_true_iff. intros [Hov Hvert]. split; [exact Hov|].
  now apply (pelican_vertical_down y y').
Qed.

(** C7 at a Pelican one second old, over the vessel: a hit at 0.4 is a hit
    at -1000. *)
Lemma pelican_hit_one_sided_witness :
  Pelican_hit (pelican_at (f64.lit 1 1)) (f32.lit 4 10) = true
  /\ Pelican_hit (pelican_at (f64.lit 1 1)) (f32.neg (f32.lit 1000 1)) = true.
Proof.
  split; [reflexivity|].
  refine (proj2 (pelican_hit_one_sided (f64.lit 1 1) (Object_ctor (S754_zero false))
                   (f32.lit 4 10) (f32.neg (f32.lit 1000 1)) _) _);
    [|reflexivity].
  split; [|split]; try reflexivity; (closed_wf).
Defined.

(** C7, the claim as stated fails: for the Pelican one second old there is
    no band [lo, hi] with a lower bound that excludes some finite position
    below it: every finite position below a hit is a hit. *)
Lemma pelican_band_has_no_lower_bound :
  ~ exists lo hi ylow : float,
      wf f32.prec f32.emax lo
      /\ finite_float ylow
      /\ (ylow <f lo) = true
      /\ forall y, finite_float y ->
           (Pelican_hit (pelican_at (f64.lit 1 1)) y = true
            <-> (lo <=f y) = true /\ (y <=f hi) = true).
Proof.
  intros (lo & hi & ylow & Hlo & [Hyl Hylf] & Hlt & Hband).
  assert (H0 : finite_float (S754_zero false))
    by (split; [closed_wf | reflexivity]).
  destruct (proj1 (Hband _ H0) eq_refl) as [Hlo0 _].
  assert (Hle : fle32 ylow (S754_zero false)).
  { apply (fle_trans f32.prec f32.emax f32_prec f32_emax ylow lo).
    - now apply ltb_fle.
    - split; [exact Hlo | split; [exact (proj1 H0) | exact Hlo0]]. }
  assert (Hhit : Pelican_hit (pelican_at (f64.lit 1 1)) ylow = true).
  { unfold Pelican_hit, pelican_at. cbn [base Pelican_update pos_ glm.y glm.x].
    rewrite !andb_true_iff. split; [split; reflexivity|].
    now apply (pelican_vertical_down (S754_zero false) ylow). }
  destruct (proj1 (Hband ylow (conj Hyl Hylf)) Hhit) as [Hloy _].
  pose proof (emin_bounds f32.prec f32.emax f32_prec f32_emax) as [He _].
  unfold f32.ltb, f32.leb in *.
  rewrite (ltb_ord f32.prec f32.emax f32_prec f32_emax _ ylow lo (Z.le_refl _) Hyl Hlo) in Hlt.
  rewrite (leb_ord f32.prec f32.emax f32_prec f32_emax _ lo ylow (Z.le_refl _) Hlo Hyl) in Hloy.
  apply Z.ltb_lt in Hlt. apply Z.leb_le in Hloy. lia.
Qed.

(** * Further properties of the code *)

(** ** The vessel stays on the jump cycle *)

Lemma sf_eqb_eq (x y : spec_float) : sf_eqb x y = true -> x = y.
Proof.
  destruct x as [a|a| |a m e], y as [b|b| |b n f]; cbn; try discriminate;
    try reflexivity.
  - intros H. apply Bool.eqb_prop in H. now subst.
  - intros H. apply Bool.eqb_prop in H. now subst.
  - rewrite !andb_true_iff. intros [[Hs Hm] He].
    apply Bool.eqb_prop in Hs. apply Pos.eqb_eq in Hm. apply Z.eqb_eq in He.
    now subst.
Qed.

Lemma vessel_eqb_eq (v w : float * float * bool) : vessel_eqb v w = true -> v = w.
Proof.
  destruct v as [[p1 v1] g1], w as [[p2 v2] g2]. unfold vessel_eqb. cbn [fst snd].
  rewrite !andb_true_iff. intros [[Hp Hv] Hg].
  apply sf_eqb_eq in Hp, Hv. apply Bool.eqb_prop in Hg. now subst.
Qed.

Lemma existsb_vessel_In (v : float * float * bool) (l : list (float * float * bool)) :
  existsb (vessel_eqb v) l = true -> In v l.
Proof.
  intros H. apply existsb_exists in H. destruct H as (w & Hin & Heq).
  apply vessel_eqb_eq in Heq. now subst.
Qed.

Lemma jump_cycle_closed (jump : bool) (v : float * float * bool) :
  In v jump_cycle -> In (physics jump v) jump_cycle.
Proof.
  intros Hin.
  assert (Hall : forallb (fun w => existsb (vessel_eqb (physics true w)) jump_cycle
                                   && existsb (vessel_eqb (physics false w)) jump_cycle)
                         jump_cycle = true) by (vm_compute; reflexivity).
  rewrite forallb_forall in Hall. specialize (Hall v Hin).
  apply andb_true_iff in Hall. destruct Hall as [Ht Hf].
  destruct jump; now apply existsb_vessel_In.
Qed.

(** ** More on the order of floats *)

Lemma fle_refl (prec emax : Z) (x : spec_float) :
  0 < prec -> prec < emax -> wf prec emax x -> fle prec emax x x.
Proof.
  intros Hp He Hx. pose proof (emin_bounds prec emax Hp He) as [H0 _].
  apply (fle_ord prec emax Hp He (emin prec emax)); [lia|].
  split; [exact Hx | split; [exact Hx | lia]].
Qed.

Lemma leb_false_ltb (prec emax : Z) (x y : spec_float) :
  0 < prec -> prec < emax -> wf prec emax x -> wf prec emax y ->
  SFleb x y = false -> SFltb y x = true.
Proof.
  intros Hp He Hx Hy H.
  rewrite (leb_ord prec emax Hp He _ x y (Z.le_refl _) Hx Hy) in H.
  rewrite (ltb_ord prec emax Hp He _ y x (Z.le_refl _) Hy Hx).
  apply Z.leb_gt in H. now apply Z.ltb_lt.
Qed.

Lemma leb_false_fle (prec emax : Z) (x y : spec_float) :
  0 < prec -> prec < emax -> wf prec emax x -> wf prec emax y ->
  SFleb x y = false -> fle prec emax y x.
Proof.
  intros Hp He Hx Hy H. apply (ltb_fle prec emax); try assumption.
  now apply (leb_false_ltb prec emax).
Qed.

Lemma fle_ltb_false (prec emax : Z) (x y : spec_float) :
  0 < prec -> prec < emax -> fle prec emax y x -> SFltb x y = false.
Proof.
  intros Hp He H.
  apply (fle_ord prec emax Hp He _ y x (Z.le_refl _)) in H.
  destruct H as (Hy & Hx & H).
  rewrite (ltb_ord prec emax Hp He _ x y (Z.le_refl _) Hx Hy).
  apply Z.ltb_ge. exact H.
Qed.

Lemma fle_leb_trans (prec emax : Z) (x y z : spec_float) :
  0 < prec -> prec < emax ->
  fle prec emax x y -> wf prec emax z -> SFleb y z = true -> SFleb x z = true.
Proof.
  intros Hp He Hxy Hz Hyz.
  assert (H : fle prec emax x z).
  { apply (fle_trans prec emax Hp He x y z); [exact Hxy|].
    destruct Hxy as (_ & Hy & _). split; [exact Hy | split; [exact Hz | exact Hyz]]. }
  now destruct H as (_ & _ & H).
Qed.

(** [x - x] is [+0] for every finite [x]. *)
Lemma SFsub_diag (prec emax : Z) (x : spec_float) :
  is_fin x = true -> SFsub prec emax x x = S754_zero false.
Proof.
  destruct x as [s|s| |s m e]; try discriminate; intros _; cbn [SFsub].
  - now destruct s.
  - rewrite Z.min_id, Z.sub_diag. reflexivity.
Qed.

Lemma wf_add (prec emax : Z) (x y : spec_float) :
  0 < prec -> prec < emax ->
  wf prec emax x -> wf prec emax y -> is_fin y = true ->
  wf prec emax (SFadd prec emax x y).
Proof.
  intros Hp He Hx Hy Hfy.
  exact (proj1 (SFadd_ord prec emax Hp He _ x y (Z.le_refl _) Hx Hy Hfy)).
Qed.

(** Adding a non-negative float does not decrease. *)
Lemma SFadd_ge_l (prec emax : Z) (x y : spec_float) :
  0 < prec -> prec < emax ->
  wf prec emax x -> is_fin x = true -> wf prec emax y -> is_fin y = true ->
  SFleb (S754_zero false) y = true ->
  fle prec emax x (SFadd prec emax x y).
Proof.
  intros Hp He Hx Hfx Hy Hfy H0.
  pose proof (emin_bounds prec emax Hp He) as [Hm _].
  destruct (SFadd_fin prec emax Hp He _ x y (Z.le_refl _) Hx Hy Hfx Hfy) as [Hw Ho].
  apply (fle_ord prec emax Hp He _ x _ (Z.le_refl _)).
  split; [exact Hx | split; [exact Hw|]].
  rewrite Ho.
  rewrite <- (Rz_fixed prec emax Hp _ x (Z.le_refl _) Hx) at 1.
  - apply (Rz_mono prec emax Hp He); [apply Z.le_refl|].
    rewrite (leb_ord prec emax Hp He _ _ y (Z.le_refl _)) in H0;
      [|closed_wf | exact Hy].
    apply Z.leb_le in H0. cbn [ord] in H0. lia.
  - intros s ->. discriminate.
Qed.

(** ** A hazard in the frame that spawns it *)

Lemma spray_visible_at_spawn (t : double) :
  finite_double t -> (t <=d t +d pi) = true.
Proof.
  intros [Ht Hf]. unfold f64.leb, f64.add.
  apply (SFadd_ge_l f64.prec f64.emax t pi f64_prec f64_emax Ht Hf);
    [closed_wf | reflexivity | reflexivity].
Qed.

Lemma update_at_spawn (std_cos : double -> double) (t : double) :
  finite_double t ->
  std_cos (S754_zero false) = f64.lit 1 1 ->
  update std_cos t (Spray_ctor t) = Spray_spawned t
  /\ update std_cos t (Pelican_ctor t) = Pelican_spawned t.
Proof.
  intros Ht Hcos. pose proof (spray_visible_at_spawn t Ht) as Hvis.
  destruct Ht as [_ Hf].
  unfold Spray_ctor, Pelican_ctor, Object_ctor. cbn [update].
  unfold Spray_update, Pelican_update. cbn [spawnTime_].
  assert (Hd : t -d t = S754_zero false)
    by exact (SFsub_diag f64.prec f64.emax t Hf).
  rewrite !Hd.
  change (f64.lit 2 1 *d S754_zero false) with (S754_zero false).
  rewrite Hcos, Hvis. split; reflexivity.
Qed.

Lemma back_app {A} (l : list A) (x : A) :
  last (map Some (l ++ [x])) None = Some x.
Proof.
  induction l as [|y l IH]; [reflexivity|].
  cbn [app map]. destruct (l ++ [x]) eqn:Hl.
  - now destruct l.
  - cbn [map last] in *. exact IH.
Qed.

(** X1: every hazard enters the registry visible and at the same place,
    whatever the clock reading: in a Running frame that spawns, the back of
    the registry after the frame is a Spray at (0.9f, 1.0f) or a Pelican at
    (1.0f, 0.05f) with animation index 0, visible, with the time of the
    frame as spawn time. *)
Theorem spawned_hazard_state
  (std_cos : double -> double) (mt19937 : Type)
  (sample_bernoulli : random.bernoulli_distribution -> mt19937 -> bool * mt19937)
  (sample_uniform_real :
     random.uniform_real_distribution -> mt19937 -> double * mt19937)
  (i : Input) (s : Session mt19937) :
  gameover s = false ->
  finite_double (glfwGetTime i) ->
  std_cos (S754_zero false) = f64.lit 1 1 ->
  spawn_due (glfwGetTime i) (interval s) (cull (objects s)) = true ->
  back (objects (frame std_cos sample_bernoulli sample_uniform_real i s))
  = Some (if fst (sample_bernoulli typeDist (randEngine s))
          then Spray_spawned (glfwGetTime i)
          else Pelican_spawned (glfwGetTime i)).
Proof.
  intros Hrun Ht Hcos Hdue.
  rewrite (frame_running std_cos mt19937 sample_bernoulli sample_uniform_real i s Hrun).
  cbv zeta. cbn [objects]. unfold spawn. rewrite Hdue.
  destruct (sample_bernoulli typeDist (randEngine s)) as [spray g1].
  destruct (sample_uniform_real intervalDist g1) as [gap g2].
  cbn [fst]. rewrite map_app. cbn [map]. unfold back. rewrite back_app.
  destruct (update_at_spawn std_cos (glfwGetTime i) Ht Hcos) as [HS HP].
  destruct spray; now rewrite ?HS, ?HP.
Qed.

(** ** Visibility is lost once and for all *)

Lemma pelican_x_anti_time (t t' s : double) :
  finite_double s -> fle64 t t' ->
  fle32
    (f32.of_double
       (f64.of_float (f32.lit 1 1) -d f64.of_float (f32.lit 8 10) *d (t' -d s)))
    (f32.of_double
       (f64.of_float (f32.lit 1 1) -d f64.of_float (f32.lit 8 10) *d (t -d s))).
Proof.
  intros [Hs Hsf] Ht. unfold f32.of_double, f64.sub, f64.mul.
  apply (convert_mono f32.prec f32.emax f32_prec f32_emax
           f64.prec f64.emax f64_prec f64_emax); [vm_compute; discriminate|].
  let c := eval vm_compute in (f64.of_float (f32.lit 8 10)) in
  change (f64.of_float (f32.lit 8 10)) with c.
  apply (SFsub_anti_r f64.prec f64.emax f64_prec f64_emax).
  - apply (SFmul_mono_r f64.prec f64.emax f64_prec f64_emax).
    + closed_wf.
    + now apply (SFsub_mono_l f64.prec f64.emax f64_prec f64_emax).
  - closed_wf.
  - reflexivity.
Qed.

Lemma visible_earlier (std_cos : double -> double) (t t' : double) (o : Object) :
  finite_double (getSpawnTime o) -> fle64 t t' ->
  isVisible (update std_cos t' o) = true -> isVisible (update std_cos t o) = true.
Proof.
  intros Hs Ht. destruct o as [b|b a]; unfold getSpawnTime, isVisible in *;
    cbn [base update] in *.
  - unfold Spray_update. cbn [base visible_]. unfold f64.leb, f64.add.
    apply (fle_leb_trans f64.prec f64.emax _ _ _ f64_prec f64_emax Ht).
    apply wf_add; [exact f64_prec | exact f64_emax | exact (proj1 Hs) | closed_wf | reflexivity].
  - unfold Pelican_update. cbn [base visible_ glm.x]. unfold f32.leb. intros Hv.
    apply (leb_fle_trans f32.prec f32.emax _ _ _ f32_prec f32_emax) with (2 := Hv).
    + closed_wf.
    + now apply pelican_x_anti_time.
Qed.

(** X2: under a clock that does not go back, visibility never comes back:
    if [update t] leaves a hazard invisible, so does [update t'] for every
    later [t']. *)
Theorem visibility_one_way
  (std_cos : double -> double) (t t' : double) (o : Object) :
  finite_double (getSpawnTime o) ->
  fle64 t t' ->
  isVisible (update std_cos t o) = false ->
  isVisible (update std_cos t' o) = false.
Proof.
  intros Hs Ht Hinv.
  destruct (isVisible (update std_cos t' o)) eqn:Hv; [|reflexivity].
  rewrite (visible_earlier std_cos t t' o Hs Ht Hv) in Hinv. discriminate.
Qed.

(** ** The animation index of a Pelican *)

Lemma binary_round_aux_not_negative (prec emax m e : Z) (l : location) :
  not_negative (binary_round_aux prec emax false m e l) = true.
Proof.
  unfold binary_round_aux.
  destruct (shr_fexp prec emax m e l) as [r1 e1].
  destruct (shr_fexp prec emax _ e1 loc_Exact) as [r2 e2].
  destruct (shr_m r2); [reflexivity | | reflexivity].
  now destruct (e2 <=? emax - prec).
Qed.

Lemma SFdiv_not_negative (prec emax : Z) (x : spec_float) (m : positive) (e : Z) :
  not_negative x = true ->
  not_negative (SFdiv prec emax x (S754_finite false m e)) = true.
Proof.
  destruct x as [s|[|]| |[|] mx ex]; try discriminate; intros _; cbn [SFdiv];
    try reflexivity.
  cbn [xorb].
  destruct (SFdiv_core_binary prec emax (Zpos mx) ex (Zpos m) e) as [[q e'] l].
  apply binary_round_aux_not_negative.
Qed.

Lemma to_int_rem2 (v : double) :
  not_negative v = true ->
  Z.rem (f64.to_int v) 2 = 0 \/ Z.rem (f64.to_int v) 2 = 1.
Proof.
  intros Hv. unfold f64.to_int.
  assert (Hrem : forall n, 0 <= n -> Z.rem n 2 = 0 \/ Z.rem n 2 = 1).
  { intros n Hn. pose proof (Z.rem_bound_pos n 2 Hn ltac:(lia)). lia. }
  destruct v as [s|s| |[|] m e]; try discriminate; try (left; reflexivity).
  assert (Ha : 0 <= match e with
                    | Z.neg p => Z.shiftr (Z.pos m) (Z.pos p)
                    | _ => Z.shiftl (Z.pos m) e
                    end).
  { destruct e; [apply Z.shiftl_nonneg | apply Z.shiftl_nonneg
                 | apply Z.shiftr_nonneg]; lia. }
  set (a := match e with Z.neg p => _ | _ => _ end) in *.
  destruct ((-2147483648 <=? a) && (a <=? 2147483647)); [now apply Hrem|].
  left. reflexivity.
Qed.

Lemma elapsed_not_negative (s t : double) :
  finite_double s -> fle64 s t -> not_negative (t -d s) = true.
Proof.
  intros [Hs Hsf] Hst.
  pose proof (SFsub_mono_l f64.prec f64.emax f64_prec f64_emax s t s Hst Hs Hsf) as H.
  rewrite (SFsub_diag f64.prec f64.emax s Hsf) in H.
  apply (fle_ord f64.prec f64.emax f64_prec f64_emax _ _ _ (Z.le_refl _)) in H.
  destruct H as (_ & Hw & Hle). cbn [ord] in Hle. unfold f64.sub.
  destruct (SFsub f64.prec f64.emax t s) as [a|[|]| |[|] m e]; try reflexivity;
    exfalso; cbn [ord cond_Zopp] in Hle.
  - pose proof (INF_pos f64.prec f64.emax f64_prec f64_emax _ (Z.le_refl _)). lia.
  - pose proof (finite_ord_bounds f64.prec f64.emax f64_prec _ true m e
                  (Z.le_refl _) (proj1 Hw)). lia.
Qed.

(** X3: for a clock reading at or after the spawn time, [Pelican::update]
    leaves an animation index of 0 or 1, so the lookup of the sprite in
    [Pelican::draw] is in range and one of the two Pelican sprites is drawn
    at the position of the Pelican. *)
Theorem pelican_draw_in_range (t : double) (b : ObjectBase) :
  finite_double (spawnTime_ b) ->
  fle64 (spawnTime_ b) t ->
  exists sprite,
    draw (Pelican_update t b)
    = Some (sprite, pos_ (base (Pelican_update t b)))
    /\ In sprite pelicanSprites_.
Proof.
  intros Hs Hst. unfold Pelican_update. cbn [draw base pos_].
  pose proof (elapsed_not_negative _ t Hs Hst) as Hel.
  assert (Hq : not_negative ((t -d spawnTime_ b) /d f64.lit 25 100) = true).
  { let c := eval vm_compute in (f64.lit 25 100) in
    change (f64.lit 25 100) with c.
    now apply SFdiv_not_negative. }
  destruct (to_int_rem2 _ Hq) as [-> | ->]; cbn.
  - eexists. split; [reflexivity | now left].
  - eexists. split; [reflexivity | right; now left].
Qed.

Example pelican_draw_before_spawn :
  draw (Pelican_update (S754_zero false) (Object_ctor (f64.lit 1 4))) = None.
Proof. reflexivity. Qed.

(** ** Heights at which each hazard can hit *)

(** The crest of a Spray is never above (numerically below) 0.5; it is NaN
    when the cosine is. *)
Lemma spray_y_at_least_half (std_cos : double -> double) (t : double) (b : ObjectBase) :
  cos_at_least_minus_one std_cos ->
  glm.y (pos_ (base (Spray_update std_cos t b))) = S754_nan
  \/ fle32 (f32.lit 1 2) (glm.y (pos_ (base (Spray_update std_cos t b)))).
Proof.
  intros Hcos. unfold Spray_update. cbn [base pos_ glm.y].
  destruct (Hcos (f64.lit 2 1 *d (t -d spawnTime_ b))) as [Hnan | [Hw Hge]].
  - left. rewrite Hnan. reflexivity.
  - right. set (c := std_cos _) in *.
    assert (H : fle64 (SFopp (f64.lit 1 1)) c)
      by (split; [closed_wf | split; [exact Hw | exact Hge]]).
    change (f32.lit 1 2)
      with (f32.of_double
              (f64.of_float (f32.lit 75 100) +d f64.lit 25 100 *d SFopp (f64.lit 1 1))).
    unfold f32.of_double, f64.add, f64.mul.
    apply (convert_mono f32.prec f32.emax f32_prec f32_emax
             f64.prec f64.emax f64_prec f64_emax); [vm_compute; discriminate|].
    apply (SFadd_mono_r f64.prec f64.emax f64_prec f64_emax); [|closed_wf | reflexivity].
    let k := eval vm_compute in (f64.lit 25 100) in change (f64.lit 25 100) with k.
    apply (SFmul_mono_r f64.prec f64.emax f64_prec f64_emax); [closed_wf | exact H].
Qed.

Lemma ltb_nan_l (y : spec_float) : SFltb S754_nan y = false.
Proof. now destruct y. Qed.

Lemma spray_misses_high (std_cos : double -> double) (t : double)
  (b : ObjectBase) (y : float) :
  cos_at_least_minus_one std_cos ->
  fle32 y (f32.lit 1 2) ->
  Spray_hit (base (Spray_update std_cos t b)) y = false.
Proof.
  intros Hcos Hy. unfold Spray_hit.
  assert (H : (glm.y (pos_ (base (Spray_update std_cos t b))) <f y) = false).
  { destruct (spray_y_at_least_half std_cos t b Hcos) as [Hnan | Hc].
    - rewrite Hnan. apply ltb_nan_l.
    - apply (fle_ltb_false f32.prec f32.emax _ _ f32_prec f32_emax).
      exact (fle_trans f32.prec f32.emax f32_prec f32_emax _ _ _ Hy Hc). }
  rewrite H. apply andb_false_r.
Qed.

Lemma pelican_misses_low (t : double) (b : ObjectBase) (y : float) :
  fle32 (f32.lit 1 2) y ->
  Pelican_hit (base (Pelican_update t b)) y = false.
Proof.
  intros Hy. unfold Pelican_hit, Pelican_update. cbn [base pos_ glm.y].
  assert (H : (y -f f32.lit 2 10 <f f32.lit 5 100 +f f32.lit 2 10) = false).
  { apply (fle_ltb_false f32.prec f32.emax _ _ f32_prec f32_emax).
    apply (fle_trans f32.prec f32.emax f32_prec f32_emax _
             (f32.lit 1 2 -f f32.lit 2 10)).
    - split; [closed_wf | split; [closed_wf | reflexivity]].
    - unfold f32.sub.
      apply (SFsub_mono_l f32.prec f32.emax f32_prec f32_emax);
        [exact Hy | closed_wf | reflexivity]. }
  rewrite H. apply andb_false_r.
Qed.

(** X4: a Pelican hits only a vessel above height 0.5 (boatPosY < 0.5) and a
    Spray only a vessel below it (boatPosY > 0.5), the cosine being NaN or
    at least -1: no position of the vessel collides with both, and the vessel at rest
    at SEA_LEVEL is never hit by a Pelican. *)
Theorem hazards_hit_apart (std_cos : double -> double)
  (t t' : double) (bs bp : ObjectBase) (y : float) :
  cos_at_least_minus_one std_cos ->
  wf f32.prec f32.emax y ->
  (Pelican_hit (base (Pelican_update t' bp)) y = true ->
   (y <f f32.lit 1 2) = true)
  /\ (Spray_hit (base (Spray_update std_cos t bs)) y = true ->
      (f32.lit 1 2 <f y) = true)
  /\ (Spray_hit (base (Spray_update std_cos t bs)) y
      && Pelican_hit (base (Pelican_update t' bp)) y = false)
  /\ Pelican_hit (base (Pelican_update t' bp)) SEA_LEVEL = false.
Proof.
  intros Hcos Hy.
  assert (Hhalf : wf f32.prec f32.emax (f32.lit 1 2)) by closed_wf.
  assert (HP : Pelican_hit (base (Pelican_update t' bp)) y = true ->
               (y <f f32.lit 1 2) = true).
  { intros Hhit. destruct (y <f f32.lit 1 2) eqn:Hlt; [reflexivity|].
    rewrite pelican_misses_low in Hhit; [discriminate|].
    unfold f32.ltb in Hlt.
    destruct (SFleb (f32.lit 1 2) y) eqn:Hle.
    - split; [exact Hhalf | split; [exact Hy | exact Hle]].
    - pose proof (leb_false_ltb f32.prec f32.emax _ _ f32_prec f32_emax Hhalf Hy Hle).
      congruence. }
  assert (HS : Spray_hit (base (Spray_update std_cos t bs)) y = true ->
               (f32.lit 1 2 <f y) = true).
  { intros Hhit. destruct (f32.lit 1 2 <f y) eqn:Hlt; [reflexivity|].
    rewrite (spray_misses_high std_cos) in Hhit; [discriminate | exact Hcos|].
    unfold f32.ltb in Hlt.
    destruct (SFleb y (f32.lit 1 2)) eqn:Hle.
    - split; [exact Hy | split; [exact Hhalf | exact Hle]].
    - pose proof (leb_false_ltb f32.prec f32.emax _ _ f32_prec f32_emax Hy Hhalf Hle).
      congruence. }
  split; [exact HP | split; [exact HS | split]].
  - destruct (Spray_hit _ y) eqn:Hs; [|reflexivity].
    destruct (Pelican_hit _ y) eqn:Hp; [|reflexivity].
    specialize (HP eq_refl). specialize (HS eq_refl).
    unfold f32.ltb in *.
    rewrite (ltb_ord f32.prec f32.emax f32_prec f32_emax _ _ _ (Z.le_refl _) Hy Hhalf) in HP.
    rewrite (ltb_ord f32.prec f32.emax f32_prec f32_emax _ _ _ (Z.le_refl _) Hhalf Hy) in HS.
    apply Z.ltb_lt in HP, HS. lia.
  - apply pelican_misses_low. split; [closed_wf | split; [closed_wf | reflexivity]].
Qed.

(** ** The vessel over a whole session *)

Lemma frame_vessel_cycle
  (std_cos : double -> double) (mt19937 : Type)
  (sample_bernoulli : random.bernoulli_distribution -> mt19937 -> bool * mt19937)
  (sample_uniform_real :
     random.uniform_real_distribution -> mt19937 -> double * mt19937)
  (i : Input) (s : Session mt19937) :
  In (vessel s) jump_cycle ->
  In (vessel (frame std_cos sample_bernoulli sample_uniform_real i s)) jump_cycle.
Proof.
  intros Hin. destruct (gameover s) eqn:Hg.
  - unfold frame. rewrite Hg. destruct (retryKeyPressed i); [|exact Hin].
    left. reflexivity.
  - rewrite (frame_running std_cos mt19937 sample_bernoulli sample_uniform_real i s Hg).
    cbv zeta.
    pose proof (jump_cycle_closed (jumpKeyPressed i) _ Hin) as H.
    unfold vessel in *.
    destruct (physics (jumpKeyPressed i) (boatPosY s, boatVelY s, grounded s))
      as [[p v] g].
    destruct (spawn _ _ _ _ _ _) as [[objs eng] gap].
    exact H.
Qed.

Lemma jump_cycle_bounds (v : float * float * bool) :
  In v jump_cycle ->
  (APEX <=f posY_of v) = true /\ (posY_of v <=f OVERSHOOT) = true
  /\ finite_float (posY_of v) /\ finite_float (snd (fst v)).
Proof.
  intros Hin.
  assert (Hall : forallb
                   (fun w => (APEX <=f posY_of w) && (posY_of w <=f OVERSHOOT)
                             && valid_binary f32.prec f32.emax (posY_of w)
                             && is_fin (posY_of w)
                             && valid_binary f32.prec f32.emax (snd (fst w))
                             && is_fin (snd (fst w)))
                   jump_cycle = true) by (vm_compute; reflexivity).
  rewrite forallb_forall in Hall. specialize (Hall v Hin).
  rewrite !andb_true_iff in Hall.
  destruct Hall as [[[[[H1 H2] H3] H4] H5] H6].
  assert (Hn : forall x, is_fin x = true -> x <> S754_nan)
    by (intros x Hx ->; discriminate).
  repeat split; auto.
Qed.

(** X5: whatever the keys and the clock do, the vessel of a session is in
    one of the 70 states of the jump cycle (at rest, or one of the 69
    airborne states of a jump): boatPosY stays between the apex and the
    overshoot below SEA_LEVEL, and position and velocity are finite. *)
Theorem vessel_stays_on_cycle
  (std_cos : double -> double) (mt19937 : Type)
  (sample_bernoulli : random.bernoulli_distribution -> mt19937 -> bool * mt19937)
  (sample_uniform_real :
     random.uniform_real_distribution -> mt19937 -> double * mt19937)
  (inputs : list Input) (seed : mt19937) (t0 t1 : double) :
  In (vessel (run std_cos sample_bernoulli sample_uniform_real inputs
                (init seed t0 t1))) jump_cycle
  /\ (APEX <=f boatPosY (run std_cos sample_bernoulli sample_uniform_real inputs
                           (init seed t0 t1))) = true
  /\ (boatPosY (run std_cos sample_bernoulli sample_uniform_real inputs
                  (init seed t0 t1)) <=f OVERSHOOT) = true
  /\ finite_float (boatPosY (run std_cos sample_bernoulli sample_uniform_real
                               inputs (init seed t0 t1)))
  /\ finite_float (boatVelY (run std_cos sample_bernoulli sample_uniform_real
                               inputs (init seed t0 t1))).
Proof.
  assert (H : forall s : Session mt19937,
             In (vessel s) jump_cycle ->
             In (vessel (run std_cos sample_bernoulli sample_uniform_real inputs s))
                jump_cycle).
  { unfold run. induction inputs as [|i rest IH]; intros s Hs; [exact Hs|].
    cbn [fold_left]. apply IH. now apply frame_vessel_cycle. }
  specialize (H (init seed t0 t1) (or_introl eq_refl)).
  split; [exact H|]. exact (jump_cycle_bounds _ H).
Qed.

(** ** The length of a jump *)

Lemma physics_airborne (j : bool) (v : float * float * bool) :
  snd v = false -> physics j v = physics false v.
Proof. destruct v as [[p w] g]. cbn [snd]. intros ->. reflexivity. Qed.

Lemma trace_key_free (jumps : list bool) (v : float * float * bool) :
  snd v = false ->
  forallb (fun w => negb (snd w))
          (removelast (physics_trace (repeat false (length jumps)) v)) = true ->
  physics_trace jumps v = physics_trace (repeat false (length jumps)) v.
Proof.
  revert v. induction jumps as [|j rest IH]; intros v Hv Hair; [reflexivity|].
  cbn [length repeat physics_trace] in *. cbv zeta in *.
  rewrite (physics_airborne j v Hv). f_equal.
  destruct rest as [|j' rest']; [reflexivity|].
  apply IH.
  - cbn [length repeat physics_trace removelast] in Hair. cbv zeta in Hair.
    cbn [forallb] in Hair. apply andb_true_iff in Hair.
    destruct Hair as [Hair _]. now apply negb_true_iff in Hair.
  - cbn [length repeat physics_trace] in Hair |- *. cbv zeta in Hair |- *.
    cbn [removelast] in Hair. cbn [forallb] in Hair.
    apply andb_true_iff in Hair. exact (proj2 Hair).
Qed.

(** X6: a jump lasts 69 frames whatever is done with the jump key during
    it: after a frame with the key down on the vessel at rest, the next 69
    frames run through the 68 remaining airborne states and end at rest,
    for every sequence of 69 key readings. *)
Theorem jump_ignores_key (jumps : list bool) :
  length jumps = 69%nat ->
  physics_trace (true :: jumps) (SEA_LEVEL, S754_zero false, true)
  = jump_once 68 ++ [(SEA_LEVEL, S754_zero false, true)].
Proof.
  intros Hlen. cbn [physics_trace]. cbv zeta.
  rewrite trace_key_free.
  - rewrite Hlen. vm_compute. reflexivity.
  - reflexivity.
  - rewrite Hlen. vm_compute. reflexivity.
Qed.

(** ** A hazard that is no longer visible cannot hit *)

Lemma wf_sub (prec emax : Z) (x y : spec_float) :
  0 < prec -> prec < emax ->
  wf prec emax x -> wf prec emax y -> is_fin y = true ->
  wf prec emax (SFsub prec emax x y).
Proof.
  intros Hp He Hx Hy Hfy.
  pose proof (fle_refl prec emax x Hp He Hx) as H.
  exact (proj1 (SFsub_mono_l prec emax Hp He x x y H Hy Hfy)).
Qed.

Lemma wf_const_sub (prec emax : Z) (x y : spec_float) :
  0 < prec -> prec < emax ->
  wf prec emax x -> is_fin x = true -> wf prec emax y ->
  wf prec emax (SFsub prec emax x y).
Proof.
  intros Hp He Hx Hfx Hy.
  pose proof (fle_refl prec emax y Hp He Hy) as H.
  exact (proj1 (SFsub_anti_r prec emax Hp He x y y H Hx Hfx)).
Qed.

Lemma wf_const_mul (prec emax : Z) (mc : positive) (ec : Z) (x : spec_float) :
  0 < prec -> prec < emax ->
  wf prec emax (S754_finite false mc ec) -> wf prec emax x ->
  wf prec emax (SFmul prec emax (S754_finite false mc ec) x).
Proof.
  intros Hp He Hc Hx.
  exact (proj1 (SFmul_ord prec emax Hp He _ mc ec x (Z.le_refl _) Hc Hx)).
Qed.

Lemma wf_of_double (v : double) :
  wf f64.prec f64.emax v -> wf f32.prec f32.emax (f32.of_double v).
Proof.
  intros Hv.
  refine (proj1 (convert_ord f32.prec f32.emax f32_prec f32_emax
                   f64.prec f64.emax f64_prec f64_emax v _ Hv)).
  vm_compute; discriminate.
Qed.

(** The abscissa of a Pelican is a [float], possibly infinite. *)
Lemma pelican_x_wf (t s : double) :
  finite_double s -> wf f64.prec f64.emax t ->
  wf f32.prec f32.emax
     (f32.of_double
        (f64.of_float (f32.lit 1 1) -d f64.of_float (f32.lit 8 10) *d (t -d s))).
Proof.
  intros [Hs Hsf] Ht. apply wf_of_double. unfold f64.sub, f64.mul.
  let c := eval vm_compute in (f64.of_float (f32.lit 8 10)) in
  change (f64.of_float (f32.lit 8 10)) with c.
  apply wf_const_sub; [exact f64_prec | exact f64_emax | closed_wf | reflexivity|].
  apply wf_const_mul; [exact f64_prec | exact f64_emax | closed_wf|].
  now apply wf_sub; [exact f64_prec | exact f64_emax | | |].
Qed.

Lemma pelican_invisible_misses (t : double) (b : ObjectBase) (y : float) :
  finite_double (spawnTime_ b) -> wf f64.prec f64.emax t ->
  visible_ (base (Pelican_update t b)) = false ->
  Pelican_hit (base (Pelican_update t b)) y = false.
Proof.
  intros Hs Ht. unfold Pelican_hit, Pelican_update.
  cbn [base visible_ pos_ glm.x glm.y].
  pose proof (pelican_x_wf t (spawnTime_ b) Hs Ht) as Hx.
  set (x := f32.of_double _) in *. unfold f32.leb, f32.neg. intros Hinv.
  assert (Hle : fle32 x (SFopp PELICAN_WIDTH)).
  { apply (leb_false_fle f32.prec f32.emax _ _ f32_prec f32_emax);
      [closed_wf | exact Hx | exact Hinv]. }
  assert (H : (BOAT_POS_X <f x +f PELICAN_WIDTH) = false).
  { apply (fle_ltb_false f32.prec f32.emax _ _ f32_prec f32_emax).
    apply (fle_trans f32.prec f32.emax f32_prec f32_emax _
             (SFopp PELICAN_WIDTH +f PELICAN_WIDTH)).
    - unfold f32.add.
      apply (SFadd_mono_l f32.prec f32.emax f32_prec f32_emax);
        [exact Hle | closed_wf | reflexivity].
    - split; [closed_wf | split; [closed_wf | reflexivity]]. }
  rewrite H. rewrite andb_false_r. reflexivity.
Qed.

(** When the deadline [s + pi] of a Spray is passed, at least [pi] has
    elapsed since the spawn, as computed: no rounding of the deadline or of
    the difference can hide it. *)
Lemma spray_elapsed_pi (t s : double) :
  finite_double s -> wf f64.prec f64.emax t ->
  (t <=d s +d pi) = false -> fle64 pi (t -d s).
Proof.
  intros [Hs Hsf] Ht Hinv.
  pose proof (emin_bounds f64.prec f64.emax f64_prec f64_emax) as [Hm _].
  set (E := emin f64.prec f64.emax) in *.
  assert (Hpi : wf f64.prec f64.emax pi) by closed_wf.
  destruct (SFadd_fin f64.prec f64.emax f64_prec f64_emax E s pi (Z.le_refl _)
              Hs Hpi Hsf eq_refl) as [Hdw Hdo].
  unfold f64.leb, f64.add in Hinv.
  rewrite (leb_ord f64.prec f64.emax f64_prec f64_emax E _ _ (Z.le_refl _) Ht Hdw)
    in Hinv.
  apply Z.leb_gt in Hinv. rewrite Hdo in Hinv.
  assert (Hso : wf f64.prec f64.emax (SFopp s)) by now apply wf_opp.
  assert (Hsof : is_fin (SFopp s) = true) by (now destruct s).
  unfold f64.sub. rewrite SFsub_add_opp.
  destruct (SFadd_ord f64.prec f64.emax f64_prec f64_emax E t (SFopp s)
              (Z.le_refl _) Ht Hso Hsof) as [Hw Ho].
  apply (fle_ord f64.prec f64.emax f64_prec f64_emax E _ _ (Z.le_refl _)).
  split; [exact Hpi | split; [exact Hw|]].
  rewrite Ho, ord_opp.
  pose proof (Rz_bounds f64.prec f64.emax f64_prec f64_emax E
                (ord f64.emax E s + ord f64.emax E pi) (Z.le_refl _)) as Hb.
  destruct (is_fin t) eqn:Hft.
  - assert (Hfix : Rz f64.prec f64.emax E (ord f64.emax E t) = ord f64.emax E t).
    { apply (Rz_fixed f64.prec f64.emax f64_prec E t (Z.le_refl _) Ht).
      intros sg ->. discriminate. }
    assert (Hge : ord f64.emax E s + ord f64.emax E pi <= ord f64.emax E t).
    { destruct (Z_le_gt_dec (ord f64.emax E s + ord f64.emax E pi)
                            (ord f64.emax E t)) as [H|H]; [exact H|].
      pose proof (Rz_mono f64.prec f64.emax f64_prec f64_emax E
                    (ord f64.emax E t) (ord f64.emax E s + ord f64.emax E pi)
                    (Z.le_refl _) ltac:(lia)) as Hmono.
      rewrite Hfix in Hmono. lia. }
    rewrite <- (Rz_fixed f64.prec f64.emax f64_prec E pi (Z.le_refl _) Hpi)
      by (intros sg; discriminate).
    apply (Rz_mono f64.prec f64.emax f64_prec f64_emax E); [apply Z.le_refl | lia].
  - destruct (inf_ord f64.prec f64.emax E t Ht Hft) as [[-> Hi] | [-> Hi]];
      rewrite Hi in *.
    + pose proof (fin_ord_strict f64.prec f64.emax f64_prec f64_emax E pi
                    (Z.le_refl _) Hpi eq_refl). lia.
    + lia.
Qed.

Lemma spray_invisible_misses (std_cos : double -> double)
  (t : double) (b : ObjectBase) (y : float) :
  finite_double (spawnTime_ b) -> wf f64.prec f64.emax t ->
  visible_ (base (Spray_update std_cos t b)) = false ->
  Spray_hit (base (Spray_update std_cos t b)) y = false.
Proof.
  intros Hs Ht. unfold Spray_hit, Spray_update.
  cbn [base visible_ pos_ glm.x glm.y]. intros Hinv.
  pose proof (spray_elapsed_pi t (spawnTime_ b) Hs Ht Hinv) as Hel.
  set (d := t -d spawnTime_ b) in *.
  assert (Hx : fle32 (f32.of_double
                        (f64.of_float (f32.lit 9 10) -d f64.of_float WAVE_SPEED *d d))
                     (f32.of_double
                        (f64.of_float (f32.lit 9 10) -d f64.of_float WAVE_SPEED *d pi))).
  { unfold f32.of_double, f64.sub, f64.mul.
    apply (convert_mono f32.prec f32.emax f32_prec f32_emax
             f64.prec f64.emax f64_prec f64_emax); [vm_compute; discriminate|].
    let c := eval vm_compute in (f64.of_float WAVE_SPEED) in
    change (f64.of_float WAVE_SPEED) with c.
    apply (SFsub_anti_r f64.prec f64.emax f64_prec f64_emax);
      [|closed_wf | reflexivity].
    apply (SFmul_mono_r f64.prec f64.emax f64_prec f64_emax); [closed_wf | exact Hel]. }
  set (x := f32.of_double _) in *.
  assert (H : (BOAT_POS_X <f x +f SPRAY_WIDTH) = false).
  { apply (fle_ltb_false f32.prec f32.emax _ _ f32_prec f32_emax).
    eapply (fle_trans f32.prec f32.emax f32_prec f32_emax).
    - unfold f32.add.
      apply (SFadd_mono_l f32.prec f32.emax f32_prec f32_emax);
        [exact Hx | closed_wf | reflexivity].
    - computed_fle. }
  rewrite H. rewrite andb_false_r. reflexivity.
Qed.

(** X7: a hazard that [update] leaves invisible does not hit, wherever the
    vessel is: a Pelican past the left edge and a Spray past its deadline
    are both left of the vessel.  So the collision loop, which tests
    invisible hazards too, cannot end the game on one. *)
Theorem invisible_never_hits (std_cos : double -> double)
  (t : double) (o : Object) (y : float) :
  finite_double (getSpawnTime o) ->
  wf f64.prec f64.emax t ->
  isVisible (update std_cos t o) = false ->
  hit (update std_cos t o) y = false.
Proof.
  intros Hs Ht. destruct o as [b|b a]; unfold getSpawnTime, isVisible in *;
    cbn [base update] in *.
  - intros Hinv. change (hit (Spray_update std_cos t b) y)
      with (Spray_hit (base (Spray_update std_cos t b)) y).
    now apply spray_invisible_misses.
  - intros Hinv. change (hit (Pelican_update t b) y)
      with (Pelican_hit (base (Pelican_update t b)) y).
    now apply pelican_invisible_misses.
Qed.

(** ** The registry over a session *)

Lemma update_spawn_time (std_cos : double -> double) (t : double) (o : Object) :
  getSpawnTime (update std_cos t o) = getSpawnTime o.
Proof. now destruct o. Qed.

Lemma update_idem (std_cos : double -> double) (t : double) (o : Object) :
  update std_cos t (update std_cos t o) = update std_cos t o.
Proof. now destruct o. Qed.

Lemma spaced_cull (objs : list Object) : spaced objs -> spaced (cull objs).
Proof.
  induction objs as [|o rest IH]; [auto|].
  intros H. cbn [cull]. destruct (isVisible o); [exact H|].
  apply IH. exact (proj2 (proj2 H)).
Qed.

Lemma spaced_map_update (std_cos : double -> double) (t : double)
  (objs : list Object) :
  spaced objs -> spaced (map (update std_cos t) objs).
Proof.
  induction objs as [|o rest IH]; [auto|].
  intros (Ho & Hnext & Hrest). cbn [map spaced].
  rewrite update_spawn_time. split; [exact Ho|]. split; [|now apply IH].
  destruct rest as [|h rest']; [exact I|]. cbn [map].
  now rewrite update_spawn_time.
Qed.

Lemma spaced_snoc (objs : list Object) (new : Object) :
  spaced objs ->
  finite_double (getSpawnTime new) ->
  (forall o, back objs = Some o ->
             (getSpawnTime o +d f64.lit 1 1 <d getSpawnTime new) = true) ->
  spaced (objs ++ [new]).
Proof.
  intros Hsp Hnew. induction objs as [|o rest IH]; intros Hback.
  - cbn. auto.
  - destruct Hsp as (Ho & Hnext & Hrest). cbn [app spaced].
    split; [exact Ho|]. destruct rest as [|h rest'].
    + cbn [app spaced]. split; [|auto]. apply Hback. reflexivity.
    + split; [exact Hnext|]. apply IH; [exact Hrest|].
      intros o' Ho'. apply Hback. unfold back in *. cbn [map last] in *.
      exact Ho'.
Qed.

Lemma cull_incl (objs : list Object) (o : Object) :
  In o (cull objs) -> In o objs.
Proof.
  induction objs as [|h rest IH]; [auto|]. cbn [cull].
  destruct (isVisible h); [auto|]. intros H. right. now apply IH.
Qed.

Lemma back_In (objs : list Object) (o : Object) :
  back objs = Some o -> In o objs.
Proof.
  unfold back. induction objs as [|h rest IH]; [discriminate|].
  destruct rest as [|h' rest'].
  - cbn. intros [= ->]. now left.
  - intros H. right. apply IH. exact H.
Qed.

(** A gap of at least [1.0] spaces the new hazard from the last one. *)
Lemma due_spaced (t gap s : double) :
  finite_double s -> finite_double t ->
  fle64 (f64.lit 1 1) gap ->
  (s +d gap <d t) = true -> (s +d f64.lit 1 1 <d t) = true.
Proof.
  intros [Hs Hsf] [Ht _] Hgap Hdue. unfold f64.ltb, f64.add in *.
  apply (fle_ltb_trans f64.prec f64.emax _ (SFadd f64.prec f64.emax s gap) _
           f64_prec f64_emax); [|exact Ht | exact Hdue].
  now apply (SFadd_mono_r f64.prec f64.emax f64_prec f64_emax).
Qed.

Lemma frame_registry_inv
  (std_cos : double -> double) (mt19937 : Type)
  (sample_bernoulli : random.bernoulli_distribution -> mt19937 -> bool * mt19937)
  (sample_uniform_real :
     random.uniform_real_distribution -> mt19937 -> double * mt19937)
  (i : Input) (s : Session mt19937) :
  draws_in_range sample_uniform_real ->
  finite_double (glfwGetTime i) ->
  registry_inv s ->
  registry_inv (frame std_cos sample_bernoulli sample_uniform_real i s).
Proof.
  intros Hrange Ht (Hsp & Hgap). destruct (gameover s) eqn:Hg.
  - unfold frame. rewrite Hg. destruct (retryKeyPressed i).
    + split; [exact I|]. intros H. now contradiction H.
    + split; [exact Hsp | exact Hgap].
  - rewrite (frame_running std_cos mt19937 sample_bernoulli sample_uniform_real i s Hg).
    cbv zeta. unfold registry_inv. cbn [objects time interval].
    set (t := glfwGetTime i) in *.
    assert (Hlive : spaced (cull (objects s))) by now apply spaced_cull.
    unfold spawn. destruct (spawn_due t (interval s) (cull (objects s))) eqn:Hdue.
    + destruct (sample_bernoulli typeDist (randEngine s)) as [spray g1].
      pose proof (Hrange g1) as (Hw & Hlo & Hhi).
      destruct (sample_uniform_real intervalDist g1) as [gap g2].
      cbn [fst snd] in *. split.
      * apply spaced_map_update. apply spaced_snoc; [exact Hlive | |].
        { now destruct spray. }
        intros o Ho.
        replace (getSpawnTime (if spray then Spray_ctor t else Pelican_ctor t))
          with t by now destruct spray.
        unfold spawn_due in Hdue. rewrite Ho in Hdue.
        assert (Hin : In o (objects s)) by (apply cull_incl; now apply back_In).
        assert (Hne : objects s <> []) by (intros H; now rewrite H in Hin).
        destruct (Hgap Hne) as [Hge _].
        apply (due_spaced t (interval s)); [|exact Ht | exact Hge | exact Hdue].
        clear - Hsp Hin. induction (objects s) as [|h rest IH]; [contradiction|].
        destruct Hsp as (Hh & _ & Hrest). destruct Hin as [->|Hin]; auto.
      * intros _. split; [|exact Hhi].
        split; [closed_wf | split; [exact Hw | exact Hlo]].
    + cbn [fst snd]. split.
      * now apply spaced_map_update.
      * intros Hne. apply Hgap. intros H. apply Hne. now rewrite H.
Qed.

Lemma run_registry_inv
  (std_cos : double -> double) (mt19937 : Type)
  (sample_bernoulli : random.bernoulli_distribution -> mt19937 -> bool * mt19937)
  (sample_uniform_real :
     random.uniform_real_distribution -> mt19937 -> double * mt19937)
  (inputs : list Input) (s : Session mt19937) :
  draws_in_range sample_uniform_real ->
  finite_clock inputs ->
  registry_inv s ->
  registry_inv (run std_cos sample_bernoulli sample_uniform_real inputs s).
Proof.
  intros Hrange Hclock. revert s. unfold run.
  induction Hclock as [|i rest Hi Hrest IH]; intros s Hs; [exact Hs|].
  cbn [fold_left]. apply IH. now apply frame_registry_inv.
Qed.

Lemma init_registry_inv (mt19937 : Type) (seed : mt19937) (t0 t1 : double) :
  registry_inv (init seed t0 t1).
Proof. split; [exact I|]. intros H. now contradiction H. Qed.

Lemma frame_registry_updated
  (std_cos : double -> double) (mt19937 : Type)
  (sample_bernoulli : random.bernoulli_distribution -> mt19937 -> bool * mt19937)
  (sample_uniform_real :
     random.uniform_real_distribution -> mt19937 -> double * mt19937)
  (i : Input) (s : Session mt19937) :
  finite_double (glfwGetTime i) ->
  registry_updated std_cos s ->
  registry_updated std_cos (frame std_cos sample_bernoulli sample_uniform_real i s).
Proof.
  intros Ht Hupd. destruct (gameover s) eqn:Hg.
  - unfold frame. rewrite Hg. destruct (retryKeyPressed i); [constructor | exact Hupd].
  - rewrite (frame_running std_cos mt19937 sample_bernoulli sample_uniform_real i s Hg).
    cbv zeta. unfold registry_updated in *. cbn [objects time].
    set (t := glfwGetTime i) in *.
    apply Forall_forall. intros o Hin. apply in_map_iff in Hin.
    destruct Hin as (o0 & <- & Hin). rewrite update_spawn_time, update_idem.
    split; [|split; [exact (proj1 Ht) | reflexivity]].
    unfold spawn in Hin.
    destruct (spawn_due t (interval s) (cull (objects s))).
    + destruct (sample_bernoulli typeDist (randEngine s)) as [spray g1].
      destruct (sample_uniform_real intervalDist g1) as [gap g2].
      cbn [fst] in Hin. apply in_app_or in Hin. destruct Hin as [Hin | [<- | []]].
      * apply cull_incl in Hin. rewrite Forall_forall in Hupd.
        exact (proj1 (Hupd o0 Hin)).
      * now destruct spray.
    + cbn [fst] in Hin. apply cull_incl in Hin. rewrite Forall_forall in Hupd.
      exact (proj1 (Hupd o0 Hin)).
Qed.

Lemma run_registry_updated
  (std_cos : double -> double) (mt19937 : Type)
  (sample_bernoulli : random.bernoulli_distribution -> mt19937 -> bool * mt19937)
  (sample_uniform_real :
     random.uniform_real_distribution -> mt19937 -> double * mt19937)
  (inputs : list Input) (s : Session mt19937) :
  finite_clock inputs ->
  registry_updated std_cos s ->
  registry_updated std_cos
    (run std_cos sample_bernoulli sample_uniform_real inputs s).
Proof.
  intros Hclock. revert s. unfold run.
  induction Hclock as [|i rest Hi Hrest IH]; intros s Hs; [exact Hs|].
  cbn [fold_left]. apply IH. now apply frame_registry_updated.
Qed.

(** ** Spawn times along the registry *)

Lemma ltb_succ_one (s t : double) :
  finite_double s -> wf f64.prec f64.emax t ->
  (s +d f64.lit 1 1 <d t) = true -> (s <d t) = true.
Proof.
  intros [Hs Hsf] Ht H. unfold f64.ltb, f64.add in *.
  apply (fle_ltb_trans f64.prec f64.emax _ (SFadd f64.prec f64.emax s (f64.lit 1 1)) _
           f64_prec f64_emax); [|exact Ht | exact H].
  apply (SFadd_ge_l f64.prec f64.emax s _ f64_prec f64_emax Hs Hsf);
    [closed_wf | reflexivity | reflexivity].
Qed.

Lemma spaced_finite (objs : list Object) :
  spaced objs -> Forall (fun o => finite_double (getSpawnTime o)) objs.
Proof.
  induction objs as [|o rest IH]; [constructor|].
  intros (Ho & _ & Hrest). constructor; auto.
Qed.

Lemma spaced_sorted (objs : list Object) :
  spaced objs -> spawn_increasing objs.
Proof.
  induction objs as [|o rest IH]; [constructor|].
  intros (Ho & Hnext & Hrest). specialize (IH Hrest).
  split; [|exact IH].
  destruct rest as [|h rest']; [constructor|].
  pose proof (spaced_finite _ Hrest) as Hfin.
  inversion Hfin as [|? ? Hh Hfin']; subst.
  assert (Hoh : (getSpawnTime o <d getSpawnTime h) = true)
    by (apply ltb_succ_one; [exact Ho | exact (proj1 Hh) | exact Hnext]).
  constructor; [exact Hoh|].
  destruct IH as [Hall _].
  rewrite Forall_forall in *. intros x Hx.
  unfold f64.ltb in *.
  apply (fle_ltb_trans f64.prec f64.emax _ (getSpawnTime h) _ f64_prec f64_emax).
  - apply (ltb_fle f64.prec f64.emax);
      [exact f64_prec | exact f64_emax | exact (proj1 Ho) | exact (proj1 Hh) | exact Hoh].
  - exact (proj1 (Hfin' x Hx)).
  - exact (Hall x Hx).
Qed.

(** X8: with finite clock readings, and whether or not the clock goes
    forward, the registry of a session is in strictly increasing order of
    spawn time, each hazard spawned more than 1.0 after the one before it;
    this holds across retries. *)
Theorem registry_spaced_and_sorted
  (std_cos : double -> double) (mt19937 : Type)
  (sample_bernoulli : random.bernoulli_distribution -> mt19937 -> bool * mt19937)
  (sample_uniform_real :
     random.uniform_real_distribution -> mt19937 -> double * mt19937)
  (inputs : list Input) (seed : mt19937) (t0 t1 : double) :
  draws_in_range sample_uniform_real ->
  finite_clock inputs ->
  spaced (objects (run std_cos sample_bernoulli sample_uniform_real inputs
                     (init seed t0 t1)))
  /\ spawn_increasing
       (objects (run std_cos sample_bernoulli sample_uniform_real inputs
                   (init seed t0 t1))).
Proof.
  intros Hrange Hclock.
  destruct (run_registry_inv std_cos mt19937 sample_bernoulli sample_uniform_real
              inputs (init seed t0 t1) Hrange Hclock
              (init_registry_inv mt19937 seed t0 t1)) as [Hsp _].
  split; [exact Hsp | now apply spaced_sorted].
Qed.

(** X9: only a visible hazard ends the game: when a frame of a session
    with finite clock readings sets [gameover], the registry before the
    frame holds a hazard that is visible and that hits the vessel at its
    position after the physics of the frame. *)
Theorem gameover_needs_visible_hazard
  (std_cos : double -> double) (mt19937 : Type)
  (sample_bernoulli : random.bernoulli_distribution -> mt19937 -> bool * mt19937)
  (sample_uniform_real :
     random.uniform_real_distribution -> mt19937 -> double * mt19937)
  (inputs : list Input) (seed : mt19937) (t0 t1 : double) (i : Input) :
  finite_clock inputs ->
  gameover (run std_cos sample_bernoulli sample_uniform_real inputs
              (init seed t0 t1)) = false ->
  gameover (frame std_cos sample_bernoulli sample_uniform_real i
              (run std_cos sample_bernoulli sample_uniform_real inputs
                 (init seed t0 t1))) = true ->
  exists o,
    In o (objects (run std_cos sample_bernoulli sample_uniform_real inputs
                     (init seed t0 t1)))
    /\ isVisible o = true
    /\ hit o (boatPosY (frame std_cos sample_bernoulli sample_uniform_real i
                          (run std_cos sample_bernoulli sample_uniform_real inputs
                             (init seed t0 t1)))) = true.
Proof.
  intros Hclock.
  pose proof (run_registry_updated std_cos mt19937 sample_bernoulli
                sample_uniform_real inputs (init seed t0 t1) Hclock
                (Forall_nil _)) as Hupd.
  set (s := run std_cos sample_bernoulli sample_uniform_real inputs
              (init seed t0 t1)) in *.
  intros Hrun.
  rewrite (frame_running std_cos mt19937 sample_bernoulli sample_uniform_real i s Hrun).
  cbv zeta. cbn [gameover boatPosY]. unfold collide. intros Hover.
  apply existsb_exists in Hover. destruct Hover as (o & Hin & Hhit).
  exists o. split; [exact Hin|]. split; [|exact Hhit].
  unfold registry_updated in Hupd. rewrite Forall_forall in Hupd.
  destruct (Hupd o Hin) as (Hfin & Hw & Heq).
  destruct (isVisible o) eqn:Hvis; [reflexivity | exfalso].
  rewrite <- Heq in Hvis, Hhit.
  destruct o as [b|b a]; unfold getSpawnTime, isVisible in *;
    cbn [base update hit] in *.
  - change (hit (Spray_update std_cos (time s) b) ?y)
      with (Spray_hit (base (Spray_update std_cos (time s) b)) y) in Hhit.
    rewrite spray_invisible_misses in Hhit; [discriminate | | |]; assumption.
  - change (hit (Pelican_update (time s) b) ?y)
      with (Pelican_hit (base (Pelican_update (time s) b)) y) in Hhit.
    rewrite pelican_invisible_misses in Hhit; [discriminate | | |]; assumption.
Qed.

(** ** Conversions in both directions *)

(** [convert_ord] at any common unit: it covers the widening from [float]
    to [double] as well. *)
Lemma convert_ord_at (prec emax prec0 emax0 E : Z) (x : spec_float) :
  0 < prec -> prec < emax -> 0 < prec0 -> prec0 < emax0 ->
  E <= emin prec emax -> E <= emin prec0 emax0 ->
  wf prec0 emax0 x ->
  wf prec emax (convert prec emax x)
  /\ ord emax E (convert prec emax x)
     = if is_fin x then Rz prec emax E (ord emax0 E x)
       else cond_Zopp (ord emax0 E x <? 0) (INF emax E).
Proof.
  intros Hprec Hemax Hprec0 Hemax0 HE HE0 Hx.
  pose proof (INF_pos prec0 emax0 Hprec0 Hemax0 E HE0) as HINF.
  destruct x as [sx|sx| |sx mx ex]; try (now elim (proj2 Hx)); cbn [convert is_fin].
  - split; [closed_wf | reflexivity].
  - split; [closed_wf|].
    cbn [ord]. destruct sx; cbn [cond_Zopp]; case_sign; lia.
  - destruct Hx as [Hvx _].
    pose proof (proj1 (valid_finite prec0 emax0 _ _ _) Hvx) as (Hex & _).
    destruct (binary_round_ord prec emax Hprec Hemax E sx mx ex HE ltac:(lia))
      as [Hw Ho].
    split; [exact Hw|]. rewrite Ho. cbn [ord].
    pose proof (pow2_pos (ex - E) ltac:(lia)).
    destruct sx; cbn [cond_Zopp].
    + rewrite Rz_opp. f_equal.
      destruct (Zpos mx * 2 ^ (ex - E)) eqn:HP; try lia. reflexivity.
    + destruct (Zpos mx * 2 ^ (ex - E)) eqn:HP; try lia. reflexivity.
Qed.

Lemma convert_mono_at (prec emax prec0 emax0 : Z) (x x' : spec_float) :
  0 < prec -> prec < emax -> 0 < prec0 -> prec0 < emax0 ->
  fle prec0 emax0 x x' ->
  fle prec emax (convert prec emax x) (convert prec emax x').
Proof.
  intros Hprec Hemax Hprec0 Hemax0 H.
  set (E := Z.min (emin prec emax) (emin prec0 emax0)).
  assert (HE : E <= emin prec emax) by apply Z.le_min_l.
  assert (HE0 : E <= emin prec0 emax0) by apply Z.le_min_r.
  apply (fle_ord prec0 emax0 Hprec0 Hemax0 E) in H; [|exact HE0].
  destruct H as (Hx & Hx' & Hle).
  destruct (convert_ord_at prec emax prec0 emax0 E x Hprec Hemax Hprec0 Hemax0
              HE HE0 Hx) as [Hw Ho].
  destruct (convert_ord_at prec emax prec0 emax0 E x' Hprec Hemax Hprec0 Hemax0
              HE HE0 Hx') as [Hw' Ho'].
  apply (fle_ord prec emax Hprec Hemax E); [exact HE|].
  split; [exact Hw | split; [exact Hw'|]].
  apply (mono_cases prec emax Hprec Hemax prec0 emax0 Hprec0 Hemax0
           E E x x' _ _ _ _ HE0 HE Hx Hx' Hle Ho Ho').
  intros _ _. exact Hle.
Qed.

Lemma of_float_mono (x x' : float) :
  fle32 x x' -> fle64 (f64.of_float x) (f64.of_float x').
Proof.
  apply (convert_mono_at f64.prec f64.emax f32.prec f32.emax);
    [exact f64_prec | exact f64_emax | exact f32_prec | exact f32_emax].
Qed.

(** ** The window of the scheduler *)

(** X10: the gap between two spawns is within the bounds of
    [intervalDist]: in a Running frame of a session with finite clock
    readings whose registry keeps a hazard after the cull, nothing is
    spawned while the time is at most 1.0 after the spawn time of the last
    hazard, and a hazard is spawned as soon as the time exceeds that spawn
    time by more than 3.0 (sums as the scheduler computes them). *)
Theorem spawn_window
  (std_cos : double -> double) (mt19937 : Type)
  (sample_bernoulli : random.bernoulli_distribution -> mt19937 -> bool * mt19937)
  (sample_uniform_real :
     random.uniform_real_distribution -> mt19937 -> double * mt19937)
  (inputs : list Input) (seed : mt19937) (t0 t1 : double) (i : Input)
  (o : Object) :
  draws_in_range sample_uniform_real ->
  finite_clock inputs ->
  finite_double (glfwGetTime i) ->
  back (cull (objects (run std_cos sample_bernoulli sample_uniform_real inputs
                         (init seed t0 t1)))) = Some o ->
  ((glfwGetTime i <=d getSpawnTime o +d f64.lit 1 1) = true ->
   spawn_due (glfwGetTime i)
     (interval (run std_cos sample_bernoulli sample_uniform_real inputs
                  (init seed t0 t1)))
     (cull (objects (run std_cos sample_bernoulli sample_uniform_real inputs
                       (init seed t0 t1)))) = false)
  /\ ((getSpawnTime o +d f64.lit 3 1 <d glfwGetTime i) = true ->
      spawn_due (glfwGetTime i)
        (interval (run std_cos sample_bernoulli sample_uniform_real inputs
                     (init seed t0 t1)))
        (cull (objects (run std_cos sample_bernoulli sample_uniform_real inputs
                          (init seed t0 t1)))) = true).
Proof.
  intros Hrange Hclock [Ht _] Hback.
  destruct (run_registry_inv std_cos mt19937 sample_bernoulli sample_uniform_real
              inputs (init seed t0 t1) Hrange Hclock
              (init_registry_inv mt19937 seed t0 t1)) as [Hsp Hgap].
  set (s := run std_cos sample_bernoulli sample_uniform_real inputs
              (init seed t0 t1)) in *.
  assert (Hin : In o (objects s)) by (apply cull_incl; now apply back_In).
  assert (Hne : objects s <> []) by (intros H; now rewrite H in Hin).
  destruct (Hgap Hne) as [Hge Hlt].
  assert (Ho : finite_double (getSpawnTime o)).
  { pose proof (spaced_finite _ Hsp) as Hfin. rewrite Forall_forall in Hfin.
    now apply Hfin. }
  destruct Ho as [Hso Hsof].
  assert (Hgw : wf f64.prec f64.emax (interval s)) by exact (proj1 (proj2 Hge)).
  unfold spawn_due. rewrite Hback. unfold f64.ltb, f64.leb, f64.add in *.
  split; intros H.
  - apply (fle_ltb_false f64.prec f64.emax _ _ f64_prec f64_emax).
    apply (fle_trans f64.prec f64.emax f64_prec f64_emax _
             (SFadd f64.prec f64.emax (getSpawnTime o) (f64.lit 1 1))).
    + split; [exact Ht | split; [|exact H]].
      apply wf_add; [exact f64_prec | exact f64_emax | exact Hso | closed_wf
                     | reflexivity].
    + now apply (SFadd_mono_r f64.prec f64.emax f64_prec f64_emax).
  - apply (fle_ltb_trans f64.prec f64.emax _
             (SFadd f64.prec f64.emax (getSpawnTime o) (f64.lit 3 1)) _
             f64_prec f64_emax); [|exact Ht | exact H].
    apply (SFadd_mono_r f64.prec f64.emax f64_prec f64_emax); [|exact Hso | exact Hsof].
    apply (ltb_fle f64.prec f64.emax);
      [exact f64_prec | exact f64_emax | exact Hgw | closed_wf | exact Hlt].
Qed.

(** ** Frames on an empty registry *)

Lemma cull_all_invisible (objs : list Object) :
  forallb (fun o => negb (isVisible o)) objs = true -> cull objs = [].
Proof.
  induction objs as [|o rest IH]; [reflexivity|]. cbn [forallb cull].
  intros H. apply andb_true_iff in H. destruct H as [Ho Hrest].
  apply negb_true_iff in Ho. rewrite Ho. now apply IH.
Qed.

(** X11: when no hazard of the registry is visible, a Running frame
    empties the registry and spawns at once, whatever the gap and the
    clock: after the frame the registry holds the new hazard alone, and the
    gap and the engine are those after the two draws. *)
Theorem expired_registry_respawns
  (std_cos : double -> double) (mt19937 : Type)
  (sample_bernoulli : random.bernoulli_distribution -> mt19937 -> bool * mt19937)
  (sample_uniform_real :
     random.uniform_real_distribution -> mt19937 -> double * mt19937)
  (i : Input) (s : Session mt19937) :
  gameover s = false ->
  forallb (fun o => negb (isVisible o)) (objects s) = true ->
  objects (frame std_cos sample_bernoulli sample_uniform_real i s)
  = [update std_cos (glfwGetTime i)
       (if fst (sample_bernoulli typeDist (randEngine s))
        then Spray_ctor (glfwGetTime i) else Pelican_ctor (glfwGetTime i))]
  /\ interval (frame std_cos sample_bernoulli sample_uniform_real i s)
     = fst (sample_uniform_real intervalDist
              (snd (sample_bernoulli typeDist (randEngine s))))
  /\ randEngine (frame std_cos sample_bernoulli sample_uniform_real i s)
     = snd (sample_uniform_real intervalDist
              (snd (sample_bernoulli typeDist (randEngine s)))).
Proof.
  intros Hrun Hinv.
  rewrite (frame_running std_cos mt19937 sample_bernoulli sample_uniform_real i s Hrun).
  cbv zeta. cbn [objects interval randEngine].
  rewrite (cull_all_invisible _ Hinv). unfold spawn, spawn_due. cbn [back map last].
  destruct (sample_bernoulli typeDist (randEngine s)) as [spray g1].
  cbn [fst snd].
  destruct (sample_uniform_real intervalDist g1) as [gap g2].
  cbn [fst snd app map]. repeat split.
Qed.

(** X12: a retry restarts from the vessel at rest and an empty registry
    but keeps the engine, the gap and the time; the next frame then runs the
    physics from rest, cannot end the game, and spawns the first hazard of
    the new game with the kind and the gap drawn from the engine as the lost
    game left it. *)
Theorem retry_then_frame
  (std_cos : double -> double) (mt19937 : Type)
  (sample_bernoulli : random.bernoulli_distribution -> mt19937 -> bool * mt19937)
  (sample_uniform_real :
     random.uniform_real_distribution -> mt19937 -> double * mt19937)
  (i i' : Input) (s : Session mt19937) :
  gameover s = true ->
  retryKeyPressed i = true ->
  frame std_cos sample_bernoulli sample_uniform_real i s
  = mkSession SEA_LEVEL (S754_zero false) true [] (randEngine s) (interval s)
              false (time s)
  /\ gameover (frame std_cos sample_bernoulli sample_uniform_real i'
                 (frame std_cos sample_bernoulli sample_uniform_real i s)) = false
  /\ vessel (frame std_cos sample_bernoulli sample_uniform_real i'
               (frame std_cos sample_bernoulli sample_uniform_real i s))
     = physics (jumpKeyPressed i') (SEA_LEVEL, S754_zero false, true)
  /\ objects (frame std_cos sample_bernoulli sample_uniform_real i'
                (frame std_cos sample_bernoulli sample_uniform_real i s))
     = [update std_cos (glfwGetTime i')
          (if fst (sample_bernoulli typeDist (randEngine s))
           then Spray_ctor (glfwGetTime i') else Pelican_ctor (glfwGetTime i'))]
  /\ interval (frame std_cos sample_bernoulli sample_uniform_real i'
                 (frame std_cos sample_bernoulli sample_uniform_real i s))
     = fst (sample_uniform_real intervalDist
              (snd (sample_bernoulli typeDist (randEngine s)))).
Proof.
  intros Hover Hretry.
  assert (H1 : frame std_cos sample_bernoulli sample_uniform_real i s
               = mkSession SEA_LEVEL (S754_zero false) true [] (randEngine s)
                           (interval s) false (time s)).
  { unfold frame. now rewrite Hover, Hretry. }
  split; [exact H1|]. rewrite H1.
  rewrite (frame_running std_cos mt19937 sample_bernoulli sample_uniform_real i'
             (mkSession SEA_LEVEL (S754_zero false) true [] (randEngine s)
                        (interval s) false (time s)) eq_refl).
  cbv zeta. unfold vessel. cbn [gameover boatPosY boatVelY grounded objects
                                 interval randEngine cull collide existsb].
  unfold spawn, spawn_due. cbn [back map last].
  destruct (sample_bernoulli typeDist (randEngine s)) as [spray g1].
  cbn [fst snd].
  destruct (sample_uniform_real intervalDist g1) as [gap g2].
  cbn [fst snd app map].
  split; [reflexivity|]. split; [|split; reflexivity].
  cbv beta iota delta [vessel boatPosY boatVelY grounded].
  match goal with
  | |- _ = ?r => change ((fst (fst r), snd (fst r), snd r) = r);
                 now destruct r as [[p v] g]
  end.
Qed.

(** ** The first moments of a hazard *)

(** X13: a hazard cannot hit during the first 0.75 after its spawn
    (elapsed time as [update] computes it), wherever the vessel is: until
    then a Pelican is at 0.4 or further right and a Spray at 0.6 or further
    right, beyond the right edge of the vessel. *)
Theorem fresh_hazard_misses (std_cos : double -> double)
  (t : double) (o : Object) (y : float) :
  fle64 (t -d getSpawnTime o) (f64.lit 3 4) ->
  hit (update std_cos t o) y = false.
Proof.
  intros Hel. destruct o as [b|b a]; unfold getSpawnTime in Hel;
    cbn [base update hit] in *.
  - change (hit (Spray_update std_cos t b) y)
      with (Spray_hit (base (Spray_update std_cos t b)) y).
    unfold Spray_hit, Spray_update. cbn [base pos_ glm.x glm.y].
    set (x := f32.of_double _).
    assert (Hx : fle32 (f32.of_double
                          (f64.of_float (f32.lit 9 10)
                           -d f64.of_float WAVE_SPEED *d f64.lit 3 4)) x).
    { unfold x, f32.of_double, f64.sub, f64.mul.
      apply (convert_mono f32.prec f32.emax f32_prec f32_emax
               f64.prec f64.emax f64_prec f64_emax); [vm_compute; discriminate|].
      let c := eval vm_compute in (f64.of_float WAVE_SPEED) in
      change (f64.of_float WAVE_SPEED) with c.
      apply (SFsub_anti_r f64.prec f64.emax f64_prec f64_emax);
        [|closed_wf | reflexivity].
      apply (SFmul_mono_r f64.prec f64.emax f64_prec f64_emax);
        [closed_wf | exact Hel]. }
    assert (H : (f64.of_float x +d f64.lit 5 10 *d f64.of_float SPRAY_WIDTH
                 <d f64.of_float (BOAT_POS_X +f BOAT_WIDTH)) = false).
    { apply (fle_ltb_false f64.prec f64.emax _ _ f64_prec f64_emax).
      eapply (fle_trans f64.prec f64.emax f64_prec f64_emax).
      2:{ unfold f64.add.
          apply (SFadd_mono_l f64.prec f64.emax f64_prec f64_emax);
            [|closed_wf | reflexivity].
          apply of_float_mono. exact Hx. }
      computed_fle. }
    rewrite H. reflexivity.
  - change (hit (Pelican_update t b) y)
      with (Pelican_hit (base (Pelican_update t b)) y).
    unfold Pelican_hit, Pelican_update. cbn [base pos_ glm.x glm.y].
    set (x := f32.of_double _).
    assert (Hx : fle32 (f32.of_double
                          (f64.of_float (f32.lit 1 1)
                           -d f64.of_float (f32.lit 8 10) *d f64.lit 3 4)) x).
    { unfold x, f32.of_double, f64.sub, f64.mul.
      apply (convert_mono f32.prec f32.emax f32_prec f32_emax
               f64.prec f64.emax f64_prec f64_emax); [vm_compute; discriminate|].
      let c := eval vm_compute in (f64.of_float (f32.lit 8 10)) in
      change (f64.of_float (f32.lit 8 10)) with c.
      apply (SFsub_anti_r f64.prec f64.emax f64_prec f64_emax);
        [|closed_wf | reflexivity].
      apply (SFmul_mono_r f64.prec f64.emax f64_prec f64_emax);
        [closed_wf | exact Hel]. }
    assert (H : (x <f BOAT_POS_X +f BOAT_WIDTH) = false).
    { apply (fle_ltb_false f32.prec f32.emax _ _ f32_prec f32_emax).
      eapply (fle_trans f32.prec f32.emax f32_prec f32_emax); [|exact Hx].
      computed_fle. }
    rewrite H. reflexivity.
Qed.

(** ** The vertical test of the Spray *)

(** X14: the vertical test of [Spray::hit] bounds the vessel on one side
    only: a Spray that hits the vessel at one position hits it at every
    position numerically at or above it (lower on the screen); the
    horizontal tests do not depend on the vessel. *)
Theorem spray_hit_one_sided (std_cos : double -> double)
  (t : double) (b : ObjectBase) (y y' : float) :
  cos_at_least_minus_one std_cos ->
  fle32 y y' ->
  Spray_hit (base (Spray_update std_cos t b)) y = true ->
  Spray_hit (base (Spray_update std_cos t b)) y' = true.
Proof.
  intros Hcos Hy.
  pose proof (spray_y_at_least_half std_cos t b Hcos) as Hc.
  unfold Spray_hit. set (p := pos_ (base (Spray_update std_cos t b))) in *.
  rewrite !andb_true_iff. intros [Hh Hv]. split; [exact Hh|].
  destruct Hc as [Hnan | (_ & Hw & _)].
  - rewrite Hnan in Hv. unfold f32.ltb in Hv. rewrite ltb_nan_l in Hv.
    discriminate.
  - unfold f32.ltb in *.
    apply (fle_ord f32.prec f32.emax f32_prec f32_emax _ _ _ (Z.le_refl _)) in Hy.
    destruct Hy as (Hy & Hy' & Hle).
    rewrite (ltb_ord f32.prec f32.emax f32_prec f32_emax _ _ _ (Z.le_refl _) Hw Hy)
      in Hv.
    rewrite (ltb_ord f32.prec f32.emax f32_prec f32_emax _ _ _ (Z.le_refl _) Hw Hy').
    apply Z.ltb_lt in Hv. apply Z.ltb_lt. lia.
Qed.

(** ** The size of the registry *)

Lemma ltb_add_ord (s c t : double) :
  finite_double s -> finite_double c -> finite_double t ->
  (s +d c <d t) = true ->
  ord f64.emax (emin f64.prec f64.emax) s + ord f64.emax (emin f64.prec f64.emax) c
  < ord f64.emax (emin f64.prec f64.emax) t.
Proof.
  intros [Hs Hsf] [Hc Hcf] [Ht Htf] Hlt.
  set (E := emin f64.prec f64.emax).
  destruct (SFadd_fin f64.prec f64.emax f64_prec f64_emax E s c (Z.le_refl _)
              Hs Hc Hsf Hcf) as [Hw Ho].
  unfold f64.ltb, f64.add in Hlt.
  rewrite (ltb_ord f64.prec f64.emax f64_prec f64_emax E _ _ (Z.le_refl _) Hw Ht)
    in Hlt.
  apply Z.ltb_lt in Hlt. rewrite Ho in Hlt.
  assert (Hfix : Rz f64.prec f64.emax E (ord f64.emax E t) = ord f64.emax E t).
  { apply (Rz_fixed f64.prec f64.emax f64_prec E t (Z.le_refl _) Ht).
    intros sg ->. discriminate. }
  destruct (Z_lt_le_dec (ord f64.emax E s + ord f64.emax E c) (ord f64.emax E t))
    as [H|H]; [exact H | exfalso].
  pose proof (Rz_mono f64.prec f64.emax f64_prec f64_emax E _ _ (Z.le_refl _) H)
    as Hmono.
  rewrite Hfix in Hmono. lia.
Qed.

Lemma elapsed_ge (s c t : double) :
  finite_double s -> finite_double c -> finite_double t ->
  ord f64.emax (emin f64.prec f64.emax) s + ord f64.emax (emin f64.prec f64.emax) c
  <= ord f64.emax (emin f64.prec f64.emax) t ->
  fle64 c (t -d s).
Proof.
  intros [Hs Hsf] [Hc Hcf] [Ht Htf] Hle.
  set (E := emin f64.prec f64.emax) in *.
  assert (Hso : wf f64.prec f64.emax (SFopp s)) by now apply wf_opp.
  assert (Hsof : is_fin (SFopp s) = true) by (now destruct s).
  unfold f64.sub. rewrite SFsub_add_opp.
  destruct (SFadd_fin f64.prec f64.emax f64_prec f64_emax E t (SFopp s)
              (Z.le_refl _) Ht Hso Htf Hsof) as [Hw Ho].
  apply (fle_ord f64.prec f64.emax f64_prec f64_emax E _ _ (Z.le_refl _)).
  split; [exact Hc | split; [exact Hw|]].
  rewrite Ho, ord_opp.
  rewrite <- (Rz_fixed f64.prec f64.emax f64_prec E c (Z.le_refl _) Hc)
    by (intros sg ->; discriminate).
  apply (Rz_mono f64.prec f64.emax f64_prec f64_emax E); [apply Z.le_refl | lia].
Qed.

(** A Pelican is invisible once 2.0 has elapsed. *)
Lemma pelican_gone_after_two (t : double) (b : ObjectBase) :
  fle64 (f64.lit 2 1) (t -d spawnTime_ b) ->
  visible_ (base (Pelican_update t b)) = false.
Proof.
  intros Hel. unfold Pelican_update. cbn [base visible_ glm.x].
  unfold f32.leb, f32.neg.
  assert (Hx : fle32 (f32.of_double
                        (f64.of_float (f32.lit 1 1)
                         -d f64.of_float (f32.lit 8 10) *d (t -d spawnTime_ b)))
                     (f32.of_double
                        (f64.of_float (f32.lit 1 1)
                         -d f64.of_float (f32.lit 8 10) *d f64.lit 2 1))).
  { unfold f32.of_double, f64.sub, f64.mul.
    apply (convert_mono f32.prec f32.emax f32_prec f32_emax
             f64.prec f64.emax f64_prec f64_emax); [vm_compute; discriminate|].
    let c := eval vm_compute in (f64.of_float (f32.lit 8 10)) in
    change (f64.of_float (f32.lit 8 10)) with c.
    apply (SFsub_anti_r f64.prec f64.emax f64_prec f64_emax);
      [|closed_wf | reflexivity].
    apply (SFmul_mono_r f64.prec f64.emax f64_prec f64_emax); [closed_wf | exact Hel]. }
  set (x := f32.of_double _) in *.
  destruct (SFleb (SFopp PELICAN_WIDTH) x) eqn:Hv; [exfalso | reflexivity].
  assert (H : SFleb (SFopp PELICAN_WIDTH)
                (f32.of_double
                   (f64.of_float (f32.lit 1 1)
                    -d f64.of_float (f32.lit 8 10) *d f64.lit 2 1)) = true).
  { apply (leb_fle_trans f32.prec f32.emax _ x _ f32_prec f32_emax);
      [closed_wf | exact Hv | exact Hx]. }
  vm_compute in H. discriminate.
Qed.

Lemma finite_one : finite_double (f64.lit 1 1).
Proof. split; [closed_wf | reflexivity]. Qed.

(** After the cull: a spaced registry whose front is visible at [T], no
    hazard spawned after [T], holds at most five hazards. *)
Lemma live_bounded (std_cos : double -> double) (T : double) (l : list Object) :
  finite_double T ->
  spaced l ->
  Forall (fun o => fle64 (getSpawnTime o) T) l ->
  Forall (fun o => update std_cos T o = o) l ->
  match l with [] => True | o :: _ => isVisible o = true end ->
  (length l <= 5)%nat.
Proof.
  intros HT Hsp Hle Hupd Hfront.
  destruct l as [|o0 [|o1 [|o2 [|o3 [|o4 [|o5 rest]]]]]]; cbn [length]; try lia.
  exfalso.
  destruct Hsp as (H0 & H01 & H1 & H12 & H2 & H23 & H3 & H34 & H4 & H45 & H5 & _).
  pose proof (ltb_add_ord _ _ _ H0 finite_one H1 H01) as L01.
  pose proof (ltb_add_ord _ _ _ H1 finite_one H2 H12) as L12.
  pose proof (ltb_add_ord _ _ _ H2 finite_one H3 H23) as L23.
  pose proof (ltb_add_ord _ _ _ H3 finite_one H4 H34) as L34.
  pose proof (ltb_add_ord _ _ _ H4 finite_one H5 H45) as L45.
  set (E := emin f64.prec f64.emax) in *.
  assert (HU : 0 < ord f64.emax E (f64.lit 1 1)) by (vm_compute; reflexivity).
  set (U := ord f64.emax E (f64.lit 1 1)) in *.
  assert (H5T : ord f64.emax E (getSpawnTime o5) <= ord f64.emax E T).
  { rewrite Forall_forall in Hle.
    assert (Hin : In o5 [o0; o1; o2; o3; o4; o5]) by (cbn; tauto).
    specialize (Hle o5 ltac:(cbn; tauto)).
    apply (fle_ord f64.prec f64.emax f64_prec f64_emax E _ _ (Z.le_refl _)) in Hle.
    exact (proj2 (proj2 Hle)). }
  inversion Hupd as [|? ? Hu0 _]; subst.
  destruct o0 as [b0|b0 a0]; unfold getSpawnTime, isVisible in *;
    cbn [base update] in *.
  - (* a Spray in front *)
    assert (Hvis : visible_ (base (Spray_update std_cos T b0)) = true)
      by (rewrite Hu0; exact Hfront).
    unfold Spray_update in Hvis. cbn [base visible_] in Hvis.
    assert (Hpi : finite_double pi) by (split; [closed_wf | reflexivity]).
    destruct (SFadd_fin f64.prec f64.emax f64_prec f64_emax E (spawnTime_ b0) pi
                (Z.le_refl _) (proj1 H0) (proj1 Hpi) (proj2 H0) eq_refl)
      as [Hw Ho].
    unfold f64.leb, f64.add in Hvis.
    rewrite (leb_ord f64.prec f64.emax f64_prec f64_emax E _ _ (Z.le_refl _)
               (proj1 HT) Hw) in Hvis.
    apply Z.leb_le in Hvis. rewrite Ho in Hvis.
    assert (HP : ord f64.emax E pi <= 4 * U) by (vm_compute; discriminate).
    assert (Hfix : Rz f64.prec f64.emax E (ord f64.emax E (spawnTime_ (base o4)))
                   = ord f64.emax E (spawnTime_ (base o4))).
    { apply (Rz_fixed f64.prec f64.emax f64_prec E _ (Z.le_refl _) (proj1 H4)).
      intros sg Hsg. destruct H4 as [_ H4]. rewrite Hsg in H4. discriminate. }
    pose proof (Rz_mono f64.prec f64.emax f64_prec f64_emax E
                  (ord f64.emax E (spawnTime_ b0) + ord f64.emax E pi)
                  (ord f64.emax E (spawnTime_ (base o4))) (Z.le_refl _) ltac:(lia))
      as Hmono.
    rewrite Hfix in Hmono. lia.
  - (* a Pelican in front *)
    assert (Hvis : visible_ (base (Pelican_update T b0)) = true)
      by (rewrite Hu0; exact Hfront).
    rewrite pelican_gone_after_two in Hvis; [discriminate|].
    apply elapsed_ge; [exact H0 | split; [closed_wf | reflexivity] | exact HT|].
    fold E.
    assert (H2U : ord f64.emax E (f64.lit 2 1) = 2 * U) by (vm_compute; reflexivity).
    rewrite H2U. lia.
Qed.

Lemma cull_front_visible (objs : list Object) :
  match cull objs with [] => True | o :: _ => isVisible o = true end.
Proof.
  induction objs as [|o rest IH]; [exact I|]. cbn [cull].
  destruct (isVisible o) eqn:Hv; [exact Hv | exact IH].
Qed.

Lemma Forall_cull (P : Object -> Prop) (objs : list Object) :
  Forall P objs -> Forall P (cull objs).
Proof.
  rewrite !Forall_forall. intros H o Hin. apply H. now apply cull_incl.
Qed.

Lemma spawn_length (mt19937 : Type)
  (sample_bernoulli : random.bernoulli_distribution -> mt19937 -> bool * mt19937)
  (sample_uniform_real :
     random.uniform_real_distribution -> mt19937 -> double * mt19937)
  (t : double) (objs : list Object) (g : mt19937) (gap : double) :
  (length (fst (fst (spawn sample_bernoulli sample_uniform_real t objs g gap)))
   <= S (length objs))%nat.
Proof.
  unfold spawn. destruct (spawn_due t gap objs); [|cbn [fst]; lia].
  destruct (sample_bernoulli typeDist g) as [spray g1].
  destruct (sample_uniform_real intervalDist g1) as [gap' g2].
  cbn [fst]. rewrite length_app. cbn [length]. lia.
Qed.

Lemma frame_registry_timed
  (std_cos : double -> double) (mt19937 : Type)
  (sample_bernoulli : random.bernoulli_distribution -> mt19937 -> bool * mt19937)
  (sample_uniform_real :
     random.uniform_real_distribution -> mt19937 -> double * mt19937)
  (i : Input) (s : Session mt19937) (tprev : double) :
  finite_double (glfwGetTime i) ->
  fle64 tprev (glfwGetTime i) ->
  registry_timed s tprev ->
  registry_timed (frame std_cos sample_bernoulli sample_uniform_real i s)
                 (glfwGetTime i).
Proof.
  intros Ht Hmono [Htime Hall]. destruct (gameover s) eqn:Hg.
  - unfold frame. rewrite Hg. destruct (retryKeyPressed i).
    + split; [intros H; now contradiction H | constructor].
    + split; [|exact Hall]. intros Hne. destruct (Htime Hne) as [Hfin Hle].
      split; [exact Hfin|].
      exact (fle_trans f64.prec f64.emax f64_prec f64_emax _ _ _ Hle Hmono).
  - rewrite (frame_running std_cos mt19937 sample_bernoulli sample_uniform_real i s Hg).
    cbv zeta. unfold registry_timed. cbn [objects time].
    set (t := glfwGetTime i) in *.
    assert (Hrefl : fle64 t t)
      by exact (fle_refl f64.prec f64.emax t f64_prec f64_emax (proj1 Ht)).
    split; [intros _; split; [exact Ht | exact Hrefl]|].
    apply Forall_forall. intros o Hin. apply in_map_iff in Hin.
    destruct Hin as (o0 & <- & Hin). rewrite update_spawn_time.
    assert (Hold : In o0 (objects s) -> fle64 (getSpawnTime o0) t).
    { intros Hin0. rewrite Forall_forall in Hall.
      assert (Hne : objects s <> []) by (intros H; now rewrite H in Hin0).
      destruct (Htime Hne) as [_ Hle].
      apply (fle_trans f64.prec f64.emax f64_prec f64_emax _ (time s));
        [now apply Hall|].
      exact (fle_trans f64.prec f64.emax f64_prec f64_emax _ _ _ Hle Hmono). }
    unfold spawn in Hin.
    destruct (spawn_due t (interval s) (cull (objects s))).
    + destruct (sample_bernoulli typeDist (randEngine s)) as [spray g1].
      destruct (sample_uniform_real intervalDist g1) as [gap g2].
      cbn [fst] in Hin. apply in_app_or in Hin. destruct Hin as [Hin | [<- | []]].
      * apply Hold. now apply cull_incl.
      * now destruct spray.
    + cbn [fst] in Hin. apply Hold. now apply cull_incl.
Qed.

Lemma frame_length
  (std_cos : double -> double) (mt19937 : Type)
  (sample_bernoulli : random.bernoulli_distribution -> mt19937 -> bool * mt19937)
  (sample_uniform_real :
     random.uniform_real_distribution -> mt19937 -> double * mt19937)
  (i : Input) (s : Session mt19937) (tprev : double) :
  registry_inv s -> registry_updated std_cos s -> registry_timed s tprev ->
  (length (objects s) <= 6)%nat ->
  (length (cull (objects s)) <= 5)%nat
  /\ (length (objects (frame std_cos sample_bernoulli sample_uniform_real i s))
      <= 6)%nat.
Proof.
  intros [Hsp _] Hupd [Htime Hall] Hlen.
  assert (Hlive : (length (cull (objects s)) <= 5)%nat).
  { destruct (cull (objects s)) as [|o rest] eqn:Hc; [cbn; lia|].
    assert (Hne : objects s <> []) by (intros H; now rewrite H in Hc).
    destruct (Htime Hne) as [Hfin _]. rewrite <- Hc.
    apply (live_bounded std_cos (time s)).
    - exact Hfin.
    - now apply spaced_cull.
    - now apply Forall_cull.
    - apply Forall_cull. unfold registry_updated in Hupd.
      rewrite Forall_forall in *. intros h Hh. exact (proj2 (proj2 (Hupd h Hh))).
    - apply cull_front_visible. }
  split; [exact Hlive|].
  destruct (gameover s) eqn:Hg.
  - unfold frame. rewrite Hg. destruct (retryKeyPressed i); [cbn; lia | exact Hlen].
  - rewrite (frame_running std_cos mt19937 sample_bernoulli sample_uniform_real i s Hg).
    cbv zeta. cbn [objects]. rewrite length_map.
    pose proof (spawn_length mt19937 sample_bernoulli sample_uniform_real
                  (glfwGetTime i) (cull (objects s)) (randEngine s) (interval s)).
    lia.
Qed.

Lemma run_bounded
  (std_cos : double -> double) (mt19937 : Type)
  (sample_bernoulli : random.bernoulli_distribution -> mt19937 -> bool * mt19937)
  (sample_uniform_real :
     random.uniform_real_distribution -> mt19937 -> double * mt19937)
  (inputs : list Input) (s : Session mt19937) (tprev : double) :
  draws_in_range sample_uniform_real ->
  finite_clock inputs -> clock_from tprev inputs ->
  registry_inv s -> registry_updated std_cos s -> registry_timed s tprev ->
  (length (objects s) <= 6)%nat ->
  (length (objects (run std_cos sample_bernoulli sample_uniform_real inputs s))
   <= 6)%nat
  /\ (length (cull (objects (run std_cos sample_bernoulli sample_uniform_real
                              inputs s))) <= 5)%nat.
Proof.
  intros Hrange Hclock. revert s tprev. unfold run.
  induction Hclock as [|i rest Hi Hrest IH]; intros s tprev Hmono Hinv Hupd Htimed Hlen.
  - cbn [fold_left]. split; [exact Hlen|].
    exact (proj1 (frame_length std_cos mt19937 sample_bernoulli sample_uniform_real
                    (mkInput false false tprev) s tprev Hinv Hupd Htimed Hlen)).
  - cbn [fold_left]. destruct Hmono as [Hle Hmono].
    apply (IH _ (glfwGetTime i) Hmono).
    + now apply frame_registry_inv.
    + now apply frame_registry_updated.
    + now apply (frame_registry_timed _ _ _ _ _ _ tprev).
    + exact (proj2 (frame_length std_cos mt19937 sample_bernoulli
                      sample_uniform_real i s tprev Hinv Hupd Htimed Hlen)).
Qed.

(** X15: under a clock that is finite and does not go back, the registry
    never holds more than six hazards, and never more than five once the
    invisible front has been removed: the hazards are more than 1.0 apart,
    and the front one expires within pi (Spray) or 2.0 (Pelican) of its
    spawn. *)
Theorem registry_bounded
  (std_cos : double -> double) (mt19937 : Type)
  (sample_bernoulli : random.bernoulli_distribution -> mt19937 -> bool * mt19937)
  (sample_uniform_real :
     random.uniform_real_distribution -> mt19937 -> double * mt19937)
  (inputs : list Input) (seed : mt19937) (t0 t1 : double) :
  draws_in_range sample_uniform_real ->
  finite_clock inputs ->
  clock_from t1 inputs ->
  (length (objects (run std_cos sample_bernoulli sample_uniform_real inputs
                      (init seed t0 t1))) <= 6)%nat
  /\ (length (cull (objects (run std_cos sample_bernoulli sample_uniform_real
                              inputs (init seed t0 t1)))) <= 5)%nat.
Proof.
  intros Hrange Hclock Hmono.
  apply (run_bounded std_cos mt19937 sample_bernoulli sample_uniform_real
           inputs (init seed t0 t1) t1 Hrange Hclock Hmono).
  - apply init_registry_inv.
  - constructor.
  - split; [intros H; now contradiction H | constructor].
  - cbn. lia.
Qed.

(** ** Drawing the registry *)

Lemma pelican_draw_some (t : double) (b : ObjectBase) :
  finite_double (spawnTime_ b) -> fle64 (spawnTime_ b) t ->
  exists d, draw (Pelican_update t b) = Some d.
Proof.
  intros Hs Hst. unfold Pelican_update. cbn [draw].
  pose proof (elapsed_not_negative _ t Hs Hst) as Hel.
  assert (Hq : not_negative ((t -d spawnTime_ b) /d f64.lit 25 100) = true).
  { let c := eval vm_compute in (f64.lit 25 100) in
    change (f64.lit 25 100) with c.
    now apply SFdiv_not_negative. }
  destruct (to_int_rem2 _ Hq) as [-> | ->]; cbn; eexists; reflexivity.
Qed.

Lemma draw_objects_some (std_cos : double -> double) (T : double)
  (objs : list Object) :
  Forall (fun o => finite_double (getSpawnTime o)
                   /\ fle64 (getSpawnTime o) T
                   /\ update std_cos T o = o) objs ->
  exists ds, draw_objects objs = Some ds /\ length ds = length objs.
Proof.
  induction 1 as [|o rest (Hfin & Hle & Hupd) _ (ds & IH & Hlen)].
  - exists []. split; reflexivity.
  - assert (Hd : exists d, draw o = Some d).
    { destruct o as [b|b a].
      - eexists. reflexivity.
      - rewrite <- Hupd. cbn [update]. now apply pelican_draw_some. }
    destruct Hd as [d Hd]. exists (d :: ds). cbn [draw_objects length].
    rewrite Hd, IH, Hlen. split; reflexivity.
Qed.

Lemma run_registry_timed
  (std_cos : double -> double) (mt19937 : Type)
  (sample_bernoulli : random.bernoulli_distribution -> mt19937 -> bool * mt19937)
  (sample_uniform_real :
     random.uniform_real_distribution -> mt19937 -> double * mt19937)
  (inputs : list Input) (s : Session mt19937) (tprev : double) :
  finite_clock inputs -> clock_from tprev inputs ->
  registry_timed s tprev ->
  exists tlast,
    registry_timed (run std_cos sample_bernoulli sample_uniform_real inputs s)
                   tlast.
Proof.
  intros Hclock. revert s tprev. unfold run.
  induction Hclock as [|i rest Hi Hrest IH]; intros s tprev Hmono Htimed.
  - now exists tprev.
  - cbn [fold_left]. destruct Hmono as [Hle Hmono].
    apply (IH _ (glfwGetTime i) Hmono).
    now apply (frame_registry_timed _ _ _ _ _ _ tprev).
Qed.

(** X16: under a clock that is finite and does not go back, drawing the
    registry never throws: every Pelican of the registry has animation
    index 0 or 1, so each hazard draws one sprite.  (When the clock goes
    back the lookup can throw, as [pelican_draw_before_spawn] shows.) *)
Theorem draw_never_throws
  (std_cos : double -> double) (mt19937 : Type)
  (sample_bernoulli : random.bernoulli_distribution -> mt19937 -> bool * mt19937)
  (sample_uniform_real :
     random.uniform_real_distribution -> mt19937 -> double * mt19937)
  (inputs : list Input) (seed : mt19937) (t0 t1 : double) :
  finite_clock inputs ->
  clock_from t1 inputs ->
  exists ds,
    draw_objects (objects (run std_cos sample_bernoulli sample_uniform_real
                             inputs (init seed t0 t1))) = Some ds
    /\ length ds
       = length (objects (run std_cos sample_bernoulli sample_uniform_real
                            inputs (init seed t0 t1))).
Proof.
  intros Hclock Hmono.
  pose proof (run_registry_updated std_cos mt19937 sample_bernoulli
                sample_uniform_real inputs (init seed t0 t1) Hclock
                (Forall_nil _)) as Hupd.
  destruct (run_registry_timed std_cos mt19937 sample_bernoulli
              sample_uniform_real inputs (init seed t0 t1) t1 Hclock Hmono)
    as (tlast & _ & Hall).
  { split; [intros H; now contradiction H | constructor]. }
  set (s := run std_cos sample_bernoulli sample_uniform_real inputs
              (init seed t0 t1)) in *.
  apply (draw_objects_some std_cos (time s)).
  unfold registry_updated in Hupd. rewrite Forall_forall in *.
  intros o Hin. destruct (Hupd o Hin) as (Hfin & _ & Heq).
  split; [exact Hfin | split; [exact (Hall o Hin) | exact Heq]].
Qed.

(** * The properties at recorded runs *)

Lemma replay_cos : cos_at_least_minus_one Replay.std_cos.
Proof.
  intros v. unfold Replay.std_cos, Replay.cos_table. cbn [find fst snd].
  repeat match goal with
         | |- context [SFeqb ?a v] => destruct (SFeqb a v)
         end;
    (right; split; [computed_wf | vm_compute; reflexivity]).
Qed.

Lemma replay_draws : draws_in_range Replay.sample_uniform_real.
Proof.
  intros g.
  destruct g as [|[|] g];
    (split; [computed_wf | split; vm_compute; reflexivity]).
Qed.

Lemma replay_clock :
  finite_clock [Replay.at_time (S754_zero false); Replay.at_time (f64.lit 5 4);
                Replay.at_time (f64.lit 23 8)]
  /\ clock_from (S754_zero false)
       [Replay.at_time (S754_zero false); Replay.at_time (f64.lit 5 4);
        Replay.at_time (f64.lit 23 8)].
Proof.
  split.
  - repeat constructor; discriminate.
  - cbn [clock_from]. repeat split; discriminate.
Qed.

(** The frame that spawns the first hazard, a Spray, at 0.125. *)
Lemma spawned_hazard_state_witness :
  back (objects (Replay.frame (Replay.at_time (f64.lit 1 8))
                   (init [true; false] (S754_zero false) (S754_zero false))))
  = Some (Spray_spawned (f64.lit 1 8)).
Proof.
  apply (spawned_hazard_state Replay.std_cos Replay.engine
           Replay.sample_bernoulli Replay.sample_uniform_real
           (Replay.at_time (f64.lit 1 8))
           (init [true; false] (S754_zero false) (S754_zero false)));
    [reflexivity | closed_fin | reflexivity | reflexivity].
Defined.

(** A Pelican spawned at 0, invisible at 2.75, hence at 3. *)
Lemma visibility_one_way_witness :
  isVisible (update Replay.std_cos (f64.lit 3 1) (Pelican_ctor (S754_zero false)))
  = false.
Proof.
  apply (visibility_one_way Replay.std_cos (f64.lit 11 4) (f64.lit 3 1)
           (Pelican_ctor (S754_zero false)));
    [closed_fin | closed_fle | reflexivity].
Defined.

(** A Pelican spawned at 0, drawn after the update at 1.25. *)
Lemma pelican_draw_in_range_witness :
  exists sprite,
    draw (Pelican_update (f64.lit 5 4) (Object_ctor (S754_zero false)))
    = Some (sprite,
            pos_ (base (Pelican_update (f64.lit 5 4) (Object_ctor (S754_zero false)))))
    /\ In sprite pelicanSprites_.
Proof.
  apply (pelican_draw_in_range (f64.lit 5 4) (Object_ctor (S754_zero false)));
    [closed_fin | closed_fle].
Defined.

(** The vessel at rest under a Pelican one second old. *)
Lemma hazards_hit_apart_witness :
  Pelican_hit (base (Pelican_update (f64.lit 1 1) (Object_ctor (S754_zero false))))
              SEA_LEVEL = false.
Proof.
  refine (proj2 (proj2 (proj2
            (hazards_hit_apart Replay.std_cos (f64.lit 9 4) (f64.lit 1 1)
               (Object_ctor (S754_zero false)) (Object_ctor (S754_zero false))
               SEA_LEVEL replay_cos _)))).
  closed_wf.
Defined.

(** The jump key held down during the whole jump. *)
Lemma jump_ignores_key_witness :
  physics_trace (true :: repeat true 69) (SEA_LEVEL, S754_zero false, true)
  = jump_once 68 ++ [(SEA_LEVEL, S754_zero false, true)].
Proof.
  apply (jump_ignores_key (repeat true 69)). reflexivity.
Defined.

(** A Pelican spawned at 0 and updated at 2.75 is invisible and misses. *)
Lemma invisible_never_hits_witness :
  hit (update Replay.std_cos (f64.lit 11 4) (Pelican_ctor (S754_zero false)))
      (f32.lit 4 10) = false.
Proof.
  apply (invisible_never_hits Replay.std_cos (f64.lit 11 4)
           (Pelican_ctor (S754_zero false)) (f32.lit 4 10));
    [closed_fin | closed_wf | reflexivity].
Defined.

(** The run of [Replay.two_hazards]. *)
Lemma registry_spaced_and_sorted_witness :
  spawn_increasing
    (objects (Replay.run
                [Replay.at_time (S754_zero false); Replay.at_time (f64.lit 5 4);
                 Replay.at_time (f64.lit 23 8)]
                (init [true; false; false; true] (S754_zero false)
                      (S754_zero false)))).
Proof.
  exact (proj2 (registry_spaced_and_sorted Replay.std_cos Replay.engine
                  Replay.sample_bernoulli Replay.sample_uniform_real
                  _ _ _ _ replay_draws (proj1 replay_clock))).
Defined.

(** The frame at 2.5 after the run of [Replay.spray_arrives]. *)
Lemma gameover_needs_visible_hazard_witness :
  exists o,
    In o (objects (Replay.run
                     [Replay.at_time (S754_zero false); Replay.at_time (f64.lit 9 4)]
                     (init [true; true; false; false] (S754_zero false)
                           (S754_zero false))))
    /\ isVisible o = true
    /\ hit o (boatPosY
                (Replay.frame (Replay.at_time (f64.lit 5 2))
                   (Replay.run
                      [Replay.at_time (S754_zero false);
                       Replay.at_time (f64.lit 9 4)]
                      (init [true; true; false; false] (S754_zero false)
                            (S754_zero false))))) = true.
Proof.
  apply (gameover_needs_visible_hazard Replay.std_cos Replay.engine
           Replay.sample_bernoulli Replay.sample_uniform_real
           [Replay.at_time (S754_zero false); Replay.at_time (f64.lit 9 4)]
           [true; true; false; false] (S754_zero false) (S754_zero false)
           (Replay.at_time (f64.lit 5 2)));
    [repeat constructor; discriminate | vm_compute; reflexivity
     | vm_compute; reflexivity].
Defined.

(** After the run of [Replay.two_hazards] the last hazard was spawned at
    1.25: a frame at 4.5 spawns. *)
Lemma spawn_window_witness :
  spawn_due (f64.lit 9 2)
    (interval (Replay.run
                 [Replay.at_time (S754_zero false); Replay.at_time (f64.lit 5 4);
                  Replay.at_time (f64.lit 23 8)]
                 (init [true; false; false; true] (S754_zero false)
                       (S754_zero false))))
    (cull (objects (Replay.run
                      [Replay.at_time (S754_zero false);
                       Replay.at_time (f64.lit 5 4);
                       Replay.at_time (f64.lit 23 8)]
                      (init [true; false; false; true] (S754_zero false)
                            (S754_zero false))))) = true.
Proof.
  refine (proj2 (spawn_window Replay.std_cos Replay.engine
                   Replay.sample_bernoulli Replay.sample_uniform_real
                   [Replay.at_time (S754_zero false); Replay.at_time (f64.lit 5 4);
                    Replay.at_time (f64.lit 23 8)]
                   [true; false; false; true] (S754_zero false) (S754_zero false)
                   (Replay.at_time (f64.lit 9 2)) _
                   replay_draws (proj1 replay_clock) _ _) _);
    [closed_fin | vm_compute; reflexivity | vm_compute; reflexivity].
Defined.

(** A Pelican spawned at 0 is invisible after the frame at 2; the frame at
    2.125 leaves the new hazard alone in the registry. *)
Lemma expired_registry_respawns_witness :
  length (objects
            (Replay.frame (Replay.at_time (f64.lit 17 8))
               (Replay.run
                  [Replay.at_time (S754_zero false); Replay.at_time (f64.lit 2 1)]
                  (init [false; true; false; false] (S754_zero false)
                        (S754_zero false))))) = 1%nat.
Proof.
  unfold Replay.frame.
  rewrite (proj1 (expired_registry_respawns Replay.std_cos Replay.engine
                    Replay.sample_bernoulli Replay.sample_uniform_real
                    (Replay.at_time (f64.lit 17 8))
                    (Replay.run
                       [Replay.at_time (S754_zero false);
                        Replay.at_time (f64.lit 2 1)]
                       (init [false; true; false; false] (S754_zero false)
                             (S754_zero false)))
                    ltac:(vm_compute; reflexivity) ltac:(vm_compute; reflexivity))).
  reflexivity.
Defined.

(** A retry after the collision of [Replay.spray_arrives], then a frame at 3. *)
Lemma retry_then_frame_witness :
  gameover
    (Replay.frame (Replay.at_time (f64.lit 3 1))
       (Replay.frame (mkInput true false (f64.lit 11 4))
          (Replay.frame (Replay.at_time (f64.lit 5 2)) Replay.spray_arrives)))
  = false.
Proof.
  exact (proj1 (proj2
           (retry_then_frame Replay.std_cos Replay.engine
              Replay.sample_bernoulli Replay.sample_uniform_real
              (mkInput true false (f64.lit 11 4)) (Replay.at_time (f64.lit 3 1))
              (Replay.frame (Replay.at_time (f64.lit 5 2)) Replay.spray_arrives)
              eq_refl eq_refl))).
Defined.

(** A Pelican half a second old. *)
Lemma fresh_hazard_misses_witness :
  hit (update Replay.std_cos (f64.lit 1 2) (Pelican_ctor (S754_zero false)))
      (f32.lit 4 10) = false.
Proof.
  apply (fresh_hazard_misses Replay.std_cos (f64.lit 1 2)
           (Pelican_ctor (S754_zero false)) (f32.lit 4 10)).
  closed_fle.
Defined.

(** The Spray of [Replay.spray_arrives] at 2.25 hits the vessel at rest,
    hence at 1.0. *)
Lemma spray_hit_one_sided_witness :
  Spray_hit (base (Spray_update Replay.std_cos (f64.lit 9 4)
                     (Object_ctor (S754_zero false))))
            (f32.lit 1 1) = true.
Proof.
  apply (spray_hit_one_sided Replay.std_cos (f64.lit 9 4)
           (Object_ctor (S754_zero false)) SEA_LEVEL (f32.lit 1 1));
    [exact replay_cos | closed_fle | vm_compute; reflexivity].
Defined.

(** The run of [Replay.two_hazards]. *)
Lemma registry_bounded_witness :
  (length (objects (Replay.run
                      [Replay.at_time (S754_zero false);
                       Replay.at_time (f64.lit 5 4);
                       Replay.at_time (f64.lit 23 8)]
                      (init [true; false; false; true] (S754_zero false)
                            (S754_zero false)))) <= 6)%nat.
Proof.
  exact (proj1 (registry_bounded Replay.std_cos Replay.engine
                  Replay.sample_bernoulli Replay.sample_uniform_real
                  _ _ _ _ replay_draws (proj1 replay_clock) (proj2 replay_clock))).
Defined.

(** The run of [Replay.two_hazards]. *)
Lemma draw_never_throws_witness :
  exists ds,
    draw_objects
      (objects (Replay.run
                  [Replay.at_time (S754_zero false); Replay.at_time (f64.lit 5 4);
                   Replay.at_time (f64.lit 23 8)]
                  (init [true; false; false; true] (S754_zero false)
                        (S754_zero false)))) = Some ds
    /\ length ds
       = length (objects (Replay.run
                            [Replay.at_time (S754_zero false);
                             Replay.at_time (f64.lit 5 4);
                             Replay.at_time (f64.lit 23 8)]
                            (init [true; false; false; true] (S754_zero false)
                                  (S754_zero false)))).
Proof.
  exact (draw_never_throws Replay.std_cos Replay.engine
           Replay.sample_bernoulli Replay.sample_uniform_real
           _ _ _ _ (proj1 replay_clock) (proj2 replay_clock)).
Defined.
